(** * Rydberg-lattice and BeH2 notebooks: a shallow embedding

    The development follows the three notebooks of the repository:
    - [2_VMC_Rydberg.ipynb]: the class [VariationalMonteCarlo]
      (module [VMC]);
    - the Rydberg tomography notebook: [buildlattice] and
      [generatehamiltonian] (module [Tomography]), [LoadData] (module
      [RydbergData]);
    - [4_QST_BeH2.ipynb]: [operatorfromstring], [hamiltonian],
      [eigensolve], [LoadData], [OperatorFromString] and
      [BuildHamiltonian] (module [BeH2]).

    Floating-point numbers are read as exact real numbers ([R]); Python
    integers are [Z]; exceptions are an explicit result type. *)

From Stdlib Require Import String Ascii.
From Stdlib Require Import ZArith List Lia Bool Arith.
From Stdlib Require Import Reals Lra.
From Stdlib Require Import Permutation Sorted.
Import ListNotations.

(** ** Python preliminaries *)

(** The exceptions the modelled code can raise. *)
Inductive exn : Type :=
| IndexError
| TypeError
| ValueError
| AssertionError
| UnboundLocalError.

Inductive result (A : Type) : Type :=
| Ok (a : A)
| Raise (e : exn).

Arguments Ok {A} a.
Arguments Raise {A} e.

Definition bind {A B : Type} (m : result A) (k : A -> result B) : result B :=
  match m with
  | Ok a => k a
  | Raise e => Raise e
  end.

Declare Scope py_scope.
Delimit Scope py_scope with py.
Notation "x <- m ;; k" := (bind m (fun x => k))
  (at level 61, m at next level, right associativity) : py_scope.
Notation "' p <- m ;; k" := (bind m (fun p => k))
  (at level 61, p pattern, m at next level, right associativity) : py_scope.

(** [range(n)]: empty when [n <= 0]. *)
Definition range (n : Z) : list Z := map Z.of_nat (seq 0 (Z.to_nat n)).

(** [for x in l: s = body(x, s)]. *)
Definition for_each {A S : Type} (l : list A) (body : A -> S -> S) (s : S) : S :=
  fold_left (fun st x => body x st) l s.

(** A loop whose body can raise. *)
Fixpoint for_each_r {A S : Type} (l : list A) (body : A -> S -> result S)
  (s : S) : result S :=
  match l with
  | [] => Ok s
  | x :: l' => bind (body x s) (for_each_r l' body)
  end.

(** [l[i]] for an index [i >= 0] known to the code as a non-negative
    integer; out of range raises [IndexError]. *)
Definition getitem {A : Type} (l : list A) (i : nat) : result A :=
  match nth_error l i with
  | Some a => Ok a
  | None => Raise IndexError
  end.

Fixpoint mapM {A B : Type} (f : A -> result B) (l : list A) : result (list B) :=
  match l with
  | [] => Ok []
  | x :: l' =>
      match f x with
      | Ok y => match mapM f l' with
                | Ok ys => Ok (y :: ys)
                | Raise e => Raise e
                end
      | Raise e => Raise e
      end
  end.

(** [l[j]] for any integer [j]: a negative index counts from the end. *)
Definition py_index (len : nat) (j : Z) : result nat :=
  if ((0 <=? j) && (j <? Z.of_nat len))%Z then Ok (Z.to_nat j)
  else if ((- Z.of_nat len <=? j) && (j <? 0))%Z
       then Ok (Z.to_nat (j + Z.of_nat len))
       else Raise IndexError.

Definition py_getitem {A : Type} (l : list A) (j : Z) : result A :=
  bind (py_index (length l) j) (getitem l).

(** [l[0:stop]]: a slice never raises; a negative [stop] counts from
    the end. *)
Definition slice0 {A : Type} (stop : Z) (l : list A) : list A :=
  if (0 <=? stop)%Z then firstn (Z.to_nat stop) l
  else firstn (length l - Z.to_nat (- stop)) l.

(** Elementwise operation on two arrays of one shape.  Broadcasting
    between different shapes is outside the model: a shape mismatch is
    reported as [ValueError]. *)
Fixpoint zip_with {A B C : Type} (f : A -> B -> C) (la : list A) (lb : list B)
  : result (list C) :=
  match la, lb with
  | [], [] => Ok []
  | a :: la', b :: lb' =>
      match zip_with f la' lb' with
      | Ok l => Ok (f a b :: l)
      | Raise e => Raise e
      end
  | _, _ => Raise ValueError
  end.

(** Elementwise operation whose element function can itself raise. *)
Definition zip_with_r {A B C : Type} (f : A -> B -> result C)
  (la : list A) (lb : list B) : result (list C) :=
  bind (zip_with f la lb) (mapM (fun r => r)).

(** [l[i] = v], in place, for an index in range. *)
Fixpoint list_set {A : Type} (l : list A) (i : nat) (v : A) : list A :=
  match l, i with
  | [], _ => []
  | _ :: l', O => v :: l'
  | x :: l', S i' => x :: list_set l' i' v
  end.

(** [reduce_sum] of a vector of reals. *)
Definition Rsum (l : list R) : R := fold_right Rplus 0%R l.

(** A 64-bit signed integer operation wraps around. *)
Definition wrap64 (z : Z) : Z := ((z + 2 ^ 63) mod 2 ^ 64 - 2 ^ 63)%Z.

(** ** Arrays of numbers

    A two-dimensional array is the list of its rows.  The scalar
    operations are arguments, so the same functions serve integer, real
    and complex arrays. *)
Definition matrix (K : Type) : Type := list (list K).

(** [np.kron(A, B)] for two-dimensional arrays: the block at [(i, j)]
    is [A[i,j] * B]. *)
Definition kron {K : Type} (mul : K -> K -> K) (A B : matrix K) : matrix K :=
  flat_map (fun ra => map (fun rb => flat_map (fun a => map (mul a) rb) ra) B) A.

(** [c * A]. *)
Definition mscale {K : Type} (mul : K -> K -> K) (c : K) (A : matrix K)
  : matrix K :=
  map (map (mul c)) A.

(** [A[i,j]], with [d] where the array has no such entry. *)
Definition entry {K : Type} (d : K) (A : matrix K) (i j : nat) : K :=
  nth j (nth i A []) d.

(** ** NetKet operators

    [nk.operator.LocalOperator] belongs to the NetKet library.  An
    operator is kept as the expression that built it: a constant times
    the identity, a matrix acting on a list of sites, a sum ([+=]) or a
    product ([*=]).  The Hilbert space of the notebooks is
    [nk.hilbert.Qubit]: every site has the two local states 0 and 1. *)
Module NetKet.

Inductive LocalOperator (K : Type) : Type :=
| Const (c : K)
| Local (m : matrix K) (sites : list Z)
| Add (a b : LocalOperator K)
| Mul (a b : LocalOperator K).

Arguments Const {K} c.
Arguments Local {K} m sites.
Arguments Add {K} a b.
Arguments Mul {K} a b.

(** A configuration gives every site its local state. *)
Definition config : Type := list Z.

(** All configurations of [n] sites. *)
Fixpoint configs (n : nat) : list config :=
  match n with
  | O => [[]]
  | S n' => flat_map (fun t => [0%Z :: t; 1%Z :: t]) (configs n')
  end.

(** The row of a local matrix that the states of [sites] select: the
    first site is the most significant digit. *)
Definition local_index (s : config) (sites : list Z) : nat :=
  fold_left (fun acc a => (2 * acc + Z.to_nat (nth (Z.to_nat a) s 0%Z))%nat)
            sites 0%nat.

(** Two configurations that differ at most on [sites]. *)
Definition agree_off (sites : list Z) (s s' : config) : bool :=
  (length s =? length s')%nat
  && forallb (fun j => existsb (Z.eqb j) sites
                       || (nth (Z.to_nat j) s 0 =? nth (Z.to_nat j) s' 0)%Z)
             (range (Z.of_nat (length s))).

(** The matrix element [<s| O |s'>] of an operator with real entries on
    [n] sites. *)
Fixpoint matrix_element (n : nat) (o : LocalOperator R) (s s' : config) : R :=
  match o with
  | Const c => if list_eq_dec Z.eq_dec s s' then c else 0%R
  | Local m sites =>
      if agree_off sites s s'
      then entry 0%R m (local_index s sites) (local_index s' sites)
      else 0%R
  | Add a b => (matrix_element n a s s' + matrix_element n b s s')%R
  | Mul a b =>
      Rsum (map (fun t => (matrix_element n a s t * matrix_element n b t s')%R)
                (configs n))
  end.

End NetKet.

(** ** Square lattices: the bond lists of both notebooks *)

(** A bond is the two-element list [[a, b]] of the source. *)
Definition bond : Type := (Z * Z)%type.

Module Tomography.

Open Scope Z_scope.

(** The inner function [coord_to_site(Ly,x,y)]. *)
Definition coord_to_site (Ly x y : Z) : Z := Ly * x + y.

Record lattice : Type := mkLattice {
  nn : list bond;
  nnn : list bond;
  nnnn : list bond
}.

(** [buildlattice(Lx,Ly)]: the three local lists are threaded through
    the six nested loops in source order. *)
Definition buildlattice (Lx Ly : Z) : lattice :=
  let nn := [] in
  let nnn := [] in
  let nnnn := [] in
  let nn :=
    for_each (range Lx) (fun x nn =>
      for_each (range (Ly - 1)) (fun y nn =>
        nn ++ [(coord_to_site Ly x y, coord_to_site Ly x (y + 1))]) nn) nn in
  let nn :=
    for_each (range Ly) (fun y nn =>
      for_each (range (Lx - 1)) (fun x nn =>
        nn ++ [(coord_to_site Ly x y, coord_to_site Ly (x + 1) y)]) nn) nn in
  let nnn :=
    for_each (range (Ly - 1)) (fun y nnn =>
      for_each (range (Lx - 1)) (fun x nnn =>
        (nnn ++ [(coord_to_site Ly x y, coord_to_site Ly (x + 1) (y + 1))])
            ++ [(coord_to_site Ly (x + 1) y, coord_to_site Ly x (y + 1))])
        nnn) nnn in
  let nnnn :=
    for_each (range Ly) (fun y nnnn =>
      for_each (range (Lx - 2)) (fun x nnnn =>
        nnnn ++ [(coord_to_site Ly x y, coord_to_site Ly (x + 2) y)]) nnnn)
      nnnn in
  let nnnn :=
    for_each (range (Ly - 2)) (fun y nnnn =>
      for_each (range Lx) (fun x nnnn =>
        nnnn ++ [(coord_to_site Ly x y, coord_to_site Ly x (y + 2))]) nnnn)
      nnnn in
  mkLattice nn nnn nnnn.

Import NetKet.

(** [generatehamiltonian(hilbert,Lx,Ly,V,Omega,delta)].  The integer
    arrays [P], [PP] and [sx] become real when a float multiplies
    them. *)
Definition generatehamiltonian (Lx Ly : Z) (V Omega delta : R)
  : LocalOperator R :=
  let N := Lx * Ly in
  let lat := buildlattice Lx Ly in
  let P : matrix Z := [[0; 0]; [0; 1]] in
  let PP := kron Z.mul P P in
  let sx : matrix Z := [[0; 1]; [1; 0]] in
  let times (c : R) (A : matrix Z) : matrix R :=
    map (map (fun z => (c * IZR z)%R)) A in
  let H := Const 0%R in
  (* Transverse field *)
  let H := for_each (range N) (fun j H =>
             let localop := times (-0.5 * Omega)%R sx in
             Add H (Local localop [j])) H in
  (* Chemical potential *)
  let H := for_each (range N) (fun j H =>
             let localop := times (- delta)%R P in
             Add H (Local localop [j])) H in
  (* NN interactions *)
  let H := for_each (nn lat) (fun bond H =>
             let localop := times V PP in
             Add H (Local localop [fst bond; snd bond])) H in
  let H := for_each (nnn lat) (fun bond H =>
             let localop := times (V / 8)%R PP in
             Add H (Local localop [fst bond; snd bond])) H in
  let H := for_each (nnnn lat) (fun bond H =>
             let localop := times (V / 64)%R PP in
             Add H (Local localop [fst bond; snd bond])) H in
  H.

End Tomography.

Module VMC.

Open Scope Z_scope.

(** The fields of a [VariationalMonteCarlo] object that the modelled
    methods read or write.  The network layers and the optimizer are
    parameters of the sections below. *)
Record vmc : Type := mkVmc {
  Lx : Z;
  Ly : Z;
  V : R;
  Omega : R;
  delta : R;
  N : Z;
  nn : list bond;
  nnn : list bond;
  nnnn : list bond
}.

Definition set_nn (self : vmc) (l : list bond) : vmc :=
  mkVmc self.(Lx) self.(Ly) self.(V) self.(Omega) self.(delta) self.(N)
        l self.(nnn) self.(nnnn).
Definition set_nnn (self : vmc) (l : list bond) : vmc :=
  mkVmc self.(Lx) self.(Ly) self.(V) self.(Omega) self.(delta) self.(N)
        self.(nn) l self.(nnnn).
Definition set_nnnn (self : vmc) (l : list bond) : vmc :=
  mkVmc self.(Lx) self.(Ly) self.(V) self.(Omega) self.(delta) self.(N)
        self.(nn) self.(nnn) l.

(** [self.coord_to_site(x,y)]. *)
Definition coord_to_site (self : vmc) (x y : Z) : Z := self.(Ly) * x + y.

(** [self.buildlattice()]: every [append] mutates a field of [self]. *)
Definition buildlattice (self : vmc) : vmc :=
  let self := set_nn self [] in
  let self := set_nnn self [] in
  let self := set_nnnn self [] in
  let self :=
    for_each (range self.(Lx)) (fun x self =>
      for_each (range (self.(Ly) - 1)) (fun y self =>
        set_nn self (self.(nn) ++
          [(coord_to_site self x y, coord_to_site self x (y + 1))])) self)
      self in
  let self :=
    for_each (range self.(Ly)) (fun y self =>
      for_each (range (self.(Lx) - 1)) (fun x self =>
        set_nn self (self.(nn) ++
          [(coord_to_site self x y, coord_to_site self (x + 1) y)])) self)
      self in
  let self :=
    for_each (range (self.(Ly) - 1)) (fun y self =>
      for_each (range (self.(Lx) - 1)) (fun x self =>
        let self := set_nnn self (self.(nnn) ++
          [(coord_to_site self x y, coord_to_site self (x + 1) (y + 1))]) in
        set_nnn self (self.(nnn) ++
          [(coord_to_site self (x + 1) y, coord_to_site self x (y + 1))]))
        self) self in
  let self :=
    for_each (range self.(Ly)) (fun y self =>
      for_each (range (self.(Lx) - 2)) (fun x self =>
        set_nnnn self (self.(nnnn) ++
          [(coord_to_site self x y, coord_to_site self (x + 2) y)])) self)
      self in
  let self :=
    for_each (range (self.(Ly) - 2)) (fun y self =>
      for_each (range self.(Lx)) (fun x self =>
        set_nnnn self (self.(nnnn) ++
          [(coord_to_site self x y, coord_to_site self x (y + 2))])) self)
      self in
  self.

(** The part of [__init__] that sets the fields above and ends with
    [self.buildlattice()]. *)
Definition init (Lx Ly : Z) (V Omega delta : R) : vmc :=
  buildlattice (mkVmc Lx Ly V Omega delta (Lx * Ly) [] [] []).

(** *** The network

    [self.rnn] is a Keras GRU layer and [self.dense] a Dense layer with a
    softmax over [self.K = 2] outputs.  Their trained weights are not
    part of the notebook: a GRU layer is given by its cell (input and
    state to next state) and a Dense layer by the function it applies to
    every time step.  A vector of [K = 2] reals is a pair. *)
Record layers : Type := mkLayers {
  nh : nat;
  gru_cell : R * R -> list R -> list R;
  dense_fn : list R -> R * R
}.

Definition array2 : Type := list (list Z).

Open Scope R_scope.

(** The constant [1e-10]. *)
Definition eps : R := / 10 ^ 10.

(** [tf.one_hot(v, depth=2)]: all zeros when [v] is not 0 or 1. *)
Definition one_hot (v : Z) : R * R :=
  (if (v =? 0)%Z then 1 else 0, if (v =? 1)%Z then 1 else 0).

Definition scale2 (c : R) (p : R * R) : R * R := (c * fst p, c * snd p).

(** [tf.math.log(1e-10 + probs)] on one [K]-vector. *)
Definition log_eps (p : R * R) : R * R := (ln (eps + fst p), ln (eps + snd p)).

(** [tf.reduce_sum(a * b)] along the axis of length [K]. *)
Definition dot2 (p q : R * R) : R := fst p * fst q + snd p * snd q.

(** One row through the GRU with [return_sequences] and [return_state]:
    the state after every input, and the last state. *)
Fixpoint rnn_row (ly : layers) (xs : list (R * R)) (h : list R)
  : list (list R) * list R :=
  match xs with
  | [] => ([], h)
  | x :: xs' =>
      let h' := gru_cell ly x h in
      let (out, hT) := rnn_row ly xs' h' in
      (h' :: out, hT)
  end.

(** [self.rnn(inputs, initial_state=hidden_state)] on a batch: [inputs]
    has shape [[ns, T, K]], the state [[ns, nh]]. *)
Definition rnn (ly : layers) (inputs : list (list (R * R)))
  (initial_state : list (list R))
  : result (list (list (list R)) * list (list R)) :=
  bind (zip_with (rnn_row ly) inputs initial_state)
       (fun outs => Ok (map fst outs, map snd outs)).

(** [self.dense(rnn_output)]: the layer acts on every time step. *)
Definition dense (ly : layers) (rnn_output : list (list (list R)))
  : list (list (R * R)) :=
  map (map (dense_fn ly)) rnn_output.

(** [tf.zeros(shape=[n, ...])]: a negative dimension is refused. *)
Definition zeros {A : Type} (n : Z) (row : A) : result (list A) :=
  if (n <? 0)%Z then Raise ValueError else Ok (repeat row (Z.to_nat n)).

(** [tf.reshape(t, [nsamples, K])] of a tensor [[ns, 1, K]]: the number
    of entries must be [nsamples * K]. *)
Definition reshape {A : Type} (nsamples : Z) (t : list (list A))
  : result (list A) :=
  bind (mapM (fun row => match row with [p] => Ok p | _ => Raise ValueError end) t)
       (fun l => if (Z.of_nat (length l) =? nsamples)%Z then Ok l
                 else Raise ValueError).

(** *** [sample]

    [tf.random.categorical] draws from a generator that the framework
    owns: it is a function of the generator's state and of the logits,
    and returns the draws with the next state. *)
Section Sample.

Variable rng : Type.
Variable categorical : rng -> list (R * R) -> list Z * rng.

Record sample_state : Type := mkSampleState {
  st_inputs : list (list (R * R));
  st_hidden : list (list R);
  st_logP : list R;
  st_samples : option array2;
  st_rng : rng
}.

(** The body of [for j in range(self.N)]. *)
Definition sample_body (ly : layers) (nsamples : Z) (j : Z) (st : sample_state)
  : result sample_state :=
  (* Run a single RNN cell *)
  bind (rnn ly (st_inputs st) (st_hidden st)) (fun '(rnn_output, hidden_state) =>
  (* Compute log probabilities *)
  let probs := dense ly rnn_output in
  bind (reshape nsamples (map (map log_eps) probs)) (fun log_probs =>
  (* Sample *)
  let '(sample, g) := categorical (st_rng st) log_probs in
  bind (if (j =? 0)%Z
        then Ok (map (fun d => [d]) sample)
        else match st_samples st with
             | Some samples => zip_with (fun row d => row ++ [d]) samples sample
             | None => Raise UnboundLocalError
             end) (fun samples =>
  (* Feed result to the next cell *)
  let inputs := map (fun d => [one_hot d]) sample in
  bind (reshape nsamples inputs) (fun inputs_r =>
  bind (zip_with dot2 log_probs inputs_r) (fun add =>
  bind (zip_with Rplus (st_logP st) add) (fun logP =>
  Ok (mkSampleState inputs hidden_state logP (Some samples) g))))))).

Definition sample (self : vmc) (ly : layers) (g : rng) (nsamples : Z)
  : result (array2 * list R * rng) :=
  (* Zero initialization for visible and hidden state *)
  bind (zeros nsamples [scale2 0 (one_hot 0)]) (fun inputs =>
  bind (zeros nsamples (repeat 0 (nh ly))) (fun hidden_state =>
  bind (zeros nsamples 0) (fun logP =>
  bind (for_each_r (range (N self)) (sample_body ly nsamples)
          (mkSampleState inputs hidden_state logP None g)) (fun st =>
  match st_samples st with
  | Some samples => Ok (samples, st_logP st, st_rng st)
  | None => Raise UnboundLocalError
  end)))).

End Sample.

Arguments mkSampleState {rng}.
Arguments st_inputs {rng}.
Arguments st_hidden {rng}.
Arguments st_logP {rng}.
Arguments st_samples {rng}.
Arguments st_rng {rng}.
Arguments sample_body {rng}.
Arguments sample {rng}.

(** *** [logpsi] *)
Definition logpsi (self : vmc) (ly : layers) (samples : array2)
  : result (list R) :=
  (* Shift data *)
  let num_samples := Z.of_nat (length samples) in
  let data := map (fun row => map one_hot (slice0 (N self - 1) row)) samples in
  bind (zeros num_samples [scale2 0 (one_hot 0)]) (fun x0 =>
  bind (zip_with (@app (R * R)) x0 data) (fun inputs =>
  bind (zeros num_samples (repeat 0 (nh ly))) (fun hidden_state =>
  bind (rnn ly inputs hidden_state) (fun '(rnn_output, _) =>
  let probs := dense ly rnn_output in
  bind (zip_with_r
          (fun prow srow =>
             bind (zip_with (fun p v => dot2 (log_eps p) (one_hot v)) prow srow)
                  (fun l => Ok (Rsum l)))
          probs samples) (fun log_probs =>
  Ok (map (fun x => 0.5 * x) log_probs)))))).

(** *** [localenergy]

    [np.copy] creates a new array and the assignment
    [flip_samples[:,j] = ...] writes into an array in place, so arrays
    live in a store and are named by references. *)
Definition ref : Type := nat.
Definition heap : Type := list array2.

Definition M (A : Type) : Type := heap -> result A * heap.

Definition ret {A : Type} (a : A) : M A := fun h => (Ok a, h).

Definition bindM {A B : Type} (m : M A) (k : A -> M B) : M B :=
  fun h => match m h with
           | (Ok a, h') => k a h'
           | (Raise e, h') => (Raise e, h')
           end.

Definition lift {A : Type} (r : result A) : M A := fun h => (r, h).

Fixpoint forM {A S : Type} (l : list A) (body : A -> S -> M S) (s : S) : M S :=
  match l with
  | [] => ret s
  | x :: l' => bindM (body x s) (forM l' body)
  end.

(** The array a reference names. *)
Definition deref (r : ref) : M array2 := fun h => (getitem h r, h).

(** [np.copy(a)]: a new array with the same entries. *)
Definition np_copy (r : ref) : M ref :=
  bindM (deref r) (fun a h => (Ok (length h), h ++ [a])).

(** [a[:,j]]. *)
Definition column (r : ref) (j : Z) : M (list Z) :=
  bindM (deref r) (fun a => lift (mapM (fun row => py_getitem row j) a)).

(** [a[:,j] = v], in place. *)
Definition set_column (r : ref) (j : Z) (v : list Z) : M unit :=
  bindM (deref r) (fun a =>
  bindM (lift (zip_with_r
                 (fun row x => bind (py_index (length row) j)
                                 (fun i => Ok (list_set row i x))) a v))
        (fun a' h => (Ok tt, list_set h r a'))).

(** [tf.cast(t, tf.float32)]. *)
Definition cast (v : list Z) : list R := map IZR v.

(** [eloc += c * t]. *)
Definition add_scaled (eloc : list R) (c : R) (t : list R) : result (list R) :=
  zip_with Rplus eloc (map (fun x => c * x) t).

(** The interaction loop over one bond list with coefficient [c]. *)
Definition bond_loop (samples : ref) (c : R) (bonds : list bond) (eloc : list R)
  : M (list R) :=
  forM (range (Z.of_nat (length bonds))) (fun n eloc =>
    bindM (lift (py_getitem bonds n)) (fun b =>
    bindM (column samples (fst b)) (fun ca =>
    bindM (column samples (snd b)) (fun cb =>
    bindM (lift (zip_with (fun x y => wrap64 (x * y)) ca cb)) (fun prod =>
    lift (add_scaled eloc c (cast prod))))))) eloc.

(** The diagonal part: chemical potential and the three interactions. *)
Definition localenergy_diagonal (self : vmc) (samples : ref) : M (list R) :=
  bindM (deref samples) (fun a =>
  let eloc := repeat 0 (length a) in
  (* Chemical potential *)
  bindM (forM (range (N self)) (fun j eloc =>
           bindM (column samples j) (fun c =>
           lift (add_scaled eloc (- delta self) (cast c)))) eloc) (fun eloc =>
  (* NN *)
  bindM (bond_loop samples (V self) (nn self) eloc) (fun eloc =>
  bindM (bond_loop samples (V self / 8) (nnn self) eloc) (fun eloc =>
  bond_loop samples (V self / 64) (nnnn self) eloc)))).

(** The off-diagonal part, from the value [eloc] has after the
    diagonal part. *)
Definition localenergy_offdiagonal (self : vmc) (ly : layers) (samples : ref)
  (logpsi_v : list R) (eloc : list R) : M (list R) :=
  forM (range (N self)) (fun j eloc =>
    bindM (np_copy samples) (fun flip_samples =>
    bindM (column flip_samples j) (fun c =>
    bindM (set_column flip_samples j (map (fun x => wrap64 (1 - x)) c)) (fun _ =>
    bindM (deref flip_samples) (fun a =>
    bindM (lift (logpsi self ly a)) (fun flip_logpsi =>
    bindM (lift (zip_with Rminus flip_logpsi logpsi_v)) (fun d =>
    lift (add_scaled eloc (- 0.5 * Omega self) (map exp d))))))))) eloc.

Definition localenergy (self : vmc) (ly : layers) (samples : ref)
  (logpsi_v : list R) : M (list R) :=
  bindM (localenergy_diagonal self samples)
        (localenergy_offdiagonal self ly samples logpsi_v).

End VMC.

(** ** The BeH2 notebook *)

(** [functools.reduce(f, l)] without an initial value. *)
Definition reduce {A : Type} (f : A -> A -> A) (l : list A) : result A :=
  match l with
  | [] => Raise TypeError
  | x :: l' => Ok (fold_left f l' x)
  end.

(** [enumerate(l)]; also [for k in range(len(l))] reading [l[k]]. *)
Definition enumerate {A : Type} (l : list A) : list (nat * A) :=
  combine (seq 0 (length l)) l.

(** A stable sort by insertion: Python's [sorted] and [list.sort] are
    stable, and a stable sort has one possible result. *)
Fixpoint insert_by {A : Type} (leb : A -> A -> bool) (x : A) (l : list A) : list A :=
  match l with
  | [] => [x]
  | y :: l' => if leb x y then x :: y :: l' else y :: insert_by leb x l'
  end.

Definition sort_by {A : Type} (leb : A -> A -> bool) (l : list A) : list A :=
  fold_right (insert_by leb) [] l.

Module BeH2.

Import NetKet.
Open Scope R_scope.

(** Complex numbers, real part first. *)
Definition C : Type := (R * R)%type.
Definition RtoC (x : R) : C := (x, 0).
Definition C0 : C := RtoC 0.
Definition C1 : C := RtoC 1.
Definition Ci : C := (0, 1).
Definition Cadd (a b : C) : C := (fst a + fst b, snd a + snd b).
Definition Cmul (a b : C) : C :=
  (fst a * fst b - snd a * snd b, fst a * snd b + snd a * fst b).
Definition Copp (a : C) : C := (- fst a, - snd a).
(** [np.real]. *)
Definition Cre (a : C) : R := fst a.

(** The four constant arrays ([I], [X], [Y], [Z] in the notebook). *)
Definition mI : matrix C := [[C1; C0]; [C0; C1]].
Definition mX : matrix C := [[C0; C1]; [C1; C0]].
Definition mY : matrix C := [[C0; Copp Ci]; [Ci; C0]].
Definition mZ : matrix C := [[C1; C0]; [C0; Copp C1]].

Definition chars (s : string) : list ascii := list_ascii_of_string s.

(** [operatorfromstring(pauli_string)]. *)
Definition operatorfromstring (pauli_string : string) : result (matrix C) :=
  let op_list :=
    for_each (chars pauli_string) (fun c op_list =>
      if (c =? "X")%char then op_list ++ [mX]
      else if (c =? "Y")%char then op_list ++ [mY]
      else if (c =? "Z")%char then op_list ++ [mZ]
      else op_list ++ [mI]) [] in
  reduce (kron Cmul) op_list.

(** [np.zeros((n, n), dtype=complex)]. *)
Definition mzeros (n : nat) : matrix C := repeat (repeat C0 n) n.

(** [A += B] on arrays of one shape. *)
Definition madd (A B : matrix C) : result (matrix C) :=
  zip_with_r (zip_with Cadd) A B.

(** [hamiltonian(pauli_list, interactions)]. *)
Definition hamiltonian (pauli_list : list string) (interactions : list C)
  : result (matrix C) :=
  bind (getitem pauli_list 0) (fun first =>
  let N := String.length first in
  let hamiltonian := mzeros (2 ^ N) in
  for_each_r (enumerate pauli_list) (fun '(i, pauli) hamiltonian =>
    bind (getitem interactions i) (fun c =>
    bind (operatorfromstring pauli) (fun op =>
    madd hamiltonian (mscale Cmul c op)))) hamiltonian).

(** [eigensolve(hamiltonian)].  [np.linalg.eigh] is a routine of NumPy:
    it is an argument here, and returns the array of eigenvalues and the
    array whose columns are the eigenvectors. *)
Definition eigensolve (eigh : matrix C -> result (list R * matrix C))
  (hamiltonian : matrix C) : result (R * list C) :=
  bind (eigh hamiltonian) (fun '(eigenvalues, eigenstates) =>
  bind (py_getitem eigenvalues 0) (fun e0 =>
  bind (mapM (fun row => py_getitem row 0) eigenstates) (fun v0 =>
  Ok (e0, v0)))).

(** [math.sqrt(2)]. *)
Definition sqrt2 : R := sqrt 2.

(** The unitaries [rotationX] and [rotationY]. *)
Definition rotationX : matrix C :=
  mscale Cmul (RtoC (1 / sqrt2)) [[C1; C1]; [C1; Copp C1]].
Definition rotationY : matrix C :=
  mscale Cmul (RtoC (1 / sqrt2)) [[C1; Copp Ci]; [C1; Ci]].

(** What [np.loadtxt] returns.  With the default [ndmin=0] every axis of
    length one is squeezed: a file of one row or of one column gives a
    one-dimensional array, a single number a zero-dimensional one. *)
Inductive ndarray (A : Type) : Type :=
| Arr0 (x : A)
| Arr1 (v : list A)
| Arr2 (rows : list (list A)).

Arguments Arr0 {A} x.
Arguments Arr1 {A} v.
Arguments Arr2 {A} rows.

(** [np.loadtxt] on the numbers of a file, line by line: lines without
    numbers are skipped, and the others must hold as many numbers. *)
Definition loadtxt {A : Type} (file : list (list A)) : result (ndarray A) :=
  let file := filter (fun r => negb (length r =? 0)%nat) file in
  match file with
  | [] => Ok (Arr1 [])
  | r :: rest =>
      if forallb (fun r' => (length r' =? length r)%nat) rest
      then match file with
           | [[x]] => Ok (Arr0 x)
           | [r] => Ok (Arr1 r)
           | _ => if (length r =? 1)%nat then Ok (Arr1 (concat file))
                  else Ok (Arr2 file)
           end
      else Raise ValueError
  end.

(** [a.shape[1]]. *)
Definition shape1 {A : Type} (a : ndarray A) : result nat :=
  match a with
  | Arr2 (r :: _) => Ok (length r)
  | Arr2 [] => Ok 0%nat
  | _ => Raise IndexError
  end.

(** [len(a)]. *)
Definition ndlen {A : Type} (a : ndarray A) : result nat :=
  match a with
  | Arr0 _ => Raise TypeError
  | Arr1 v => Ok (length v)
  | Arr2 rows => Ok (length rows)
  end.

(** [a[i].tolist()] for a two-dimensional array. *)
Definition ndrow {A : Type} (a : ndarray A) (i : nat) : result (list A) :=
  match a with
  | Arr2 rows => getitem rows i
  | _ => Raise TypeError
  end.

Definition py_assert (b : bool) : result unit :=
  if b then Ok tt else Raise AssertionError.

(** The rotation built for one basis string in [LoadData]. *)
Definition basis_rotation (N : nat) (tmp : string) : result (LocalOperator C) :=
  let localop := Const C1 in
  for_each_r (seq 0 N) (fun j localop =>
    bind (getitem (chars tmp) j) (fun c =>
    let localop :=
      if (c =? "X")%char then Mul localop (Local rotationX [Z.of_nat j])
      else localop in
    bind (getitem (chars tmp) j) (fun c =>
    let localop :=
      if (c =? "Y")%char then Mul localop (Local rotationY [Z.of_nat j])
      else localop in
    Ok localop))) localop.

(** The state of the last loop of [LoadData]. *)
Record rotation_state : Type := mkRotationState {
  rotations : list (LocalOperator C);
  tmp : string;
  b_index : Z;
  training_bases : list Z
}.

(** [LoadData(N, hilbert, path_to_samples, path_to_bases)], from the
    numbers of the samples file and the lines of the bases file. *)
Definition LoadData {A : Type} (N : nat) (samples_file : list (list A))
  (lines : list string)
  : result (list (LocalOperator C) * list (list A) * list Z) :=
  bind (loadtxt samples_file) (fun tsamples =>
  bind (shape1 tsamples) (fun cols =>
  bind (py_assert (N =? cols)%nat) (fun _ =>
  bind (for_each_r lines (fun b bases =>
          bind (py_assert (String.length b =? N + 1)%nat) (fun _ =>
          bind (for_each_r (seq 0 N) (fun j basis =>
                  bind (getitem (chars b) j) (fun c =>
                  Ok (basis ++ String c EmptyString)%string)) EmptyString)
               (fun basis => Ok (bases ++ [basis])))) []) (fun bases =>
  let index_list :=
    sort_by (fun k k' => String.leb (nth k bases EmptyString)
                                    (nth k' bases EmptyString))
            (seq 0 (length bases)) in
  let bases := sort_by String.leb bases in
  bind (ndlen tsamples) (fun n =>
  bind (for_each_r (seq 0 n) (fun i training_samples =>
          bind (getitem index_list i) (fun k =>
          bind (ndrow tsamples k) (fun row =>
          Ok (training_samples ++ [row])))) []) (fun training_samples =>
  bind (for_each_r bases (fun b st =>
          bind (if negb (b =? tmp st)%string
                then bind (basis_rotation N b) (fun localop =>
                     Ok (mkRotationState (rotations st ++ [localop]) b
                           (b_index st + 1) (training_bases st)))
                else Ok st) (fun st =>
          Ok (mkRotationState (rotations st) (tmp st) (b_index st)
                (training_bases st ++ [b_index st]))))
          (mkRotationState [] EmptyString (-1) [])) (fun st =>
  Ok (rotations st, training_samples, training_bases st)))))))).

(** [OperatorFromString(op_string)]. *)
Definition OperatorFromString (op_string : string)
  : result (list Z * matrix C) :=
  let '(OpList, Sites) :=
    for_each (enumerate (chars op_string)) (fun '(k, c) '(OpList, Sites) =>
      if (c =? "X")%char then (OpList ++ [mX], Sites ++ [Z.of_nat k])
      else if (c =? "Y")%char then (OpList ++ [mY], Sites ++ [Z.of_nat k])
      else if (c =? "Z")%char then (OpList ++ [mZ], Sites ++ [Z.of_nat k])
      else (OpList, Sites)) ([], []) in
  bind (reduce (kron Cmul) OpList) (fun m => Ok (Sites, m)).

(** The loop that sets [flag], with its [break]. *)
Fixpoint find_flag (s : list ascii) (js : list nat) : result Z :=
  match js with
  | [] => Ok 0%Z
  | j :: js' =>
      bind (getitem s j) (fun c =>
      if negb (c =? "I")%char then Ok 1%Z else find_flag s js')
  end.

(** The body of the loop of [BuildHamiltonian] at index [h].  The
    state is the list of the strings [OperatorFromString] was called on,
    and the operator built so far or the exception raised. *)
Definition BuildHamiltonian_body (N : nat) (pauli : list string)
  (interactions : list C) (st : list string * result (LocalOperator C)) (h : nat)
  : list string * result (LocalOperator C) :=
  let '(calls, r) := st in
  match r with
  | Raise e => (calls, Raise e)
  | Ok hamiltonian =>
      match bind (getitem pauli h) (fun p => find_flag (chars p) (seq 0 N)) with
      | Raise e => (calls, Raise e)
      | Ok flag =>
          if (flag =? 0)%Z
          then (calls,
                bind (getitem interactions h) (fun c =>
                Ok (Add hamiltonian (Const (RtoC (Cre c))))))
          else match getitem pauli h with
               | Raise e => (calls, Raise e)
               | Ok p =>
                   (calls ++ [p],
                    bind (OperatorFromString p) (fun '(sites, operator) =>
                    bind (getitem interactions h) (fun c =>
                    let h_term := mscale Cmul c operator in
                    Ok (Add hamiltonian (Local h_term sites)))))
               end
      end
  end.

(** [BuildHamiltonian(N, hilbert, pauli_path, interactions_path)] on
    the two arrays that [np.load] returns.  The calls of
    [OperatorFromString] are recorded next to the result. *)
Definition BuildHamiltonian (N : nat) (pauli : list string) (interactions : list C)
  : list string * result (LocalOperator C) :=
  fold_left (BuildHamiltonian_body N pauli interactions)
            (seq 0 (length pauli)) ([], Ok (Const C0)).

End BeH2.

(** ** The Rydberg tomography notebook: [LoadData] *)

Module RydbergData.

Import NetKet BeH2.

(** [LoadData(hilbert, path_to_samples)], from the numbers of the
    samples file.  The list first bound to [training_samples] is
    replaced by the array that [np.loadtxt] returns, and [np.asarray]
    of an array is that array. *)
Definition LoadData {A : Type} (samples_file : list (list A))
  : result (list (LocalOperator R) * ndarray A * list Z) :=
  let training_bases : list Z := [] in
  bind (loadtxt samples_file) (fun training_samples =>
  let rotations : list (LocalOperator R) := [] in
  bind (ndlen training_samples) (fun n =>
  let '(training_bases, rotations) :=
    for_each (seq 0 n) (fun i '(training_bases, rotations) =>
      let training_bases := training_bases ++ [0%Z] in
      let rotations := rotations ++ [Const 1%R] in
      (training_bases, rotations)) (training_bases, rotations) in
  Ok (rotations, training_samples, training_bases))).

End RydbergData.

(** * Properties *)

(** ** Loops and ranges *)

Lemma in_range (n x : Z) : In x (range n) <-> (0 <= x < n)%Z.
Proof.
  unfold range. rewrite in_map_iff. split.
  - intros [k [<- Hk]]. apply in_seq in Hk. lia.
  - intros Hx. exists (Z.to_nat x). split; [lia|]. apply in_seq. lia.
Qed.

Lemma length_range (n : Z) : length (range n) = Z.to_nat n.
Proof. unfold range. now rewrite length_map, length_seq. Qed.

Lemma for_each_append {A B : Type} (f : A -> list B) (l : list A) (acc : list B) :
  for_each l (fun x acc => acc ++ f x) acc = acc ++ flat_map f l.
Proof.
  unfold for_each. revert acc.
  induction l as [|x l IH]; intros acc; simpl.
  - now rewrite app_nil_r.
  - now rewrite IH, app_assoc.
Qed.

Lemma for_each_ext {A S : Type} (f g : A -> S -> S) (l : list A) (s : S) :
  (forall x s, f x s = g x s) -> for_each l f s = for_each l g s.
Proof.
  intros E. unfold for_each. revert s.
  induction l as [|x l IH]; intros s; simpl; [reflexivity|].
  now rewrite E, IH.
Qed.

Lemma length_flat_map_const {A B : Type} (f : A -> list B) (l : list A) (k : nat) :
  (forall x, length (f x) = k) -> length (flat_map f l) = (length l * k)%nat.
Proof.
  intros E. induction l as [|x l IH]; simpl; [reflexivity|].
  now rewrite length_app, E, IH.
Qed.

Lemma Forall_flat_map_in {A B : Type} (P : B -> Prop) (f : A -> list B) (l : list A) :
  (forall x, In x l -> Forall P (f x)) -> Forall P (flat_map f l).
Proof.
  intros H. apply Forall_forall. intros b Hb.
  apply in_flat_map in Hb. destruct Hb as [x [Hx Hb]].
  specialize (H x Hx). rewrite Forall_forall in H. now apply H.
Qed.

(** ** The bond lists in closed form *)

Module LatticeFacts.

Open Scope Z_scope.

Definition site (Ly x y : Z) : Z := Ly * x + y.

Definition nn_closed (Lx Ly : Z) : list bond :=
  flat_map (fun x => map (fun y => (site Ly x y, site Ly x (y + 1)))
                         (range (Ly - 1))) (range Lx)
  ++ flat_map (fun y => map (fun x => (site Ly x y, site Ly (x + 1) y))
                            (range (Lx - 1))) (range Ly).

Definition nnn_closed (Lx Ly : Z) : list bond :=
  flat_map (fun y => flat_map (fun x =>
      [(site Ly x y, site Ly (x + 1) (y + 1));
       (site Ly (x + 1) y, site Ly x (y + 1))])
    (range (Lx - 1))) (range (Ly - 1)).

Definition nnnn_closed (Lx Ly : Z) : list bond :=
  flat_map (fun y => map (fun x => (site Ly x y, site Ly (x + 2) y))
                         (range (Lx - 2))) (range Ly)
  ++ flat_map (fun y => map (fun x => (site Ly x y, site Ly x (y + 2)))
                            (range Lx)) (range (Ly - 2)).

Lemma nested_append {B : Type} (g : Z -> Z -> list B) (l1 l2 : list Z) (acc : list B) :
  for_each l1 (fun a acc => for_each l2 (fun b acc => acc ++ g a b) acc) acc
  = acc ++ flat_map (fun a => flat_map (g a) l2) l1.
Proof.
  rewrite <- for_each_append. apply for_each_ext.
  intros a s. apply for_each_append.
Qed.

Lemma flat_map_singleton {A B : Type} (f : A -> B) (l : list A) :
  flat_map (fun x => [f x]) l = map f l.
Proof. induction l; simpl; congruence. Qed.

Lemma flat_map_singleton_inner {A B C : Type} (f : A -> B -> C)
      (r : list B) (l : list A) :
  flat_map (fun a => flat_map (fun b => [f a b]) r) l
  = flat_map (fun a => map (f a) r) l.
Proof. apply flat_map_ext. intros a. apply flat_map_singleton. Qed.

Lemma tomography_closed (Lx Ly : Z) :
  Tomography.buildlattice Lx Ly
  = Tomography.mkLattice (nn_closed Lx Ly) (nnn_closed Lx Ly) (nnnn_closed Lx Ly).
Proof.
  unfold Tomography.buildlattice, nn_closed, nnn_closed, nnnn_closed.
  cbv zeta. f_equal.
  - rewrite !nested_append. simpl. f_equal.
  - rewrite (for_each_ext _
      (fun y acc => for_each (range (Lx - 1)) (fun x acc => acc ++
         [(site Ly x y, site Ly (x + 1) (y + 1));
          (site Ly (x + 1) y, site Ly x (y + 1))]) acc)).
    + now rewrite nested_append.
    + intros y s. apply for_each_ext. intros x s'.
      now rewrite <- app_assoc.
  - rewrite !nested_append. simpl. f_equal.
Qed.

(** The loops of the method only touch the list they append to; the
    bounds of the inner loop are read from [self] at every turn of the
    outer one.  The three fields are handled at once, through their
    getter and setter. *)
Section FieldLoop.

Variable get : VMC.vmc -> list bond.
Variable set : VMC.vmc -> list bond -> VMC.vmc.
Hypothesis get_set : forall s l, get (set s l) = l.
Hypothesis set_set : forall s l l', set (set s l) l' = set s l'.
Hypothesis set_get : forall s, set s (get s) = s.
Hypothesis Lx_set : forall s l, VMC.Lx (set s l) = VMC.Lx s.
Hypothesis Ly_set : forall s l, VMC.Ly (set s l) = VMC.Ly s.

Lemma field_loop_inner (h : Z -> Z -> list bond) (l : list Z) :
  forall s : VMC.vmc,
    for_each l (fun b st => set st (get st ++ h (VMC.Ly st) b)) s
    = set s (get s ++ flat_map (h (VMC.Ly s)) l).
Proof.
  unfold for_each. induction l as [|b l IH]; intros s; simpl.
  - now rewrite app_nil_r, set_get.
  - now rewrite IH, get_set, Ly_set, set_set, app_assoc.
Qed.

Lemma field_loop (r : Z -> Z -> list Z) (g : Z -> Z -> Z -> list bond)
      (l1 : list Z) :
  forall s : VMC.vmc,
    for_each l1 (fun a st =>
      for_each (r (VMC.Lx st) (VMC.Ly st))
        (fun b st => set st (get st ++ g (VMC.Ly st) a b)) st) s
    = set s (get s ++ flat_map (fun a => flat_map (g (VMC.Ly s) a)
                                  (r (VMC.Lx s) (VMC.Ly s))) l1).
Proof.
  induction l1 as [|a l1 IH]; intros s.
  - unfold for_each. simpl. now rewrite app_nil_r, set_get.
  - change (for_each (a :: l1) ?f s) with (for_each l1 f (f a s)).
    cbv beta.
    rewrite (field_loop_inner (fun ly b => g ly a b)).
    rewrite IH, get_set, Ly_set, Lx_set, set_set.
    simpl. now rewrite app_assoc.
Qed.

End FieldLoop.

Definition vmc_loop_nn :=
  field_loop VMC.nn VMC.set_nn
    (fun s l => eq_refl) (fun s l l' => eq_refl)
    (fun s => match s with VMC.mkVmc _ _ _ _ _ _ _ _ _ => eq_refl end)
    (fun s l => eq_refl) (fun s l => eq_refl).

Definition vmc_loop_nnn :=
  field_loop VMC.nnn VMC.set_nnn
    (fun s l => eq_refl) (fun s l l' => eq_refl)
    (fun s => match s with VMC.mkVmc _ _ _ _ _ _ _ _ _ => eq_refl end)
    (fun s l => eq_refl) (fun s l => eq_refl).

Definition vmc_loop_nnnn :=
  field_loop VMC.nnnn VMC.set_nnnn
    (fun s l => eq_refl) (fun s l l' => eq_refl)
    (fun s => match s with VMC.mkVmc _ _ _ _ _ _ _ _ _ => eq_refl end)
    (fun s l => eq_refl) (fun s l => eq_refl).

Lemma vmc_closed (Lx Ly : Z) (V Omega delta : R) :
  VMC.init Lx Ly V Omega delta
  = VMC.mkVmc Lx Ly V Omega delta (Lx * Ly)
      (nn_closed Lx Ly) (nnn_closed Lx Ly) (nnnn_closed Lx Ly).
Proof.
  unfold VMC.init, VMC.buildlattice. cbv zeta.
  unfold VMC.coord_to_site.
  rewrite (vmc_loop_nn (fun _ ly => range (ly - 1))
             (fun ly x y => [(ly * x + y, ly * x + (y + 1))])).
  rewrite (vmc_loop_nn (fun lx _ => range (lx - 1))
             (fun ly y x => [(ly * x + y, ly * (x + 1) + y)])).
  rewrite (for_each_ext _ (fun y self =>
     for_each ((fun lx _ => range (lx - 1)) (VMC.Lx self) (VMC.Ly self))
       (fun x self => VMC.set_nnn self (VMC.nnn self ++
         (fun ly y x => [(ly * x + y, ly * (x + 1) + (y + 1));
                         (ly * (x + 1) + y, ly * x + (y + 1))])
         (VMC.Ly self) y x)) self) (range (_ - 1))).
  2:{ intros y s. apply for_each_ext. intros x s'. destruct s'; simpl.
      unfold VMC.set_nnn; simpl. now rewrite <- app_assoc. }
  rewrite (vmc_loop_nnn (fun lx _ => range (lx - 1))
             (fun ly y x => [(ly * x + y, ly * (x + 1) + (y + 1));
                             (ly * (x + 1) + y, ly * x + (y + 1))])).
  rewrite (vmc_loop_nnnn (fun lx _ => range (lx - 2))
             (fun ly y x => [(ly * x + y, ly * (x + 2) + y)])).
  rewrite (vmc_loop_nnnn (fun lx _ => range lx)
             (fun ly y x => [(ly * x + y, ly * x + (y + 2))])).
  simpl. unfold VMC.set_nnnn; simpl.
  unfold nn_closed, nnn_closed, nnnn_closed, site.
  f_equal; rewrite <- ?flat_map_singleton_inner; reflexivity.
Qed.

End LatticeFacts.

(** ** Bonds join distinct sites of the lattice *)

Module LatticeBounds.

Import LatticeFacts.
Open Scope Z_scope.

(** A bond of two distinct sites, both in [[0, n)]. *)
Definition valid_bond (n : Z) (b : bond) : Prop :=
  fst b <> snd b /\ (0 <= fst b < n) /\ (0 <= snd b < n).

Lemma Forall_nested_map (P : bond -> Prop) (f : Z -> Z -> bond) (n m : Z) :
  (forall a b, 0 <= a < n -> 0 <= b < m -> P (f a b)) ->
  Forall P (flat_map (fun a => map (f a) (range m)) (range n)).
Proof.
  intros H. apply Forall_flat_map_in. intros a Ha.
  apply Forall_forall. intros p Hp. apply in_map_iff in Hp.
  destruct Hp as [b [<- Hb]]. apply H; now apply in_range.
Qed.

Lemma nn_valid (Lx Ly : Z) : Forall (valid_bond (Lx * Ly)) (nn_closed Lx Ly).
Proof.
  unfold nn_closed. apply Forall_app. split; apply Forall_nested_map;
    intros a b Ha Hb; unfold valid_bond, site; simpl; repeat split; nia.
Qed.

Lemma nnn_valid (Lx Ly : Z) : Forall (valid_bond (Lx * Ly)) (nnn_closed Lx Ly).
Proof.
  unfold nnn_closed. apply Forall_flat_map_in. intros y Hy.
  apply Forall_flat_map_in. intros x Hx.
  apply in_range in Hy, Hx.
  repeat constructor; unfold site; simpl; nia.
Qed.

Lemma nnnn_valid (Lx Ly : Z) : Forall (valid_bond (Lx * Ly)) (nnnn_closed Lx Ly).
Proof.
  unfold nnnn_closed. apply Forall_app. split; apply Forall_nested_map;
    intros a b Ha Hb; unfold valid_bond, site; simpl; repeat split; nia.
Qed.

Lemma length_nested_map {B : Type} (f : Z -> Z -> B) (n m : Z) :
  Z.of_nat (length (flat_map (fun a => map (f a) (range m)) (range n)))
  = Z.max n 0 * Z.max m 0.
Proof.
  rewrite (length_flat_map_const _ _ (Z.to_nat m)).
  - rewrite length_range. lia.
  - intros a. now rewrite length_map, length_range.
Qed.

Lemma nn_length (Lx Ly : Z) :
  Z.of_nat (length (nn_closed Lx Ly))
  = Z.max Lx 0 * Z.max (Ly - 1) 0 + Z.max Ly 0 * Z.max (Lx - 1) 0.
Proof.
  unfold nn_closed. rewrite length_app, Nat2Z.inj_add.
  now rewrite !length_nested_map.
Qed.

Lemma nnn_length (Lx Ly : Z) :
  Z.of_nat (length (nnn_closed Lx Ly))
  = 2 * (Z.max (Lx - 1) 0 * Z.max (Ly - 1) 0).
Proof.
  unfold nnn_closed.
  rewrite (length_flat_map_const _ _ (Z.to_nat (Lx - 1) * 2)%nat).
  - rewrite length_range, !Nat2Z.inj_mul.
    replace (Z.of_nat (Z.to_nat (Ly - 1))) with (Z.max (Ly - 1) 0) by lia.
    replace (Z.of_nat (Z.to_nat (Lx - 1))) with (Z.max (Lx - 1) 0) by lia.
    simpl Z.of_nat. ring.
  - intros y. rewrite (length_flat_map_const _ _ 2%nat).
    + now rewrite length_range.
    + reflexivity.
Qed.

Lemma nnnn_length (Lx Ly : Z) :
  Z.of_nat (length (nnnn_closed Lx Ly))
  = Z.max Ly 0 * Z.max (Lx - 2) 0 + Z.max (Ly - 2) 0 * Z.max Lx 0.
Proof.
  unfold nnnn_closed. rewrite length_app, Nat2Z.inj_add.
  now rewrite !length_nested_map.
Qed.

(** C8. For [Lx >= 1] and [Ly >= 1], in both notebooks every bond
    returned by [buildlattice] joins two distinct sites of
    [[0, Lx*Ly)], and the three lists have
    [Lx*(Ly-1) + Ly*(Lx-1)], [2*(Lx-1)*(Ly-1)] and
    [Ly*max(Lx-2,0) + Lx*max(Ly-2,0)] bonds. *)
Theorem buildlattice_bonds_valid_and_counted
    (Lx Ly : Z) (V Omega delta : R) (HLx : 1 <= Lx) (HLy : 1 <= Ly) :
  let t := Tomography.buildlattice Lx Ly in
  let v := VMC.init Lx Ly V Omega delta in
  (Forall (valid_bond (Lx * Ly)) (Tomography.nn t)
   /\ Forall (valid_bond (Lx * Ly)) (Tomography.nnn t)
   /\ Forall (valid_bond (Lx * Ly)) (Tomography.nnnn t)
   /\ Z.of_nat (length (Tomography.nn t)) = Lx * (Ly - 1) + Ly * (Lx - 1)
   /\ Z.of_nat (length (Tomography.nnn t)) = 2 * (Lx - 1) * (Ly - 1)
   /\ Z.of_nat (length (Tomography.nnnn t))
      = Ly * Z.max (Lx - 2) 0 + Lx * Z.max (Ly - 2) 0)
  /\
  (Forall (valid_bond (Lx * Ly)) (VMC.nn v)
   /\ Forall (valid_bond (Lx * Ly)) (VMC.nnn v)
   /\ Forall (valid_bond (Lx * Ly)) (VMC.nnnn v)
   /\ Z.of_nat (length (VMC.nn v)) = Lx * (Ly - 1) + Ly * (Lx - 1)
   /\ Z.of_nat (length (VMC.nnn v)) = 2 * (Lx - 1) * (Ly - 1)
   /\ Z.of_nat (length (VMC.nnnn v))
      = Ly * Z.max (Lx - 2) 0 + Lx * Z.max (Ly - 2) 0).
Proof.
  intros t v. subst t v.
  rewrite tomography_closed, vmc_closed.
  cbn [Tomography.nn Tomography.nnn Tomography.nnnn VMC.nn VMC.nnn VMC.nnnn].
  rewrite nn_length, nnn_length, nnnn_length.
  rewrite !(Z.max_l Lx 0), !(Z.max_l Ly 0), !(Z.max_l (Lx - 1) 0),
    !(Z.max_l (Ly - 1) 0) by lia.
  pose proof (nn_valid Lx Ly). pose proof (nnn_valid Lx Ly).
  pose proof (nnnn_valid Lx Ly).
  repeat split; trivial; ring.
Qed.

(** The 4-by-4 lattice of both notebooks. *)
Lemma buildlattice_bonds_4x4 :
  let t := Tomography.buildlattice 4 4 in
  let v := VMC.init 4 4 7 1 1 in
  (Forall (valid_bond (4 * 4)) (Tomography.nn t)
   /\ Forall (valid_bond (4 * 4)) (Tomography.nnn t)
   /\ Forall (valid_bond (4 * 4)) (Tomography.nnnn t)
   /\ Z.of_nat (length (Tomography.nn t)) = 4 * (4 - 1) + 4 * (4 - 1)
   /\ Z.of_nat (length (Tomography.nnn t)) = 2 * (4 - 1) * (4 - 1)
   /\ Z.of_nat (length (Tomography.nnnn t))
      = 4 * Z.max (4 - 2) 0 + 4 * Z.max (4 - 2) 0)
  /\
  (Forall (valid_bond (4 * 4)) (VMC.nn v)
   /\ Forall (valid_bond (4 * 4)) (VMC.nnn v)
   /\ Forall (valid_bond (4 * 4)) (VMC.nnnn v)
   /\ Z.of_nat (length (VMC.nn v)) = 4 * (4 - 1) + 4 * (4 - 1)
   /\ Z.of_nat (length (VMC.nnn v)) = 2 * (4 - 1) * (4 - 1)
   /\ Z.of_nat (length (VMC.nnnn v))
      = 4 * Z.max (4 - 2) 0 + 4 * Z.max (4 - 2) 0).
Proof.
  apply (buildlattice_bonds_valid_and_counted 4 4 7 1 1); lia.
Defined.

End LatticeBounds.

(** ** The store: what [localenergy] writes *)

Module Frame.

Import VMC.

(** A computation started on a store with at least [n] arrays leaves
    the first [n] as they are, never shrinks the store, and returns a
    value satisfying [Q]. *)
Definition keeps {A : Type} (n : nat) (m : M A) (Q : A -> Prop) : Prop :=
  forall h : heap, (n <= length h)%nat ->
    firstn n (snd (m h)) = firstn n h
    /\ (length h <= length (snd (m h)))%nat
    /\ (forall a, fst (m h) = Ok a -> Q a).

Lemma keeps_weaken {A : Type} (n : nat) (m : M A) (Q Q' : A -> Prop) :
  keeps n m Q -> (forall a, Q a -> Q' a) -> keeps n m Q'.
Proof.
  intros Hm HQ h Hh. destruct (Hm h Hh) as (H1 & H2 & H3).
  repeat split; auto.
Qed.

Lemma keeps_ret {A : Type} (n : nat) (a : A) (Q : A -> Prop) :
  Q a -> keeps n (ret a) Q.
Proof.
  intros Ha h Hh. simpl. repeat split; auto.
  intros b Hb. now inversion Hb; subst.
Qed.

Lemma keeps_lift {A : Type} (n : nat) (r : result A) :
  keeps n (lift r) (fun _ => True).
Proof. intros h Hh. simpl. repeat split; auto. Qed.

Lemma keeps_bind {A B : Type} (n : nat) (m : M A) (k : A -> M B)
      (Q : A -> Prop) (Q' : B -> Prop) :
  keeps n m Q -> (forall a, Q a -> keeps n (k a) Q') -> keeps n (bindM m k) Q'.
Proof.
  intros Hm Hk h Hh. unfold bindM.
  destruct (Hm h Hh) as (H1 & H2 & H3).
  destruct (m h) as [[a|e] h'] eqn:E; simpl in *.
  - destruct (Hk a (H3 a eq_refl) h') as (K1 & K2 & K3); [lia|].
    repeat split; [congruence | lia | exact K3].
  - repeat split; auto. intros b Hb. discriminate Hb.
Qed.

Lemma keeps_deref (n : nat) (r : ref) : keeps n (deref r) (fun _ => True).
Proof. intros h Hh. simpl. repeat split; auto. Qed.

Lemma keeps_column (n : nat) (r : ref) (j : Z) :
  keeps n (column r j) (fun _ => True).
Proof.
  unfold column. eapply keeps_bind; [apply keeps_deref|].
  intros a _. apply keeps_lift.
Qed.

(** The copy is a new array: its reference is past every old one. *)
Lemma keeps_np_copy (n : nat) (r : ref) :
  keeps n (np_copy r) (fun r' => (n <= r')%nat).
Proof.
  intros h Hh. unfold np_copy, bindM, deref. simpl.
  destruct (getitem h r) as [a|e]; simpl.
  - repeat split.
    + rewrite firstn_app. replace (n - length h)%nat with 0%nat by lia.
      simpl. now rewrite app_nil_r.
    + rewrite length_app. lia.
    + intros r' E. inversion E. lia.
  - repeat split; auto. intros a E. discriminate E.
Qed.

Lemma firstn_list_set {A : Type} (l : list A) (i n : nat) (v : A) :
  (n <= i)%nat -> firstn n (list_set l i v) = firstn n l.
Proof.
  revert i n. induction l as [|x l IH]; intros i n Hn; simpl.
  - reflexivity.
  - destruct i as [|i].
    + assert (n = 0%nat) by lia. now subst.
    + destruct n as [|n]; simpl; [reflexivity|].
      f_equal. apply IH. lia.
Qed.

Lemma length_list_set {A : Type} (l : list A) (i : nat) (v : A) :
  length (list_set l i v) = length l.
Proof.
  revert i. induction l as [|x l IH]; intros [|i]; simpl; auto.
Qed.

(** Writing into an array past the first [n] leaves those alone. *)
Lemma keeps_set_column (n : nat) (r : ref) (j : Z) (v : list Z) :
  (n <= r)%nat -> keeps n (set_column r j v) (fun _ => True).
Proof.
  intros Hr h Hh. unfold set_column, bindM, deref, lift. simpl.
  destruct (getitem h r) as [a|e]; simpl; [|repeat split; auto].
  destruct (zip_with_r _ a v) as [a'|e]; simpl; [|repeat split; auto].
  repeat split; auto.
  - now apply firstn_list_set.
  - now rewrite length_list_set.
Qed.

Lemma keeps_forM {A S : Type} (n : nat) (l : list A) (body : A -> S -> M S) :
  (forall x s, keeps n (body x s) (fun _ => True)) ->
  forall s, keeps n (forM l body s) (fun _ => True).
Proof.
  intros Hb. induction l as [|x l IH]; intros s; simpl.
  - now apply keeps_ret.
  - eapply keeps_bind; [apply Hb|]. intros a _. apply IH.
Qed.

Create HintDb frame.
#[local] Hint Resolve keeps_lift keeps_deref keeps_column : frame.

Lemma keeps_bond_loop (n : nat) (samples : ref) (c : R) (bonds : list bond)
      (eloc : list R) :
  keeps n (bond_loop samples c bonds eloc) (fun _ => True).
Proof.
  unfold bond_loop. apply keeps_forM. intros x s.
  repeat (eapply keeps_bind; [auto with frame | intros ? _]).
  auto with frame.
Qed.

Lemma keeps_diagonal (n : nat) (self : vmc) (samples : ref) :
  keeps n (localenergy_diagonal self samples) (fun _ => True).
Proof.
  unfold localenergy_diagonal.
  eapply keeps_bind; [auto with frame | intros a _].
  eapply keeps_bind.
  { apply keeps_forM. intros x s.
    eapply keeps_bind; [auto with frame | intros ? _]. auto with frame. }
  intros e1 _.
  eapply keeps_bind; [apply keeps_bond_loop | intros e2 _].
  eapply keeps_bind; [apply keeps_bond_loop | intros e3 _].
  apply keeps_bond_loop.
Qed.

Lemma keeps_offdiagonal (n : nat) (self : vmc) (ly : layers) (samples : ref)
      (logpsi_v eloc : list R) :
  keeps n (localenergy_offdiagonal self ly samples logpsi_v eloc) (fun _ => True).
Proof.
  unfold localenergy_offdiagonal. apply keeps_forM. intros j s.
  eapply keeps_bind; [apply keeps_np_copy | intros flip Hflip].
  eapply keeps_bind; [auto with frame | intros c _].
  eapply keeps_bind; [now apply keeps_set_column | intros u _].
  repeat (eapply keeps_bind; [auto with frame | intros ? _]).
  auto with frame.
Qed.

Lemma keeps_localenergy (n : nat) (self : vmc) (ly : layers) (samples : ref)
      (logpsi_v : list R) :
  keeps n (localenergy self ly samples logpsi_v) (fun _ => True).
Proof.
  unfold localenergy. eapply keeps_bind; [apply keeps_diagonal|].
  intros e _. apply keeps_offdiagonal.
Qed.

(** C9. [localenergy] leaves [samples] unchanged: whatever the call
    does, normal return or exception, the array named [samples] (and
    every other array that existed before the call) has the entries it
    had; the flips are written into the copies made by [np.copy]. *)
Theorem localenergy_leaves_samples_unchanged
    (self : vmc) (ly : layers) (samples : ref) (logpsi_v : list R) (h : heap) :
  let h' := snd (localenergy self ly samples logpsi_v h) in
  nth_error h' samples = nth_error h samples
  /\ firstn (length h) h' = h.
Proof.
  intros h'. subst h'.
  destruct (keeps_localenergy (length h) self ly samples logpsi_v h (le_n _))
    as (H1 & H2 & _).
  rewrite firstn_all in H1. split; [|exact H1].
  destruct (Nat.lt_ge_cases samples (length h)) as [Hlt|Hge].
  - rewrite <- H1 at 2. now rewrite nth_error_firstn, (proj2 (Nat.ltb_lt _ _) Hlt).
  - assert (E : localenergy self ly samples logpsi_v h = (Raise IndexError, h)).
    { unfold localenergy, localenergy_diagonal, bindM, deref, getitem.
      rewrite (proj2 (nth_error_None h samples) Hge). reflexivity. }
    now rewrite E.
Qed.

End Frame.

(** Decimal constants such as [0.5] are quotients of integers. *)
Ltac decimals :=
  unfold Q2R; cbn [QArith_base.Qnum QArith_base.Qden].

(** ** Vectors indexed by the rows of a batch *)

Lemma zip_with_map {X A B C : Type} (f : A -> B -> C) (a : X -> A) (b : X -> B)
      (xs : list X) :
  zip_with f (map a xs) (map b xs) = Ok (map (fun x => f (a x) (b x)) xs).
Proof.
  induction xs as [|x xs IH]; simpl; [reflexivity|]. now rewrite IH.
Qed.

Lemma zip_with_repeat_map {X A B C : Type} (f : A -> B -> C) (a : A) (b : X -> B)
      (xs : list X) :
  zip_with f (repeat a (length xs)) (map b xs) = Ok (map (fun x => f a (b x)) xs).
Proof.
  induction xs as [|x xs IH]; simpl; [reflexivity|]. now rewrite IH.
Qed.

Lemma zip_with_map_repeat {X A B C : Type} (f : A -> B -> C) (a : X -> A) (b : B)
      (xs : list X) :
  zip_with f (map a xs) (repeat b (length xs)) = Ok (map (fun x => f (a x) b) xs).
Proof.
  induction xs as [|x xs IH]; simpl; [reflexivity|]. now rewrite IH.
Qed.

Lemma mapM_ok {A B : Type} (f : A -> result B) (g : A -> B) (l : list A) :
  (forall x, In x l -> f x = Ok (g x)) -> mapM f l = Ok (map g l).
Proof.
  induction l as [|x l IH]; intros H; simpl; [reflexivity|].
  rewrite (H x (or_introl eq_refl)), IH; [reflexivity|].
  intros y Hy. apply H. now right.
Qed.

Lemma repeat_map_const {X A : Type} (a : A) (xs : list X) :
  repeat a (length xs) = map (fun _ => a) xs.
Proof. induction xs; simpl; congruence. Qed.

Lemma py_index_ok (len : nat) (j : Z) :
  (0 <= j < Z.of_nat len)%Z -> py_index len j = Ok (Z.to_nat j).
Proof.
  intros H. unfold py_index.
  destruct (Z.leb_spec 0 j); destruct (Z.ltb_spec j (Z.of_nat len));
    simpl; try lia; reflexivity.
Qed.

Lemma getitem_ok {A : Type} (l : list A) (i : nat) (d : A) :
  (i < length l)%nat -> getitem l i = Ok (nth i l d).
Proof.
  intros H. unfold getitem. now rewrite (nth_error_nth' l d H).
Qed.

Lemma py_getitem_ok {A : Type} (l : list A) (j : Z) (d : A) :
  (0 <= j < Z.of_nat (length l))%Z -> py_getitem l j = Ok (nth (Z.to_nat j) l d).
Proof.
  intros H. unfold py_getitem. rewrite py_index_ok by exact H. simpl.
  apply getitem_ok. lia.
Qed.

Lemma fold_left_Rplus {J : Type} (t : J -> R) (l : list J) (a : R) :
  fold_left (fun acc j => (acc + t j)%R) l a = (a + Rsum (map t l))%R.
Proof.
  revert a. induction l as [|j l IH]; intros a; simpl.
  - ring.
  - rewrite IH. unfold Rsum. ring.
Qed.

Lemma Rsum_scale {J : Type} (c : R) (t : J -> R) (l : list J) :
  Rsum (map (fun j => (c * t j)%R) l) = (c * Rsum (map t l))%R.
Proof.
  induction l as [|j l IH]; simpl; [ring|]. rewrite IH. ring.
Qed.

(** [for n in range(len(l)): ... l[n] ...] visits the elements of [l]
    in order. *)
Lemma forM_range_getitem {A S : Type} (k : A -> S -> VMC.M S) (l : list A) :
  forall (s : S) (h : VMC.heap),
    VMC.forM (range (Z.of_nat (length l)))
        (fun n s => VMC.bindM (VMC.lift (py_getitem l n)) (fun b => k b s)) s h
    = VMC.forM l k s h.
Proof.
  unfold range. rewrite Nat2Z.id.
  assert (G : forall (post pre : list A) s h,
    VMC.forM (map Z.of_nat (seq (length pre) (length post)))
        (fun n s => VMC.bindM (VMC.lift (py_getitem (pre ++ post) n))
                      (fun b => k b s)) s h
    = VMC.forM post k s h).
  { induction post as [|b post IH]; intros pre s h; simpl; [reflexivity|].
    unfold VMC.bindM at 1. unfold VMC.bindM at 1. unfold VMC.lift at 1.
    rewrite (py_getitem_ok (pre ++ b :: post) _ b).
    2:{ rewrite length_app. simpl. lia. }
    rewrite Nat2Z.id, nth_middle.
    unfold VMC.bindM. destruct (k b s h) as [[s'|e] h']; [|reflexivity].
    specialize (IH (pre ++ [b]) s' h').
    rewrite <- app_assoc, length_app in IH. simpl in IH.
    rewrite Nat.add_1_r in IH. exact IH. }
  intros s h. exact (G l [] s h).
Qed.

Lemma zip_with_map_l {X A C : Type} (f : A -> X -> C) (a : X -> A) (xs : list X) :
  zip_with f (map a xs) xs = Ok (map (fun x => f (a x) x) xs).
Proof.
  induction xs as [|x xs IH]; simpl; [reflexivity|]. now rewrite IH.
Qed.

Lemma zip_with_ok {A B C : Type} (f : A -> B -> C) (la : list A) (lb : list B) :
  length la = length lb ->
  zip_with f la lb = Ok (map (fun p => f (fst p) (snd p)) (combine la lb)).
Proof.
  revert lb. induction la as [|a la IH]; intros [|b lb] H; simpl in *;
    try discriminate; [reflexivity|].
  rewrite IH by congruence. reflexivity.
Qed.

Lemma mapM_id_map {X B : Type} (F : X -> result B) (G : X -> B) (l : list X) :
  (forall x, In x l -> F x = Ok (G x)) ->
  mapM (fun r => r) (map F l) = Ok (map G l).
Proof.
  induction l as [|x l IH]; intros H; simpl; [reflexivity|].
  rewrite (H x (or_introl eq_refl)), IH; [reflexivity|].
  intros y Hy. apply H. now right.
Qed.

(** ** The log-amplitude of one configuration *)

Module Amplitude.

Import VMC.
Open Scope R_scope.

(** The inputs the network sees for the row [s]: a zero vector, then
    the one-hot codes of [s] shifted by one step. *)
Definition row_inputs (self : vmc) (s : list Z) : list (R * R) :=
  [scale2 0 (one_hot 0)] ++ map one_hot (slice0 (N self - 1) s).

(** The conditional probabilities the network gives along the row. *)
Definition row_probs (self : vmc) (ly : layers) (s : list Z) : list (R * R) :=
  map (dense_fn ly) (fst (rnn_row ly (row_inputs self s) (repeat 0 (nh ly)))).

(** The value [logpsi] computes for the row [s]. *)
Definition amplitude (self : vmc) (ly : layers) (s : list Z) : R :=
  0.5 * Rsum (map (fun p => dot2 (log_eps (fst p)) (one_hot (snd p)))
                  (combine (row_probs self ly s) s)).

Lemma length_rnn_row (ly : layers) (xs : list (R * R)) :
  forall h, length (fst (rnn_row ly xs h)) = length xs.
Proof.
  induction xs as [|x xs IH]; intros h; simpl; [reflexivity|].
  specialize (IH (gru_cell ly x h)).
  destruct (rnn_row ly xs (gru_cell ly x h)) as [out hT]. simpl in *.
  now rewrite IH.
Qed.

Lemma length_row_probs (self : vmc) (ly : layers) (s : list Z) :
  (1 <= N self)%Z -> length s = Z.to_nat (N self) ->
  length (row_probs self ly s) = length s.
Proof.
  intros HN Hs. unfold row_probs, row_inputs.
  rewrite length_map, length_rnn_row, length_app, length_map.
  unfold slice0. destruct (Z.leb_spec 0 (N self - 1)); [|lia].
  rewrite length_firstn. simpl. lia.
Qed.

Lemma zeros_ok {A : Type} (n : nat) (row : A) :
  zeros (Z.of_nat n) row = Ok (repeat row n).
Proof.
  unfold zeros. destruct (Z.ltb_spec (Z.of_nat n) 0); [lia|].
  now rewrite Nat2Z.id.
Qed.

(** On a batch whose rows have [N >= 1] entries, [logpsi] returns the
    amplitude of every row. *)
Lemma logpsi_rows (self : vmc) (ly : layers) (a : array2) :
  (1 <= N self)%Z ->
  Forall (fun s => length s = Z.to_nat (N self)) a ->
  logpsi self ly a = Ok (map (amplitude self ly) a).
Proof.
  intros HN Ha. unfold logpsi.
  rewrite !zeros_ok. simpl bind.
  rewrite (zip_with_repeat_map (@app (R * R))). simpl bind.
  unfold rnn. rewrite zip_with_map_repeat. simpl bind.
  unfold dense. rewrite !map_map.
  unfold zip_with_r. rewrite zip_with_map_l. simpl bind.
  rewrite (mapM_id_map _ (fun s =>
     Rsum (map (fun p => dot2 (log_eps (fst p)) (one_hot (snd p)))
               (combine (row_probs self ly s) s)))).
  - simpl. rewrite map_map. reflexivity.
  - intros s Hs. rewrite Forall_forall in Ha.
    fold (row_inputs self s).
    change (map (dense_fn ly) (fst (rnn_row ly (row_inputs self s) (repeat 0 (nh ly)))))
      with (row_probs self ly s).
    rewrite zip_with_ok by (apply length_row_probs; auto).
    reflexivity.
Qed.

End Amplitude.

Lemma zip_with_map_r {X B C : Type} (f : X -> B -> C) (b : X -> B) (xs : list X) :
  zip_with f xs (map b xs) = Ok (map (fun x => f x (b x)) xs).
Proof.
  induction xs as [|x xs IH]; simpl; [reflexivity|]. now rewrite IH.
Qed.

Lemma list_set_app_last {A : Type} (l : list A) (a b : A) :
  list_set (l ++ [a]) (length l) b = l ++ [b].
Proof. induction l as [|x l IH]; simpl; congruence. Qed.

Lemma wrap64_small (z : Z) : (- 2 ^ 63 <= z < 2 ^ 63)%Z -> wrap64 z = z.
Proof.
  intros H. unfold wrap64.
  rewrite Z.mod_small by lia. lia.
Qed.

Lemma fst_combine {A B : Type} (la : list A) (lb : list B) :
  length lb = length la -> map fst (combine la lb) = la.
Proof.
  revert lb. induction la as [|a la IH]; intros [|b lb] H; simpl in *;
    try discriminate; [reflexivity|].
  f_equal. apply IH. congruence.
Qed.

Lemma snd_combine {A B : Type} (la : list A) (lb : list B) :
  length lb = length la -> map snd (combine la lb) = lb.
Proof.
  revert lb. induction la as [|a la IH]; intros [|b lb] H; simpl in *;
    try discriminate; [reflexivity|].
  f_equal. apply IH. congruence.
Qed.

(** ** The value of [localenergy] *)

Module LocalEnergy.

Import VMC Amplitude.
Open Scope R_scope.

(** The occupation [s_j] as a real number. *)
Definition occ (s : list Z) (j : Z) : R := IZR (nth (Z.to_nat j) s 0%Z).

(** [flip_j(s)]: the entry [s_j] replaced by [1 - s_j]. *)
Definition flip (j : Z) (s : list Z) : list Z :=
  list_set s (Z.to_nat j) (1 - nth (Z.to_nat j) s 0)%Z.

(** The sum of [s_a * s_b] over a bond list. *)
Definition pair_sum (bonds : list bond) (s : list Z) : R :=
  Rsum (map (fun b => occ s (fst b) * occ s (snd b)) bonds).

Definition diagonal_energy (self : vmc) (s : list Z) : R :=
  - delta self * Rsum (map (occ s) (range (N self)))
  + V self * pair_sum (nn self) s
  + V self / 8 * pair_sum (nnn self) s
  + V self / 64 * pair_sum (nnnn self) s.

Definition local_energy_value (self : vmc) (ly : layers) (s : list Z) (l : R) : R :=
  diagonal_energy self s
  - 0.5 * Omega self
    * Rsum (map (fun j => exp (amplitude self ly (flip j s) - l)) (range (N self))).

Definition binary (s : list Z) : Prop := Forall (fun z => z = 0%Z \/ z = 1%Z) s.

(** A bond whose two sites are columns of the batch. *)
Definition in_lattice (n : Z) (b : bond) : Prop :=
  (0 <= fst b < n)%Z /\ (0 <= snd b < n)%Z.

Lemma binary_nth (s : list Z) (i : nat) :
  binary s -> nth i s 0%Z = 0%Z \/ nth i s 0%Z = 1%Z.
Proof.
  intros Hs. destruct (Nat.lt_ge_cases i (length s)) as [Hi|Hi].
  - unfold binary in Hs. rewrite Forall_forall in Hs.
    apply Hs. now apply nth_In.
  - left. now apply nth_overflow.
Qed.

Lemma length_flip (j : Z) (s : list Z) : length (flip j s) = length s.
Proof. unfold flip. apply Frame.length_list_set. Qed.

Section Batch.

Variable self : vmc.
Variable ly : layers.
Variable samples_ref : ref.
Variable samples : array2.
Variable logpsi_v : list R.

Hypothesis rows_ok :
  Forall (fun s => length s = Z.to_nat (N self) /\ binary s) samples.
Hypothesis logpsi_len : length logpsi_v = length samples.

(** The rows with their log-amplitudes. *)
Let xs : list (list Z * R) := combine samples logpsi_v.

Let Inv (h : heap) : Prop := nth_error h samples_ref = Some samples.

Lemma samples_xs : samples = map fst xs.
Proof. symmetry. now apply fst_combine. Qed.

Lemma logpsi_xs : logpsi_v = map snd xs.
Proof. symmetry. now apply snd_combine. Qed.

Lemma xs_row (x : list Z * R) :
  In x xs -> length (fst x) = Z.to_nat (N self) /\ binary (fst x).
Proof.
  intros Hx. rewrite Forall_forall in rows_ok. apply rows_ok.
  subst xs. destruct x as [s l]. simpl. eapply in_combine_l. exact Hx.
Qed.

(** A column of an array of the store whose rows are as long as those
    of [samples]. *)
Lemma column_ok (r : ref) (a : array2) (j : Z) (h : heap) :
  nth_error h r = Some a ->
  Forall (fun s => length s = Z.to_nat (N self)) a ->
  (0 <= j < N self)%Z ->
  column r j h = (Ok (map (fun s => nth (Z.to_nat j) s 0%Z) a), h).
Proof.
  intros Hr Ha Hj. unfold column, bindM, deref, getitem. rewrite Hr.
  unfold lift. f_equal. apply mapM_ok. intros s Hs.
  rewrite Forall_forall in Ha. apply py_getitem_ok.
  rewrite (Ha s Hs). lia.
Qed.

Lemma samples_lengths : Forall (fun s => length s = Z.to_nat (N self)) samples.
Proof.
  eapply Forall_impl; [|exact rows_ok]. now intros s [H _].
Qed.

Lemma column_samples (j : Z) (h : heap) :
  Inv h -> (0 <= j < N self)%Z ->
  column samples_ref j h
  = (Ok (map (fun x => nth (Z.to_nat j) (fst x) 0%Z) xs), h).
Proof.
  intros Hh Hj. rewrite (column_ok samples_ref samples j h Hh samples_lengths Hj).
  rewrite samples_xs at 1. now rewrite map_map.
Qed.

Lemma add_scaled_xs (g : list Z * R -> R) (c : R) (t : list Z * R -> R) :
  add_scaled (map g xs) c (map t xs) = Ok (map (fun x => g x + c * t x) xs).
Proof. unfold add_scaled. rewrite map_map. apply zip_with_map. Qed.

(** A loop that adds one term per turn to every entry of [eloc]. *)
Lemma forM_vector {J : Type} (l : list J) (body : J -> list R -> M (list R))
      (t : J -> list Z * R -> R) :
  (forall j g h, In j l -> Inv h ->
     exists h', body j (map g xs) h = (Ok (map (fun x => g x + t j x) xs), h')
                /\ Inv h') ->
  forall g h, Inv h ->
    exists h', forM l body (map g xs) h
               = (Ok (map (fun x => g x + Rsum (map (fun j => t j x) l)) xs), h')
               /\ Inv h'.
Proof.
  induction l as [|j l IH]; intros Hbody g h Hh.
  - exists h. split; [|exact Hh]. simpl. unfold ret. do 2 f_equal.
    apply map_ext. intros x. simpl. ring.
  - destruct (Hbody j g h (or_introl eq_refl) Hh) as [h1 [E1 Hh1]].
    destruct (IH (fun j' g' h' Hj' => Hbody j' g' h' (or_intror Hj'))
                 (fun x => g x + t j x) h1 Hh1) as [h2 [E2 Hh2]].
    exists h2. split; [|exact Hh2].
    simpl. unfold bindM. rewrite E1, E2. do 2 f_equal.
    apply map_ext. intros x. simpl. ring.
Qed.

Lemma chemical_loop (g : list Z * R -> R) (h : heap) :
  Inv h ->
  exists h',
    forM (range (N self)) (fun j eloc =>
        bindM (column samples_ref j) (fun c =>
        lift (add_scaled eloc (- delta self) (cast c)))) (map g xs) h
    = (Ok (map (fun x => g x + Rsum (map (fun j => - delta self * occ (fst x) j)
                                         (range (N self)))) xs), h')
    /\ Inv h'.
Proof.
  apply forM_vector. intros j g' h' Hj Hh'. apply in_range in Hj.
  exists h'. split; [|exact Hh'].
  unfold bindM. rewrite (column_samples j h' Hh' Hj). unfold lift, cast.
  rewrite map_map. now rewrite add_scaled_xs.
Qed.

Lemma bond_loop_ok (c : R) (bonds : list bond) (g : list Z * R -> R) (h : heap) :
  Forall (in_lattice (N self)) bonds -> Inv h ->
  exists h',
    bond_loop samples_ref c bonds (map g xs) h
    = (Ok (map (fun x => g x + Rsum (map (fun b =>
               c * (occ (fst x) (fst b) * occ (fst x) (snd b))) bonds)) xs), h')
    /\ Inv h'.
Proof.
  intros Hbonds Hh. unfold bond_loop.
  rewrite (forM_range_getitem (fun b eloc =>
    bindM (column samples_ref (fst b)) (fun ca =>
    bindM (column samples_ref (snd b)) (fun cb =>
    bindM (lift (zip_with (fun x y => wrap64 (x * y)) ca cb)) (fun prod =>
    lift (add_scaled eloc c (cast prod))))))).
  revert g h Hh. apply forM_vector. intros b g h Hb Hh.
  rewrite Forall_forall in Hbonds. destruct (Hbonds b Hb) as [Ha Hb'].
  exists h. split; [|exact Hh].
  unfold bindM. rewrite (column_samples _ h Hh Ha).
  rewrite (column_samples _ h Hh Hb').
  unfold lift. rewrite zip_with_map. unfold cast. rewrite map_map.
  rewrite add_scaled_xs. do 2 f_equal.
  apply map_ext_in. intros x Hx. destruct (xs_row x Hx) as [_ Hbin].
  unfold occ. rewrite <- mult_IZR. do 3 f_equal.
  apply wrap64_small.
  destruct (binary_nth (fst x) (Z.to_nat (fst b)) Hbin) as [-> | ->];
    destruct (binary_nth (fst x) (Z.to_nat (snd b)) Hbin) as [-> | ->];
    simpl; lia.
Qed.

(** One turn of the off-diagonal loop: the copy is flipped at column
    [j] and fed to [logpsi]; [samples] stays where it was. *)
Lemma offdiagonal_turn (j : Z) (g : list Z * R -> R) (h : heap) :
  (0 <= j < N self)%Z -> Inv h ->
  exists h',
    bindM (np_copy samples_ref) (fun flip_samples =>
    bindM (column flip_samples j) (fun c =>
    bindM (set_column flip_samples j (map (fun x => wrap64 (1 - x)) c)) (fun _ =>
    bindM (deref flip_samples) (fun a =>
    bindM (lift (logpsi self ly a)) (fun flip_logpsi =>
    bindM (lift (zip_with Rminus flip_logpsi logpsi_v)) (fun d =>
    lift (add_scaled (map g xs) (- 0.5 * Omega self) (map exp d)))))))) h
    = (Ok (map (fun x => g x + - 0.5 * Omega self
                 * exp (amplitude self ly (flip j (fst x)) - snd x)) xs), h')
    /\ Inv h'.
Proof.
  intros Hj Hh. exists (h ++ [map (flip j) samples]).
  assert (Hlen : (samples_ref < length h)%nat).
  { apply nth_error_Some. unfold Inv in Hh. now rewrite Hh. }
  split.
  2:{ unfold Inv. now rewrite nth_error_app1. }
  assert (Hcopy : nth_error (h ++ [samples]) (length h) = Some samples).
  { rewrite nth_error_app2 by lia. now rewrite Nat.sub_diag. }
  unfold bindM at 1. unfold np_copy, bindM at 1, deref at 1, getitem.
  unfold Inv in Hh. rewrite Hh.
  unfold bindM at 1.
  rewrite (column_ok (length h) samples j _ Hcopy samples_lengths Hj).
  unfold bindM at 1. unfold set_column, bindM at 1, deref at 1, getitem.
  rewrite Hcopy. unfold bindM at 1, lift at 1.
  rewrite map_map. unfold zip_with_r. rewrite zip_with_map_r. simpl bind.
  rewrite (mapM_id_map _ (flip j)).
  2:{ intros s Hs. pose proof samples_lengths as HL.
      rewrite Forall_forall in HL. rewrite py_index_ok by (rewrite (HL s Hs); lia).
      simpl. unfold flip. do 2 f_equal. apply wrap64_small.
      pose proof rows_ok as HR. rewrite Forall_forall in HR.
      destruct (binary_nth s (Z.to_nat j) (proj2 (HR s Hs))) as [-> | ->];
        simpl; lia. }
  rewrite list_set_app_last.
  unfold bindM at 1, deref at 1, getitem.
  rewrite nth_error_app2 by lia. rewrite Nat.sub_diag. simpl nth_error.
  unfold bindM at 1, lift at 1.
  rewrite logpsi_rows.
  2:{ lia. }
  2:{ apply Forall_forall. intros s' Hs'. apply in_map_iff in Hs'.
      destruct Hs' as [s [<- Hs]]. rewrite length_flip.
      pose proof samples_lengths as HL. rewrite Forall_forall in HL. now apply HL. }
  unfold bindM at 1, lift at 1.
  rewrite samples_xs at 1. rewrite logpsi_xs at 1. rewrite !map_map.
  rewrite zip_with_map. unfold lift. rewrite map_map.
  now rewrite add_scaled_xs.
Qed.

Lemma offdiagonal_loop (g : list Z * R -> R) (h : heap) :
  Inv h ->
  exists h',
    localenergy_offdiagonal self ly samples_ref logpsi_v (map g xs) h
    = (Ok (map (fun x => g x + Rsum (map (fun j => - 0.5 * Omega self
                 * exp (amplitude self ly (flip j (fst x)) - snd x))
                 (range (N self)))) xs), h')
    /\ Inv h'.
Proof.
  unfold localenergy_offdiagonal. apply forM_vector.
  intros j g' h' Hj Hh'. apply in_range in Hj.
  now apply offdiagonal_turn.
Qed.

(** The diagonal part on a store that holds [samples]. *)
Lemma diagonal_batch (h : heap) :
  Forall (in_lattice (N self)) (nn self) ->
  Forall (in_lattice (N self)) (nnn self) ->
  Forall (in_lattice (N self)) (nnnn self) ->
  Inv h ->
  exists h',
    localenergy_diagonal self samples_ref h
    = (Ok (map (fun x => diagonal_energy self (fst x)) xs), h')
    /\ Inv h'.
Proof.
  intros Hnn Hnnn Hnnnn Hh.
  assert (Hxs : length xs = length samples).
  { subst xs. rewrite length_combine, logpsi_len. apply Nat.min_id. }
  unfold localenergy_diagonal.
  unfold bindM at 1. unfold deref at 1, getitem. rewrite Hh.
  rewrite <- Hxs, (repeat_map_const 0 xs).
  destruct (chemical_loop (fun _ => 0) h Hh) as [h1 [E1 H1]].
  unfold bindM at 1. rewrite E1.
  epose proof (bond_loop_ok (V self) (nn self) _ h1 Hnn H1) as [h2 [E2 H2]].
  unfold bindM at 1. rewrite E2.
  epose proof (bond_loop_ok (V self / 8) (nnn self) _ h2 Hnnn H2) as [h3 [E3 H3]].
  unfold bindM at 1. rewrite E3.
  epose proof (bond_loop_ok (V self / 64) (nnnn self) _ h3 Hnnnn H3) as [h4 [E4 H4]].
  exists h4. split; [|exact H4]. rewrite E4. do 2 f_equal.
  apply map_ext. intros x.
  unfold diagonal_energy, pair_sum.
  rewrite !Rsum_scale. field.
Qed.

(** The whole of [localenergy] on a store that holds [samples]. *)
Lemma localenergy_batch (h : heap) :
  Forall (in_lattice (N self)) (nn self) ->
  Forall (in_lattice (N self)) (nnn self) ->
  Forall (in_lattice (N self)) (nnnn self) ->
  nth_error h samples_ref = Some samples ->
  fst (localenergy self ly samples_ref logpsi_v h)
  = Ok (map (fun x => local_energy_value self ly (fst x) (snd x)) xs).
Proof.
  intros Hnn Hnnn Hnnnn Hh.
  destruct (diagonal_batch h Hnn Hnnn Hnnnn Hh) as [h4 [E4 H4]].
  unfold localenergy, bindM. rewrite E4.
  epose proof (offdiagonal_loop _ h4 H4) as [h5 [E5 H5]].
  rewrite E5. simpl fst. f_equal.
  apply map_ext. intros x.
  unfold local_energy_value.
  rewrite !Rsum_scale. decimals. field.
Qed.

End Batch.

(** C1. On a batch of configurations with entries in [{0,1}], called
    with a vector [logpsi] holding one log-amplitude per row,
    [localenergy] returns for each row [s] with entry [l] of [logpsi]
    the value
    [(-delta) * sum_j s_j + V * sum_nn s_i s_j + (V/8) * sum_nnn s_i s_j
     + (V/64) * sum_nnnn s_i s_j
     - 0.5 * Omega * sum_j exp(logpsi(flip_j(s)) - l)],
    the bond lists being those built by [buildlattice].  The function
    [amplitude] that stands for [logpsi] in this value is what the
    method [logpsi] returns, row by row, on the batch and on each of its
    flipped copies. *)
Theorem localenergy_formula
    (Lx Ly : Z) (V Omega delta : R) (ly : layers)
    (h : heap) (samples_ref : ref) (samples : array2) (logpsi_v : list R) :
  let self := init Lx Ly V Omega delta in
  nth_error h samples_ref = Some samples ->
  Forall (fun s => length s = Z.to_nat (N self) /\ binary s) samples ->
  length logpsi_v = length samples ->
  fst (localenergy self ly samples_ref logpsi_v h)
  = Ok (map (fun x => local_energy_value self ly (fst x) (snd x))
            (combine samples logpsi_v))
  /\ forall j, (0 <= j < N self)%Z ->
       logpsi self ly samples = Ok (map (amplitude self ly) samples)
       /\ logpsi self ly (map (flip j) samples)
          = Ok (map (fun s => amplitude self ly (flip j s)) samples).
Proof.
  intros self Hh Hrows Hlen.
  assert (Hv : forall l, Forall (LatticeBounds.valid_bond (N self)) l ->
                         Forall (in_lattice (N self)) l).
  { intros l. apply Forall_impl. intros b (_ & Ha & Hb). now split. }
  split.
  - apply localenergy_batch; trivial; apply Hv; subst self;
      rewrite LatticeFacts.vmc_closed; simpl.
    + apply LatticeBounds.nn_valid.
    + apply LatticeBounds.nnn_valid.
    + apply LatticeBounds.nnnn_valid.
  - intros j Hj.
    assert (Hl : Forall (fun s => length s = Z.to_nat (N self)) samples).
    { eapply Forall_impl; [|exact Hrows]. now intros s [H _]. }
    split; [apply logpsi_rows; [lia | exact Hl]|].
    rewrite logpsi_rows; [now rewrite map_map | lia |].
    apply Forall_forall. intros s' Hs'. apply in_map_iff in Hs'.
    destruct Hs' as [s [<- Hs]]. rewrite length_flip.
    rewrite Forall_forall in Hl. now apply Hl.
Qed.

(** A network for the examples: the cell keeps its state and the dense
    layer gives both outcomes probability one half. *)
Definition example_layers : layers :=
  mkLayers 1 (fun _ h => h) (fun _ => (0.5, 0.5)).

(** One configuration of the 2-by-2 lattice, alone in the store. *)
Lemma localenergy_formula_2x2 :
  let self := init 2 2 7 1 1 in
  fst (localenergy self example_layers 0%nat [0] [[[0; 1; 1; 0]%Z]])
  = Ok (map (fun x => local_energy_value self example_layers (fst x) (snd x))
            (combine [[0; 1; 1; 0]%Z] [0]))
  /\ forall j, (0 <= j < N self)%Z ->
       logpsi self example_layers [[0; 1; 1; 0]%Z]
       = Ok (map (amplitude self example_layers) [[0; 1; 1; 0]%Z])
       /\ logpsi self example_layers (map (flip j) [[0; 1; 1; 0]%Z])
          = Ok (map (fun s => amplitude self example_layers (flip j s))
                    [[0; 1; 1; 0]%Z]).
Proof.
  apply (localenergy_formula 2 2 7 1 1 example_layers
           [[[0; 1; 1; 0]%Z]] 0%nat [[0; 1; 1; 0]%Z] [0]).
  - reflexivity.
  - constructor; [split; [reflexivity|] | constructor].
    unfold binary. repeat (apply Forall_cons; [auto|]). apply Forall_nil.
  - reflexivity.
Defined.

End LocalEnergy.

(** ** The two notebooks encode one Hamiltonian *)

Module SameHamiltonian.

Import NetKet VMC LocalEnergy.
Open Scope R_scope.

Lemma matrix_element_for_each {A : Type} (n : nat) (f : A -> LocalOperator R)
      (l : list A) (s s' : config) :
  forall H0,
    matrix_element n (for_each l (fun x H => Add H (f x)) H0) s s'
    = matrix_element n H0 s s' + Rsum (map (fun x => matrix_element n (f x) s s') l).
Proof.
  unfold for_each. induction l as [|x l IH]; intros H0; simpl.
  - ring.
  - rewrite IH. simpl. ring.
Qed.

Lemma agree_off_refl (sites : list Z) (s : config) : agree_off sites s s = true.
Proof.
  unfold agree_off. rewrite Nat.eqb_refl. simpl.
  apply forallb_forall. intros j _. rewrite Z.eqb_refl. apply orb_true_r.
Qed.

(** The diagonal of the three kinds of local terms. *)
Lemma diagonal_sx (n : nat) (c : R) (j : Z) (s : config) :
  binary s ->
  matrix_element n (Local (map (map (fun z => c * IZR z)) [[0; 1]; [1; 0]]%Z) [j]) s s = 0.
Proof.
  intros Hs. simpl. rewrite agree_off_refl. unfold local_index, entry. simpl.
  destruct (binary_nth s (Z.to_nat j) Hs) as [-> | ->]; cbn; change (Pos.to_nat 1) with 1%nat; cbn; ring.
Qed.

Lemma diagonal_P (n : nat) (c : R) (j : Z) (s : config) :
  binary s ->
  matrix_element n (Local (map (map (fun z => c * IZR z)) [[0; 0]; [0; 1]]%Z) [j]) s s = c * occ s j.
Proof.
  intros Hs. simpl. rewrite agree_off_refl. unfold local_index, occ, entry. simpl.
  destruct (binary_nth s (Z.to_nat j) Hs) as [-> | ->]; cbn; change (Pos.to_nat 1) with 1%nat; cbn; ring.
Qed.

Lemma diagonal_PP (n : nat) (c : R) (a b : Z) (s : config) :
  binary s ->
  matrix_element n
    (Local (map (map (fun z => c * IZR z)) (kron Z.mul [[0; 0]; [0; 1]] [[0; 0]; [0; 1]])%Z) [a; b]) s s
  = c * (occ s a * occ s b).
Proof.
  intros Hs. simpl. rewrite agree_off_refl. unfold local_index, occ, entry. simpl.
  destruct (binary_nth s (Z.to_nat a) Hs) as [-> | ->];
    destruct (binary_nth s (Z.to_nat b) Hs) as [-> | ->]; cbn; change (Pos.to_nat 1) with 1%nat; cbn; ring.
Qed.

(** The diagonal of [generatehamiltonian] in closed form. *)
Lemma generatehamiltonian_diagonal (Lx Ly : Z) (V Omega delta : R) (s : config) :
  binary s ->
  matrix_element (Z.to_nat (Lx * Ly))
    (Tomography.generatehamiltonian Lx Ly V Omega delta) s s
  = diagonal_energy (init Lx Ly V Omega delta) s.
Proof.
  intros Hs. unfold Tomography.generatehamiltonian. cbv zeta.
  rewrite !matrix_element_for_each.
  rewrite LatticeFacts.tomography_closed, LatticeFacts.vmc_closed.
  unfold diagonal_energy, pair_sum.
  cbn [Tomography.nn Tomography.nnn Tomography.nnnn nn nnn nnnn N
       VMC.delta VMC.V].
  assert (E0 : matrix_element (Z.to_nat (Lx * Ly)) (Const 0) s s = 0).
  { simpl. now destruct (list_eq_dec Z.eq_dec s s). }
  rewrite E0.
  rewrite (map_ext _ (fun _ => 0) (fun j => diagonal_sx _ _ j s Hs)).
  rewrite (map_ext _ _ (fun j => diagonal_P _ (- delta) j s Hs)).
  rewrite (map_ext _ _ (fun b => diagonal_PP _ V (fst b) (snd b) s Hs)).
  rewrite (map_ext _ _ (fun b => diagonal_PP _ (V / 8) (fst b) (snd b) s Hs)).
  rewrite (map_ext _ _ (fun b => diagonal_PP _ (V / 64) (fst b) (snd b) s Hs)).
  rewrite !Rsum_scale.
  assert (Z0 : forall l : list Z, Rsum (map (fun _ => 0) l) = 0).
  { induction l as [|x l IH]; simpl; [reflexivity|]. rewrite IH. ring. }
  rewrite Z0. field.
Qed.

(** C5. For the same [Lx], [Ly], [V], [Omega], [delta]: the bond lists
    of the tomography notebook's [buildlattice] are those of
    [VariationalMonteCarlo.buildlattice], and on every batch of
    occupation configurations the diagonal part of [localenergy] is,
    row by row, the diagonal matrix element of
    [generatehamiltonian]. *)
Theorem notebooks_encode_same_hamiltonian
    (Lx Ly : Z) (V Omega delta : R)
    (h : heap) (samples_ref : ref) (samples : array2) :
  let t := Tomography.buildlattice Lx Ly in
  let self := init Lx Ly V Omega delta in
  let H := Tomography.generatehamiltonian Lx Ly V Omega delta in
  nth_error h samples_ref = Some samples ->
  Forall (fun s => length s = Z.to_nat (Lx * Ly) /\ binary s) samples ->
  (Tomography.nn t = nn self /\ Tomography.nnn t = nnn self
   /\ Tomography.nnnn t = nnnn self)
  /\ fst (localenergy_diagonal self samples_ref h)
     = Ok (map (fun s => matrix_element (Z.to_nat (Lx * Ly)) H s s) samples).
Proof.
  intros t self H Hh Hrows. split.
  - subst t self. rewrite LatticeFacts.tomography_closed, LatticeFacts.vmc_closed.
    simpl. auto.
  - assert (HN : N self = (Lx * Ly)%Z).
    { subst self. now rewrite LatticeFacts.vmc_closed. }
    assert (Hv : forall l, Forall (LatticeBounds.valid_bond (N self)) l ->
                           Forall (in_lattice (N self)) l).
    { intros l. apply Forall_impl. intros b (_ & Ha & Hb). now split. }
    assert (Hlen : length (map (fun _ : list Z => 0) samples) = length samples)
      by apply length_map.
    destruct (diagonal_batch self samples_ref samples
                (map (fun _ => 0) samples)) with (h := h) as [h' [E _]];
      trivial.
    + now rewrite HN.
    + apply Hv. subst self. rewrite LatticeFacts.vmc_closed. simpl.
      apply LatticeBounds.nn_valid.
    + apply Hv. subst self. rewrite LatticeFacts.vmc_closed. simpl.
      apply LatticeBounds.nnn_valid.
    + apply Hv. subst self. rewrite LatticeFacts.vmc_closed. simpl.
      apply LatticeBounds.nnnn_valid.
    + rewrite E. simpl fst. f_equal.
      rewrite <- (map_map fst (diagonal_energy self)).
      rewrite (fst_combine samples _ Hlen).
      apply map_ext_in. intros s Hs.
      subst H self. rewrite generatehamiltonian_diagonal; [reflexivity|].
      rewrite Forall_forall in Hrows. now apply Hrows.
Qed.

(** Two configurations of the 2-by-2 lattice. *)
Lemma notebooks_encode_same_hamiltonian_2x2 :
  let t := Tomography.buildlattice 2 2 in
  let self := init 2 2 7 1 1 in
  let H := Tomography.generatehamiltonian 2 2 7 1 1 in
  (Tomography.nn t = nn self /\ Tomography.nnn t = nnn self
   /\ Tomography.nnnn t = nnnn self)
  /\ fst (localenergy_diagonal self 0%nat [[[1; 1; 0; 1]; [0; 0; 1; 1]]%Z])
     = Ok (map (fun s => matrix_element (Z.to_nat (2 * 2)) H s s)
               [[1; 1; 0; 1]; [0; 0; 1; 1]]%Z).
Proof.
  apply (notebooks_encode_same_hamiltonian 2 2 7 1 1
           [[[1; 1; 0; 1]; [0; 0; 1; 1]]%Z] 0%nat
           [[1; 1; 0; 1]; [0; 0; 1; 1]]%Z).
  - reflexivity.
  - repeat (apply Forall_cons;
            [split; [reflexivity |
                     unfold binary; repeat (apply Forall_cons; [auto|]);
                     apply Forall_nil] |]).
    apply Forall_nil.
Defined.

End SameHamiltonian.

(** ** Sampling accumulates twice the log-amplitude *)

Module Autoregressive.

Import VMC Amplitude.
Open Scope R_scope.

(** What the loop of [sample] holds for one row of the batch: the
    input of the next cell, the hidden state, the accumulated
    log-probability and the entries drawn so far. *)
Record row_state : Type := mkRow {
  rx : R * R;
  rh : list R;
  rlp : R;
  rpre : list Z
}.

(** One turn of the loop, seen from one row that draws [d]. *)
Definition row_step (ly : layers) (r : row_state) (d : Z) : row_state :=
  let h' := gru_cell ly (rx r) (rh r) in
  mkRow (one_hot d) h'
        (rlp r + dot2 (log_eps (dense_fn ly h')) (one_hot d))
        (rpre r ++ [d]).

(** The sum [logpsi] takes along a row, from the input [x] and the
    state [h]. *)
Definition row_logp (ly : layers) (x : R * R) (h : list R) (ds : list Z) : R :=
  Rsum (map (fun p => dot2 (log_eps (fst p)) (one_hot (snd p)))
            (combine (map (dense_fn ly)
                          (fst (rnn_row ly (x :: map one_hot (removelast ds)) h)))
                     ds)).

Lemma rnn_row_cons (ly : layers) (x : R * R) (xs : list (R * R)) (h : list R) :
  fst (rnn_row ly (x :: xs) h)
  = gru_cell ly x h :: fst (rnn_row ly xs (gru_cell ly x h)).
Proof. simpl. now destruct (rnn_row ly xs (gru_cell ly x h)). Qed.

Lemma row_run (ly : layers) (ds : list Z) :
  forall r : row_state,
    let r' := fold_left (row_step ly) ds r in
    rpre r' = rpre r ++ ds
    /\ rlp r' = rlp r + row_logp ly (rx r) (rh r) ds.
Proof.
  induction ds as [|d ds IH]; intros r; cbv zeta.
  - simpl. rewrite app_nil_r. split; [reflexivity|].
    unfold row_logp. simpl. ring.
  - change (fold_left (row_step ly) (d :: ds) r)
      with (fold_left (row_step ly) ds (row_step ly r d)).
    destruct (IH (row_step ly r d)) as [Hp Hl]. rewrite Hp, Hl.
    split.
    + simpl. now rewrite <- app_assoc.
    + unfold row_logp. destruct ds as [|d' ds].
      * simpl. ring.
      * change (removelast (d :: d' :: ds)) with (d :: removelast (d' :: ds)).
        rewrite map_cons, (rnn_row_cons ly (rx r)).
        simpl rx. simpl rh. simpl rlp.
        set (rest := rnn_row ly _ (gru_cell ly (rx r) (rh r))).
        simpl. ring.
Qed.

Lemma slice0_removelast (s : list Z) :
  slice0 (Z.of_nat (length s) - 1) s = removelast s.
Proof.
  unfold slice0. rewrite removelast_firstn_len.
  destruct s as [|z s]; [reflexivity|].
  destruct (Z.leb_spec 0 (Z.of_nat (length (z :: s)) - 1)).
  - f_equal. simpl length. lia.
  - simpl length in *. lia.
Qed.

(** A row that starts from the zero input and the zero state and draws
    the [N] entries [ds] has accumulated twice the amplitude of [ds]. *)
Lemma row_amplitude (self : vmc) (ly : layers) (ds : list Z) :
  Z.of_nat (length ds) = N self ->
  let r' := fold_left (row_step ly) ds
              (mkRow (scale2 0 (one_hot 0)) (repeat 0 (nh ly)) 0 []) in
  rpre r' = ds /\ amplitude self ly (rpre r') = 0.5 * rlp r'.
Proof.
  intros HN. cbv zeta.
  destruct (row_run ly ds (mkRow (scale2 0 (one_hot 0)) (repeat 0 (nh ly)) 0 []))
    as [Hp Hl].
  rewrite Hp, Hl. simpl. split; [reflexivity|].
  unfold amplitude, row_probs, row_inputs, row_logp.
  rewrite <- HN, slice0_removelast. simpl app. ring.
Qed.

Section Batch.

Variable rng : Type.
Variable categorical : rng -> list (R * R) -> list Z * rng.
Variable ly : layers.
Variable nsamples : Z.

(** The state of the loop before turn [k], row by row. *)
Definition st_of (k : nat) (rs : list row_state) (g : rng) : sample_state rng :=
  mkSampleState (map (fun r => [rx r]) rs) (map rh rs) (map rlp rs)
                (if (k =? 0)%nat then None else Some (map rpre rs)) g.

Lemma rnn_single (rs : list row_state) :
  rnn ly (map (fun r => [rx r]) rs) (map rh rs)
  = Ok (map (fun r => [gru_cell ly (rx r) (rh r)]) rs,
        map (fun r => gru_cell ly (rx r) (rh r)) rs).
Proof.
  unfold rnn. rewrite zip_with_map. simpl. now rewrite !map_map.
Qed.

Lemma reshape_singletons {X A : Type} (f : X -> A) (xs : list X) :
  reshape nsamples (map (fun x => [f x]) xs)
  = if (Z.of_nat (length xs) =? nsamples)%Z then Ok (map f xs)
    else Raise ValueError.
Proof.
  unfold reshape.
  assert (E : mapM (fun row : list A =>
                match row with [p] => Ok p | _ => Raise ValueError end)
              (map (fun x => [f x]) xs) = Ok (map f xs)).
  { induction xs as [|x xs IH]; simpl; [reflexivity|]. now rewrite IH. }
  rewrite E. simpl. now rewrite length_map.
Qed.

(** The rows after a turn in which row [i] draws [ds[i]]. *)
Definition rows_step (rs : list row_state) (ds : list Z) : list row_state :=
  map (fun p => row_step ly (fst p) (snd p)) (combine rs ds).

(** One turn of the loop of [sample] acts on every row as [row_step]. *)
Lemma sample_body_rows (k : nat) (rs : list row_state) (g : rng)
      (st' : sample_state rng) :
  (k = 0%nat -> Forall (fun r => rpre r = []) rs) ->
  sample_body categorical ly nsamples (Z.of_nat k) (st_of k rs g) = Ok st' ->
  exists ds g',
    length ds = length rs /\ st' = st_of (S k) (rows_step rs ds) g'.
Proof.
  intros Hpre H. unfold sample_body in H.
  cbn [st_of st_inputs st_hidden st_logP st_samples st_rng] in H.
  rewrite rnn_single in H. cbn [bind] in H.
  unfold dense in H. rewrite !map_map in H. cbn [map] in H.
  rewrite (reshape_singletons
             (fun r => log_eps (dense_fn ly (gru_cell ly (rx r) (rh r))))) in H.
  destruct (Z.eqb_spec (Z.of_nat (length rs)) nsamples) as [Hns|Hns];
    [|discriminate H].
  cbn [bind] in H.
  destruct (categorical g _) as [ds g'] eqn:Hcat.
  rewrite (reshape_singletons one_hot ds) in H.
  destruct (Z.eqb_spec (Z.of_nat (length ds)) nsamples) as [Hds|Hds].
  2:{ destruct (if (Z.of_nat k =? 0)%Z then _ else _); discriminate H. }
  assert (Hlen : length ds = length rs) by lia.
  exists ds, g'. split; [exact Hlen|].
  unfold rows_step.
  set (cs := combine rs ds) in *.
  assert (Ers : rs = map fst cs) by (symmetry; now apply fst_combine).
  assert (Eds : ds = map snd cs) by (symmetry; now apply snd_combine).
  clearbody cs. subst rs ds. clear Hcat Hns Hds Hlen.
  rewrite !map_map in H.
  destruct k as [|k].
  - change (Z.of_nat 0 =? 0)%Z with true in H. cbn [bind] in H.
    rewrite zip_with_map in H. cbn [bind] in H.
    rewrite zip_with_map in H. cbn [bind] in H.
    inversion H as [Hst]. unfold st_of.
    cbn [Nat.eqb]. rewrite !map_map. cbn [row_step rx rh rlp rpre].
    do 2 f_equal. apply map_ext_in. intros p Hp.
    specialize (Hpre eq_refl). rewrite Forall_forall in Hpre.
    rewrite (Hpre (fst p)); [reflexivity|]. now apply in_map.
  - destruct (Z.eqb_spec (Z.of_nat (S k)) 0) as [|_]; [lia|].
    cbn [Nat.eqb] in H. rewrite zip_with_map in H. cbn [bind] in H.
    rewrite zip_with_map in H. cbn [bind] in H.
    rewrite zip_with_map in H. cbn [bind] in H.
    inversion H as [Hst]. unfold st_of.
    cbn [Nat.eqb]. rewrite !map_map. reflexivity.
Qed.

(** Row [r'] is row [r] after [m] turns. *)
Definition reach (m : nat) (r r' : row_state) : Prop :=
  exists ds, length ds = m /\ r' = fold_left (row_step ly) ds r.

Lemma Forall2_compose {A B C : Type} (P : A -> B -> Prop) (Q : B -> C -> Prop)
      (T : A -> C -> Prop) (la : list A) :
  (forall a b c, P a b -> Q b c -> T a c) ->
  forall lb lc, Forall2 P la lb -> Forall2 Q lb lc -> Forall2 T la lc.
Proof.
  intros HT. induction la as [|a la IH]; intros lb lc HP HQ.
  - inversion HP; subst. inversion HQ; subst. constructor.
  - inversion HP; subst. inversion HQ; subst. constructor; eauto.
Qed.

Lemma rows_step_reach (rs : list row_state) :
  forall ds, length ds = length rs -> Forall2 (reach 1) rs (rows_step rs ds).
Proof.
  unfold rows_step. induction rs as [|r rs IH]; intros [|d ds] H;
    simpl in *; try discriminate; constructor.
  - exists [d]. split; reflexivity.
  - apply IH. congruence.
Qed.

Lemma reach_step (m : nat) (a b c : row_state) :
  reach 1 a b -> reach m b c -> reach (S m) a c.
Proof.
  intros [d1 [H1 ->]] [ds [Hm ->]].
  exists (d1 ++ ds). split.
  - rewrite length_app. lia.
  - now rewrite fold_left_app.
Qed.

Lemma reach_refl (rs : list row_state) : Forall2 (reach 0) rs rs.
Proof.
  induction rs; constructor; auto. exists []. split; reflexivity.
Qed.

Lemma Forall2_in_r_reach (m : nat) (rs rs' : list row_state) :
  Forall2 (reach m) rs rs' ->
  forall r', In r' rs' -> exists r, In r rs /\ reach m r r'.
Proof.
  induction 1 as [|r r1 rs rs' Hr HF IH]; intros r' Hin; simpl in Hin.
  - contradiction.
  - destruct Hin as [<- | Hin].
    + exists r. split; [now left | exact Hr].
    + destruct (IH r' Hin) as [r2 [Hr2 Hreach]].
      exists r2. split; [now right | exact Hreach].
Qed.

(** The loop of [sample] from turn [k], for [m] turns. *)
Lemma sample_loop_rows (m : nat) :
  forall (k : nat) (rs : list row_state) (g : rng) (st' : sample_state rng),
    (k = 0%nat -> Forall (fun r => rpre r = []) rs) ->
    for_each_r (map Z.of_nat (seq k m)) (sample_body categorical ly nsamples)
               (st_of k rs g) = Ok st' ->
    exists rs' g', st' = st_of (k + m) rs' g' /\ Forall2 (reach m) rs rs'.
Proof.
  induction m as [|m IH]; intros k rs g st' Hpre H.
  - simpl in H. inversion H; subst. exists rs, g.
    rewrite Nat.add_0_r. split; [reflexivity | apply reach_refl].
  - simpl in H.
    destruct (sample_body categorical ly nsamples (Z.of_nat k) (st_of k rs g))
      as [st1|e] eqn:E1; [|discriminate H].
    simpl in H.
    destruct (sample_body_rows k rs g st1 Hpre E1) as (ds & g1 & Hlen & ->).
    destruct (IH (S k) (rows_step rs ds) g1 st') as (rs' & g' & -> & HR);
      [intros; discriminate | exact H |].
    exists rs', g'. split; [now rewrite Nat.add_succ_r|].
    eapply Forall2_compose; [apply reach_step | | exact HR].
    now apply rows_step_reach.
Qed.

End Batch.

(** C2. Whatever the draws and the parameters of the network, when
    [sample(nsamples)] returns [(samples, logP)], [logpsi(samples)]
    returns [0.5 * logP], entry by entry. *)
Theorem logpsi_is_half_logP
    (rng : Type) (categorical : rng -> list (R * R) -> list Z * rng)
    (self : vmc) (ly : layers) (g : rng) (nsamples : Z)
    (samples : array2) (logP : list R) (g' : rng) :
  sample categorical self ly g nsamples = Ok (samples, logP, g') ->
  logpsi self ly samples = Ok (map (fun x => 0.5 * x) logP).
Proof.
  intros H. unfold sample, zeros in H.
  destruct (nsamples <? 0)%Z; [discriminate H|]. cbn [bind] in H.
  set (ns := Z.to_nat nsamples) in *.
  set (r0 := mkRow (scale2 0 (one_hot 0)) (repeat 0 (nh ly)) 0 []).
  assert (E0 : mkSampleState (repeat [scale2 0 (one_hot 0)] ns)
                 (repeat (repeat 0 (nh ly)) ns) (repeat 0 ns) None g
               = st_of rng 0%nat (repeat r0 ns) g).
  { unfold st_of. now rewrite !map_repeat. }
  rewrite E0 in H. unfold range in H.
  destruct (for_each_r _ _ _) as [st|e] eqn:Eloop; [|discriminate H].
  destruct (sample_loop_rows rng categorical ly nsamples (Z.to_nat (N self))
              0%nat (repeat r0 ns) g st) as (rs' & g1 & -> & HR);
    [|exact Eloop|].
  { intros _. apply Forall_forall. intros r Hr.
    apply repeat_spec in Hr. now subst. }
  cbn [bind st_of st_samples st_logP st_rng] in H.
  destruct (0 + Z.to_nat (N self))%nat eqn:Em; [discriminate H|].
  cbn [Nat.eqb] in H. inversion H; subst samples logP g1. clear H.
  assert (HN : (1 <= N self)%Z) by lia.
  assert (Hrows : forall r', In r' rs' ->
            length (rpre r') = Z.to_nat (N self)
            /\ amplitude self ly (rpre r') = 0.5 * rlp r').
  { intros r' Hr'.
    destruct (Forall2_in_r_reach ly _ _ _ HR r' Hr') as (r & Hr & ds & Hds & Hrun).
    apply repeat_spec in Hr. subst r.
    assert (HdsN : Z.of_nat (length ds) = N self) by lia.
    destruct (row_amplitude self ly ds HdsN) as [Hp Ha].
    fold r0 in Hp, Ha. rewrite <- Hrun in Hp, Ha.
    split; [rewrite Hp; lia | exact Ha]. }
  rewrite logpsi_rows; trivial.
  - f_equal. rewrite !map_map. apply map_ext_in. intros r' Hr'.
    now apply Hrows.
  - apply Forall_forall. intros s Hs. apply in_map_iff in Hs.
    destruct Hs as [r' [<- Hr']]. now apply Hrows.
Qed.

(** A generator that always draws 1, on the 1-by-2 lattice with two
    samples. *)
Definition draw_ones (g : unit) (logits : list (R * R)) : list Z * unit :=
  (map (fun _ => 1%Z) logits, g).

Definition example_logp : R := dot2 (log_eps (0.5, 0.5)) (one_hot 1).

Lemma logpsi_is_half_logP_example :
  logpsi (init 1 2 7 1 1) LocalEnergy.example_layers [[1; 1]; [1; 1]]%Z
  = Ok (map (fun x => 0.5 * x)
            [0 + example_logp + example_logp; 0 + example_logp + example_logp]).
Proof.
  apply (logpsi_is_half_logP unit draw_ones (init 1 2 7 1 1)
           LocalEnergy.example_layers tt 2
           [[1; 1]; [1; 1]]%Z
           [0 + example_logp + example_logp; 0 + example_logp + example_logp]
           tt).
  reflexivity.
Defined.

End Autoregressive.

(** ** Kronecker products of arrays *)

Module Kron.

Section Uniform.

Context {A B : Type}.

(** The [i]-th element of a concatenation of blocks of one length. *)
Lemma nth_flat_map_uniform (f : A -> list B) (m : nat) (d : B) (da : A) :
  forall (l : list A) (i : nat),
    (forall a, In a l -> length (f a) = m) ->
    (i < length l * m)%nat ->
    nth i (flat_map f l) d = nth (i mod m) (f (nth (i / m) l da)) d.
Proof.
  induction l as [|a l IH]; intros i Hlen Hi; simpl in Hi; [lia|].
  assert (Hm : (0 < m)%nat) by (destruct m; lia).
  simpl flat_map. destruct (Nat.lt_ge_cases i m) as [Hlt|Hge].
  - rewrite app_nth1 by (rewrite Hlen; [lia | now left]).
    now rewrite Nat.div_small, Nat.mod_small.
  - rewrite app_nth2 by (rewrite Hlen; [lia | now left]).
    rewrite (Hlen a (or_introl eq_refl)).
    rewrite IH; [| intros a' Ha'; apply Hlen; now right | lia].
    replace i with ((i - m) + 1 * m)%nat at 3 4 by lia.
    rewrite Nat.div_add, Nat.Div0.mod_add by lia.
    replace ((i - m) / m + 1)%nat with (S ((i - m) / m)) by lia.
    reflexivity.
Qed.

Lemma length_flat_map_uniform (f : A -> list B) (m : nat) (l : list A) :
  (forall a, In a l -> length (f a) = m) ->
  length (flat_map f l) = (length l * m)%nat.
Proof.
  induction l as [|a l IH]; intros H; simpl; [reflexivity|].
  rewrite length_app, (H a (or_introl eq_refl)), IH; [reflexivity|].
  intros a' Ha'. apply H. now right.
Qed.

End Uniform.

Section Entries.

Context {K : Type}.
Variable mul : K -> K -> K.
Variable d : K.

(** An [n]-by-[n] array. *)
Definition square (n : nat) (M : matrix K) : Prop :=
  length M = n /\ Forall (fun r => length r = n) M.

Definition krow (ra rb : list K) : list K :=
  flat_map (fun a => map (mul a) rb) ra.

Lemma length_krow (ra rb : list K) :
  length (krow ra rb) = (length ra * length rb)%nat.
Proof.
  unfold krow. apply length_flat_map_uniform.
  intros a _. apply length_map.
Qed.

Lemma nth_krow (ra rb : list K) (j : nat) :
  (j < length ra * length rb)%nat ->
  nth j (krow ra rb) d
  = mul (nth (j / length rb) ra d) (nth (j mod length rb) rb d).
Proof.
  intros Hj. unfold krow.
  rewrite (nth_flat_map_uniform _ (length rb) d d); trivial.
  - assert (Hb : (0 < length rb)%nat) by (destruct (length rb); lia).
    rewrite (nth_indep _ d (mul (nth (j / length rb) ra d) d)).
    + apply map_nth.
    + rewrite length_map. now apply Nat.mod_upper_bound, Nat.neq_0_lt_0.
  - intros a _. apply length_map.
Qed.

Lemma nth_row_kron (A B : matrix K) (i : nat) :
  (i < length A * length B)%nat ->
  nth i (kron mul A B) []
  = krow (nth (i / length B) A []) (nth (i mod length B) B []).
Proof.
  intros Hi. unfold kron. fold krow.
  change (fun ra => map (fun rb => flat_map (fun a => map (mul a) rb) ra) B)
    with (fun ra => map (krow ra) B).
  rewrite (nth_flat_map_uniform _ (length B) [] []); trivial.
  - assert (Hb : (0 < length B)%nat) by (destruct (length B); lia).
    rewrite (nth_indep _ [] (krow (nth (i / length B) A []) [])).
    + apply map_nth.
    + rewrite length_map. now apply Nat.mod_upper_bound, Nat.neq_0_lt_0.
  - intros a _. apply length_map.
Qed.

Lemma square_row (n : nat) (M : matrix K) (i : nat) :
  square n M -> (i < n)%nat -> length (nth i M []) = n.
Proof.
  intros [HM HF] Hi. rewrite Forall_forall in HF. apply HF.
  apply nth_In. lia.
Qed.

Lemma kron_square (a b : nat) (A B : matrix K) :
  square a A -> square b B -> square (a * b) (kron mul A B).
Proof.
  intros [HA FA] [HB FB]. split.
  - unfold kron. rewrite (length_flat_map_uniform _ b); [now rewrite HA|].
    intros ra _. now rewrite length_map.
  - unfold kron. apply Forall_flat_map_in. intros ra Hra.
    apply Forall_forall. intros r Hr. apply in_map_iff in Hr.
    destruct Hr as [rb [<- Hrb]].
    change (length (krow ra rb) = (a * b)%nat). rewrite length_krow.
    rewrite Forall_forall in FA, FB. now rewrite (FA ra Hra), (FB rb Hrb).
Qed.

(** The defining property of [np.kron]. *)
Lemma kron_entry (a b : nat) (A B : matrix K) (i j : nat) :
  square a A -> square b B -> (i < a * b)%nat -> (j < a * b)%nat ->
  entry d (kron mul A B) i j
  = mul (entry d A (i / b) (j / b)) (entry d B (i mod b) (j mod b)).
Proof.
  intros SA SB Hi Hj. unfold entry.
  assert (Hb : (0 < b)%nat) by (destruct b; lia).
  destruct SA as [HA FA]. destruct SB as [HB FB].
  rewrite nth_row_kron by (rewrite HA, HB; exact Hi).
  rewrite HB.
  assert (Hia : (i / b < a)%nat) by (apply Nat.Div0.div_lt_upper_bound; lia).
  assert (Hib : (i mod b < b)%nat) by (apply Nat.mod_upper_bound; lia).
  assert (La : length (nth (i / b) A []) = a)
    by (apply square_row; [split; assumption | exact Hia]).
  assert (Lb : length (nth (i mod b) B []) = b)
    by (apply square_row; [split; assumption | exact Hib]).
  rewrite nth_krow by (rewrite La, Lb; exact Hj).
  now rewrite Lb.
Qed.

End Entries.

End Kron.

(** ** Products of Pauli matrices *)

Module PauliProduct.

Import BeH2 Kron.
Open Scope nat_scope.

(** The binary digit of [i] that belongs to position [p] of [n]: the
    first position is the most significant. *)
Definition digit (n p i : nat) : nat := (i / 2 ^ (n - 1 - p)) mod 2.

Definition Cprod (l : list C) : C := fold_left Cmul l C1.
Definition Csum (l : list C) : C := fold_left Cadd l C0.

(** The entry [(i, j)] of the Kronecker product of the two-by-two
    arrays [ms], taken in order. *)
Definition kron_entries (ms : list (matrix C)) (i j : nat) : C :=
  Cprod (map (fun p => entry C0 (nth p ms [])
                         (digit (length ms) p i) (digit (length ms) p j))
             (seq 0 (length ms))).

Lemma Cmul_1_l (x : C) : Cmul C1 x = x.
Proof.
  destruct x as [a b]. unfold Cmul, C1, RtoC. simpl. f_equal; ring.
Qed.

Lemma digit_shift (n p i : nat) : digit (S n) (S p) i = digit n p i.
Proof. unfold digit. do 3 f_equal. lia. Qed.

Lemma fold_kron (ms : list (matrix C)) :
  forall (k : nat) (acc : matrix C),
    square (2 ^ k) acc -> Forall (square 2) ms ->
    square (2 ^ (k + length ms)) (fold_left (kron Cmul) ms acc)
    /\ forall i j, i < 2 ^ (k + length ms) -> j < 2 ^ (k + length ms) ->
         entry C0 (fold_left (kron Cmul) ms acc) i j
         = fold_left Cmul
             (map (fun p => entry C0 (nth p ms [])
                              (digit (length ms) p i) (digit (length ms) p j))
                  (seq 0 (length ms)))
             (entry C0 acc (i / 2 ^ length ms) (j / 2 ^ length ms)).
Proof.
  induction ms as [|m ms IH]; intros k acc Hacc Hms.
  - cbn [length fold_left seq map]. rewrite Nat.add_0_r, Nat.pow_0_r.
    split; [exact Hacc|].
    intros i j _ _. now rewrite !Nat.div_1_r.
  - inversion Hms as [|? ? Hm Hms']; subst.
    assert (Hk : square (2 ^ (S k)) (kron Cmul acc m)).
    { rewrite Nat.pow_succ_r', Nat.mul_comm. now apply kron_square. }
    destruct (IH (S k) (kron Cmul acc m) Hk Hms') as [IHs IHe].
    simpl length. replace (k + S (length ms)) with (S k + length ms) by lia.
    split; [exact IHs|].
    intros i j Hi Hj. simpl fold_left at 1. rewrite (IHe i j Hi Hj).
    assert (Hpow : forall x, x < 2 ^ (S k + length ms) ->
                             x / 2 ^ length ms < 2 ^ k * 2).
    { intros x Hx. apply Nat.Div0.div_lt_upper_bound.
      rewrite Nat.add_succ_l, Nat.pow_succ_r', Nat.pow_add_r in Hx. lia. }
    rewrite (kron_entry Cmul C0 (2 ^ k) 2) by auto.
    rewrite !Nat.Div0.div_div.
    change (seq 0 (S (length ms))) with (0 :: seq 1 (length ms)).
    rewrite <- seq_shift. cbn [map fold_left]. rewrite map_map. cbn [nth].
    replace (2 ^ length ms * 2) with (2 ^ S (length ms))
      by (rewrite Nat.pow_succ_r'; lia).
    f_equal.
    + apply map_ext. intros p. now rewrite !digit_shift.
    + unfold digit.
      now replace (S (length ms) - 1 - 0) with (length ms) by lia.
Qed.

(** [reduce(np.kron, ms)] on a non-empty list of two-by-two arrays. *)
Lemma reduce_kron (m : matrix C) (ms : list (matrix C)) :
  Forall (square 2) (m :: ms) ->
  exists M,
    reduce (kron Cmul) (m :: ms) = Ok M
    /\ square (2 ^ length (m :: ms)) M
    /\ forall i j, i < 2 ^ length (m :: ms) -> j < 2 ^ length (m :: ms) ->
         entry C0 M i j = kron_entries (m :: ms) i j.
Proof.
  intros H. inversion H as [|? ? Hm Hms]; subst.
  destruct (fold_kron ms 1 m Hm Hms) as [Hs He].
  exists (fold_left (kron Cmul) ms m). split; [reflexivity|].
  split; [exact Hs|].
  intros i j Hi Hj. simpl length in Hi, Hj.
  rewrite (He i j Hi Hj). unfold kron_entries, Cprod.
  simpl length.
  change (seq 0 (S (length ms))) with (0 :: seq 1 (length ms)).
  rewrite <- seq_shift. cbn [map fold_left]. rewrite map_map. cbn [nth].
  rewrite Cmul_1_l. f_equal.
  - apply map_ext. intros p. now rewrite !digit_shift.
  - unfold digit.
    replace (S (length ms) - 1 - 0) with (length ms) by lia.
    assert (Hd : forall x, x < 2 ^ S (length ms) -> x / 2 ^ length ms < 2).
    { intros x Hx. apply Nat.Div0.div_lt_upper_bound.
      rewrite Nat.pow_succ_r' in Hx. lia. }
    now rewrite !Nat.mod_small by auto.
Qed.

End PauliProduct.

(** ** [operatorfromstring] and [hamiltonian] *)

Module DenseHamiltonian.

Import BeH2 Kron PauliProduct.
Open Scope nat_scope.

(** The array chosen for one character: the identity for every
    character other than X, Y and Z. *)
Definition pauli_of_char (c : ascii) : matrix C :=
  if (c =? "X")%char then mX
  else if (c =? "Y")%char then mY
  else if (c =? "Z")%char then mZ
  else mI.

(** The entry [(i, j)] of the operator a Pauli string stands for. *)
Definition string_entry (s : string) (i j : nat) : C :=
  kron_entries (map pauli_of_char (chars s)) i j.

Lemma pauli_square (c : ascii) : square 2 (pauli_of_char c).
Proof.
  unfold pauli_of_char.
  destruct (c =? "X")%char; [|destruct (c =? "Y")%char;
                               [|destruct (c =? "Z")%char]];
    (split; [reflexivity | repeat constructor]).
Qed.

Lemma length_chars (s : string) : length (chars s) = String.length s.
Proof. unfold chars. induction s; simpl; congruence. Qed.

Lemma op_list_map (cs : list ascii) :
  for_each cs (fun c op_list =>
      if (c =? "X")%char then op_list ++ [mX]
      else if (c =? "Y")%char then op_list ++ [mY]
      else if (c =? "Z")%char then op_list ++ [mZ]
      else op_list ++ [mI]) []
  = map pauli_of_char cs.
Proof.
  rewrite (for_each_ext _ (fun c acc => acc ++ [pauli_of_char c])).
  - rewrite for_each_append. simpl. apply LatticeFacts.flat_map_singleton.
  - intros c acc. unfold pauli_of_char.
    destruct (c =? "X")%char; [reflexivity|].
    destruct (c =? "Y")%char; [reflexivity|].
    destruct (c =? "Z")%char; reflexivity.
Qed.

(** [operatorfromstring] on a string of [N >= 1] characters. *)
Lemma operatorfromstring_entries (s : string) :
  1 <= String.length s ->
  exists M,
    operatorfromstring s = Ok M
    /\ square (2 ^ String.length s) M
    /\ forall i j, i < 2 ^ String.length s -> j < 2 ^ String.length s ->
         entry C0 M i j = string_entry s i j.
Proof.
  intros Hs. unfold operatorfromstring, string_entry.
  rewrite op_list_map. rewrite <- length_chars in *.
  destruct (chars s) as [|c cs]; [simpl in Hs; lia|].
  rewrite <- (length_map pauli_of_char).
  simpl map. apply reduce_kron.
  constructor; [apply pauli_square|].
  apply Forall_forall. intros m Hm. apply in_map_iff in Hm.
  destruct Hm as [c' [<- _]]. apply pauli_square.
Qed.

Lemma mzeros_square (n : nat) : square n (mzeros n).
Proof.
  unfold mzeros. split; [apply repeat_length|].
  apply Forall_forall. intros r Hr. apply repeat_spec in Hr. subst.
  apply repeat_length.
Qed.

Lemma mzeros_entry (n i j : nat) : entry C0 (mzeros n) i j = C0.
Proof.
  unfold entry, mzeros.
  destruct (Nat.lt_ge_cases i n) as [Hi|Hi].
  - rewrite nth_repeat_lt by exact Hi. apply nth_repeat.
  - rewrite (nth_overflow (repeat (repeat C0 n) n));
      [now destruct j | rewrite repeat_length; exact Hi].
Qed.

Lemma mscale_square (n : nat) (c : C) (A : matrix C) :
  square n A -> square n (mscale Cmul c A).
Proof.
  intros [HA FA]. unfold mscale. split; [now rewrite length_map|].
  apply Forall_forall. intros r Hr. apply in_map_iff in Hr.
  destruct Hr as [r' [<- Hr']]. rewrite length_map.
  rewrite Forall_forall in FA. now apply FA.
Qed.

Lemma mscale_entry (n : nat) (c : C) (A : matrix C) (i j : nat) :
  square n A -> i < n -> j < n ->
  entry C0 (mscale Cmul c A) i j = Cmul c (entry C0 A i j).
Proof.
  intros SA Hi Hj. unfold entry, mscale.
  rewrite (nth_indep _ [] (map (Cmul c) [])) by (rewrite length_map; destruct SA; lia).
  rewrite (map_nth (map (Cmul c))).
  rewrite (nth_indep _ C0 (Cmul c C0))
    by (rewrite length_map, (square_row n A i SA Hi); exact Hj).
  apply map_nth.
Qed.

(** [A += B] on two [n]-by-[n] arrays. *)
Lemma madd_square (n : nat) (A B : matrix C) :
  square n A -> square n B ->
  exists M,
    madd A B = Ok M /\ square n M
    /\ forall i j, i < n -> j < n ->
         entry C0 M i j = Cadd (entry C0 A i j) (entry C0 B i j).
Proof.
  intros SA SB.
  set (rowsum := fun p : list C * list C =>
                   map (fun q => Cadd (fst q) (snd q)) (combine (fst p) (snd p))).
  exists (map rowsum (combine A B)).
  assert (Hrows : forall p, In p (combine A B) ->
                    length (fst p) = n /\ length (snd p) = n).
  { intros [ra rb] Hp. destruct SA as [_ FA]. destruct SB as [_ FB].
    rewrite Forall_forall in FA, FB. split.
    - apply FA. eapply in_combine_l. exact Hp.
    - apply FB. eapply in_combine_r. exact Hp. }
  assert (Hlen : length (combine A B) = n).
  { rewrite length_combine. destruct SA as [-> _]. destruct SB as [-> _].
    apply Nat.min_id. }
  split; [|split].
  - unfold madd, zip_with_r.
    rewrite zip_with_ok by (destruct SA as [-> _]; destruct SB as [-> _]; reflexivity).
    simpl bind. apply mapM_id_map. intros p Hp.
    destruct (Hrows p Hp) as [Ha Hb].
    now rewrite zip_with_ok by congruence.
  - split; [now rewrite length_map|].
    apply Forall_forall. intros r Hr. apply in_map_iff in Hr.
    destruct Hr as [p [<- Hp]]. destruct (Hrows p Hp) as [Ha Hb].
    unfold rowsum. rewrite length_map, length_combine, Ha, Hb.
    apply Nat.min_id.
  - intros i j Hi Hj. unfold entry.
    rewrite (nth_indep _ [] (rowsum ([], []))) by (rewrite length_map; lia).
    rewrite (map_nth rowsum), combine_nth
      by (destruct SA as [-> _]; destruct SB as [-> _]; reflexivity).
    unfold rowsum. cbn [fst snd].
    assert (La := square_row n A i SA Hi). assert (Lb := square_row n B i SB Hi).
    rewrite (nth_indep _ C0 ((fun q : C * C => Cadd (fst q) (snd q)) (C0, C0)))
      by (rewrite length_map, length_combine, La, Lb, Nat.min_id; exact Hj).
    rewrite (map_nth (fun q : C * C => Cadd (fst q) (snd q))).
    rewrite combine_nth by congruence. reflexivity.
Qed.

Lemma combine_append {A B : Type} (l1 l2 : list A) (l1' l2' : list B) :
  length l1 = length l1' ->
  combine (l1 ++ l2) (l1' ++ l2') = combine l1 l1' ++ combine l2 l2'.
Proof.
  revert l1'. induction l1 as [|a l1 IH]; intros [|b l1'] H; simpl in *;
    try discriminate; [reflexivity|].
  f_equal. apply IH. congruence.
Qed.

Lemma enumerate_snoc {A : Type} (l : list A) (x : A) :
  enumerate (l ++ [x]) = enumerate l ++ [(length l, x)].
Proof.
  unfold enumerate. rewrite length_app, seq_app. simpl.
  rewrite combine_append by (now rewrite length_seq). reflexivity.
Qed.

(** A map over [enumerate(l)] is a map over the indices of [l]. *)
Lemma map_enumerate {A B : Type} (G : nat -> A -> B) (d : A) (l : list A) :
  map (fun ip => G (fst ip) (snd ip)) (enumerate l)
  = map (fun k => G k (nth k l d)) (seq 0 (length l)).
Proof.
  induction l as [|x l IH] using rev_ind; [reflexivity|].
  rewrite enumerate_snoc, length_app, seq_app, !map_app, IH. simpl.
  rewrite nth_middle. f_equal.
  apply map_ext_in. intros k Hk. apply in_seq in Hk.
  now rewrite app_nth1 by lia.
Qed.

Lemma in_enumerate {A : Type} (l : list A) (ip : nat * A) :
  In ip (enumerate l) -> fst ip < length l /\ In (snd ip) l.
Proof.
  destruct ip as [i p]. intros H. split.
  - apply in_combine_l in H. apply in_seq in H. simpl. lia.
  - apply in_combine_r in H. exact H.
Qed.

(** The loop of [hamiltonian]. *)
Lemma hamiltonian_loop (N : nat) (interactions : list C) :
  1 <= N ->
  forall (ips : list (nat * string)) (H0 : matrix C),
    square (2 ^ N) H0 ->
    Forall (fun ip => String.length (snd ip) = N
                      /\ fst ip < length interactions) ips ->
    exists H,
      for_each_r ips (fun '(i, pauli) hamiltonian =>
        bind (getitem interactions i) (fun c =>
        bind (operatorfromstring pauli) (fun op =>
        madd hamiltonian (mscale Cmul c op)))) H0 = Ok H
      /\ square (2 ^ N) H
      /\ forall i j, i < 2 ^ N -> j < 2 ^ N ->
           entry C0 H i j
           = fold_left Cadd
               (map (fun ip => Cmul (nth (fst ip) interactions C0)
                                    (string_entry (snd ip) i j)) ips)
               (entry C0 H0 i j).
Proof.
  intros HN. induction ips as [|[k p] ips IH]; intros H0 S0 Hips.
  - exists H0. simpl. auto.
  - inversion Hips as [|? ? Hhead Hips']; subst.
    destruct Hhead as [Hp Hk]. simpl in Hp, Hk.
    destruct (operatorfromstring_entries p) as (M & EM & SM & HM); [lia|].
    rewrite Hp in SM, HM.
    destruct (madd_square (2 ^ String.length p) H0
                (mscale Cmul (nth k interactions C0) M))
      as (H1 & E1 & S1 & He1);
      [now rewrite Hp | rewrite Hp; now apply mscale_square |].
    rewrite Hp in S1, He1.
    destruct (IH H1 S1 Hips') as (H & EH & SH & HeH).
    exists H. split; [|split; [exact SH|]].
    + simpl. rewrite (getitem_ok interactions k C0 Hk). simpl.
      rewrite EM. simpl. rewrite E1. simpl. exact EH.
    + intros i j Hi Hj. rewrite (HeH i j Hi Hj). simpl. f_equal.
      rewrite (He1 i j Hi Hj), (mscale_entry (2 ^ String.length p)) by
        (rewrite ?Hp; auto).
      now rewrite (HM i j Hi Hj).
Qed.

(** C4, for strings of at least one character.  For a non-empty list
    of strings of one length [N >= 1] and as many coefficients,
    [hamiltonian] returns the [2^N]-by-[2^N] array whose entry [(i, j)]
    is the sum over [k] of [interactions[k]] times the entry of the
    Kronecker product, over the [N] positions in order, of the arrays
    chosen for the characters of [pauli_list[k]]: the Pauli matrix for
    X, Y, Z and the identity for any other character. *)
Theorem hamiltonian_is_sum_of_pauli_products
    (N : nat) (pauli_list : list string) (interactions : list C) :
  pauli_list <> [] ->
  1 <= N ->
  Forall (fun s => String.length s = N) pauli_list ->
  length interactions = length pauli_list ->
  exists H,
    hamiltonian pauli_list interactions = Ok H
    /\ square (2 ^ N) H
    /\ forall i j, i < 2 ^ N -> j < 2 ^ N ->
         entry C0 H i j
         = Csum (map (fun k => Cmul (nth k interactions C0)
                                 (string_entry (nth k pauli_list EmptyString) i j))
                     (seq 0 (length pauli_list))).
Proof.
  intros Hne HN Hlen Hint. unfold hamiltonian.
  destruct pauli_list as [|first rest]; [contradiction|].
  cbn [getitem nth_error bind].
  assert (HfN : String.length first = N).
  { rewrite Forall_forall in Hlen. apply Hlen. now left. }
  rewrite HfN.
  destruct (hamiltonian_loop N interactions HN (enumerate (first :: rest))
              (mzeros (2 ^ N)) (mzeros_square _)) as (H & EH & SH & HeH).
  { apply Forall_forall. intros ip Hip. apply in_enumerate in Hip.
    destruct Hip as [Hi Hp]. rewrite Forall_forall in Hlen.
    split; [now apply Hlen | now rewrite Hint]. }
  exists H. split; [exact EH | split; [exact SH|]].
  intros i j Hi Hj. rewrite (HeH i j Hi Hj), mzeros_entry.
  unfold Csum. f_equal.
  apply (map_enumerate (fun k p => Cmul (nth k interactions C0) (string_entry p i j))).
Qed.

(** Three two-qubit strings. *)
Lemma hamiltonian_is_sum_of_pauli_products_example :
  exists H,
    hamiltonian ["ZI"; "XX"; "IQ"]%string [C1; Ci; (2, 0)%R] = Ok H
    /\ square (2 ^ 2) H
    /\ forall i j, i < 2 ^ 2 -> j < 2 ^ 2 ->
         entry C0 H i j
         = Csum (map (fun k => Cmul (nth k [C1; Ci; (2, 0)%R] C0)
                    (string_entry (nth k ["ZI"; "XX"; "IQ"]%string EmptyString) i j))
                     (seq 0 (length ["ZI"; "XX"; "IQ"]%string))).
Proof.
  apply (hamiltonian_is_sum_of_pauli_products 2
           ["ZI"; "XX"; "IQ"]%string [C1; Ci; (2, 0)%R]).
  - discriminate.
  - lia.
  - repeat constructor.
  - reflexivity.
Defined.

(** The claim fails on the empty Pauli string ([N = 0]): the list of
    arrays is empty and [reduce] has nothing to return. *)
Lemma hamiltonian_empty_string_raises :
  hamiltonian [EmptyString] [C1] = Raise TypeError.
Proof. reflexivity. Qed.

End DenseHamiltonian.

(** ** [OperatorFromString] and [BuildHamiltonian] *)

Module SparseHamiltonian.

Import NetKet BeH2 Kron PauliProduct DenseHamiltonian.
Open Scope nat_scope.

(** One of the letters X, Y, Z. *)
Definition is_pauli (c : ascii) : bool :=
  ((c =? "X") || (c =? "Y") || (c =? "Z"))%char.

Definition is_I (c : ascii) : bool := (c =? "I")%char.

(** A Pauli string: every character is one of I, X, Y, Z. *)
Definition pauli_string (s : string) : Prop :=
  Forall (fun c => is_I c = true \/ is_pauli c = true) (chars s).

(** A string consisting entirely of I. *)
Definition all_I (s : string) : bool := forallb is_I (chars s).

(** A string containing at least one of X, Y, Z. *)
Definition has_pauli (s : string) : bool := existsb is_pauli (chars s).

(** The positions that do not hold I, with their characters. *)
Definition non_identity (s : string) : list (nat * ascii) :=
  filter (fun kc => negb (is_I (snd kc))) (enumerate (chars s)).

Definition non_identity_sites (s : string) : list Z :=
  map (fun kc => Z.of_nat (fst kc)) (non_identity s).

Definition non_identity_ops (s : string) : list (matrix C) :=
  map (fun kc => pauli_of_char (snd kc)) (non_identity s).

Lemma is_pauli_not_I (c : ascii) : is_pauli c = true -> is_I c = false.
Proof.
  unfold is_pauli, is_I. intros H.
  destruct (Ascii.eqb_spec c "I"); [subst; discriminate H | reflexivity].
Qed.

Lemma all_I_has_pauli (s : string) :
  pauli_string s -> all_I s = negb (has_pauli s).
Proof.
  unfold pauli_string, all_I, has_pauli.
  induction (chars s) as [|c cs IH]; intros H; [reflexivity|].
  inversion H as [|? ? Hc Hcs]; subst. simpl. rewrite (IH Hcs).
  destruct Hc as [Hc|Hc].
  - rewrite Hc. unfold is_I in Hc. apply Ascii.eqb_eq in Hc. now subst.
  - now rewrite Hc, (is_pauli_not_I c Hc).
Qed.

(** The loop of [OperatorFromString]. *)
Lemma OperatorFromString_loop (kcs : list (nat * ascii)) :
  forall (OpList : list (matrix C)) (Sites : list Z),
    for_each kcs (fun '(k, c) '(OpList, Sites) =>
      if (c =? "X")%char then (OpList ++ [mX], Sites ++ [Z.of_nat k])
      else if (c =? "Y")%char then (OpList ++ [mY], Sites ++ [Z.of_nat k])
      else if (c =? "Z")%char then (OpList ++ [mZ], Sites ++ [Z.of_nat k])
      else (OpList, Sites)) (OpList, Sites)
    = (OpList ++ map (fun kc => pauli_of_char (snd kc))
                     (filter (fun kc => is_pauli (snd kc)) kcs),
       Sites ++ map (fun kc => Z.of_nat (fst kc))
                    (filter (fun kc => is_pauli (snd kc)) kcs)).
Proof.
  unfold for_each.
  induction kcs as [|[k c] kcs IH]; intros OpList Sites; simpl.
  - now rewrite !app_nil_r.
  - unfold is_pauli, pauli_of_char. cbn [filter map fst snd].
    destruct (c =? "X")%char eqn:EX;
      [|destruct (c =? "Y")%char eqn:EY; [|destruct (c =? "Z")%char eqn:EZ]];
      cbn [orb map filter fst snd]; rewrite ?EX, ?EY, ?EZ;
      rewrite IH, <- ?app_assoc; reflexivity.
Qed.

Lemma filter_pauli_non_identity (s : string) :
  pauli_string s ->
  filter (fun kc => is_pauli (snd kc)) (enumerate (chars s)) = non_identity s.
Proof.
  intros Hs. unfold non_identity. apply filter_ext_in. intros [k c] Hkc.
  apply in_enumerate in Hkc. destruct Hkc as [_ Hc]. simpl in *.
  unfold pauli_string in Hs. rewrite Forall_forall in Hs.
  destruct (Hs c Hc) as [H|H].
  - rewrite H. unfold is_I in H. apply Ascii.eqb_eq in H. now subst.
  - now rewrite H, (is_pauli_not_I c H).
Qed.

Lemma non_identity_nonempty (s : string) :
  pauli_string s -> has_pauli s = true -> non_identity s <> [].
Proof.
  intros Hs Hp. rewrite <- (filter_pauli_non_identity s Hs).
  unfold has_pauli in Hp. apply existsb_exists in Hp.
  destruct Hp as [c [Hc Hpc]].
  destruct (In_nth _ _ "I"%char Hc) as [k [Hk Hnth]].
  intros E.
  assert (Hin : In (k, c) (filter (fun kc => is_pauli (snd kc))
                                  (enumerate (chars s)))).
  { apply filter_In. split; [|exact Hpc].
    unfold enumerate. rewrite <- Hnth.
    replace k with (nth k (seq 0 (length (chars s))) 0) at 1
      by (rewrite seq_nth; lia).
    rewrite <- combine_nth by (now rewrite length_seq).
    apply nth_In. rewrite length_combine, length_seq. lia. }
  rewrite E in Hin. contradiction.
Qed.

(** [OperatorFromString] on a Pauli string that contains one of X, Y,
    Z: the sites are the positions that do not hold I, and the array is
    the Kronecker product of the Pauli matrices found there. *)
Lemma OperatorFromString_ok (s : string) :
  pauli_string s -> has_pauli s = true ->
  exists M,
    OperatorFromString s = Ok (non_identity_sites s, M)
    /\ non_identity_sites s <> []
    /\ square (2 ^ length (non_identity_sites s)) M
    /\ forall i j, i < 2 ^ length (non_identity_sites s) ->
                   j < 2 ^ length (non_identity_sites s) ->
         entry C0 M i j = kron_entries (non_identity_ops s) i j.
Proof.
  intros Hs Hp. unfold OperatorFromString.
  rewrite OperatorFromString_loop. simpl app.
  rewrite (filter_pauli_non_identity s Hs).
  fold (non_identity_ops s). fold (non_identity_sites s).
  pose proof (non_identity_nonempty s Hs Hp) as Hne.
  assert (Hlen : length (non_identity_sites s) = length (non_identity_ops s)).
  { unfold non_identity_sites, non_identity_ops. now rewrite !length_map. }
  assert (Hsq : Forall (square 2) (non_identity_ops s)).
  { apply Forall_forall. intros m Hm. apply in_map_iff in Hm.
    destruct Hm as [kc [<- _]]. apply pauli_square. }
  rewrite Hlen.
  destruct (non_identity_ops s) as [|m ms] eqn:Eops.
  { unfold non_identity_ops in Eops. apply map_eq_nil in Eops. contradiction. }
  destruct (reduce_kron m ms Hsq) as (M & EM & SM & HM).
  exists M. rewrite EM. simpl bind. split; [reflexivity|].
  split; [|split; assumption].
  unfold non_identity_sites. intros E. apply map_eq_nil in E. contradiction.
Qed.

(** The loop that sets [flag] finds whether all of the string is I. *)
Lemma find_flag_all_I (cs : list ascii) :
  forall pre : list ascii,
    find_flag (pre ++ cs) (seq (length pre) (length cs))
    = Ok (if forallb is_I cs then 0%Z else 1%Z).
Proof.
  induction cs as [|c cs IH]; intros pre; [reflexivity|].
  simpl. unfold getitem. rewrite nth_error_app2, Nat.sub_diag by lia. simpl.
  fold (is_I c). destruct (is_I c); simpl; [|reflexivity].
  specialize (IH (pre ++ [c])). rewrite <- app_assoc, length_app in IH.
  simpl in IH. now rewrite Nat.add_1_r in IH.
Qed.

Lemma find_flag_string (N : nat) (p : string) :
  String.length p = N ->
  find_flag (chars p) (seq 0 N) = Ok (if all_I p then 0%Z else 1%Z).
Proof.
  intros <-. rewrite <- length_chars. apply (find_flag_all_I (chars p) []).
Qed.

(** One turn of the loop of [BuildHamiltonian], on the string and the
    coefficient of that turn. *)
Definition turn (N : nat) (acc : list string * result (LocalOperator C))
  (pc : string * C) : list string * result (LocalOperator C) :=
  let '(calls, r) := acc in
  let '(p, c) := pc in
  match r with
  | Raise e => (calls, Raise e)
  | Ok hamiltonian =>
      match find_flag (chars p) (seq 0 N) with
      | Raise e => (calls, Raise e)
      | Ok flag =>
          if (flag =? 0)%Z
          then (calls, Ok (Add hamiltonian (Const (RtoC (Cre c)))))
          else (calls ++ [p],
                bind (OperatorFromString p) (fun '(sites, operator) =>
                Ok (Add hamiltonian (Local (mscale Cmul c operator) sites))))
      end
  end.

Lemma BuildHamiltonian_turns (N : nat) (post_p : list string) :
  forall (post_i : list C) (pre_p : list string) (pre_i : list C)
         (acc : list string * result (LocalOperator C)),
    length pre_p = length pre_i -> length post_p = length post_i ->
    fold_left (BuildHamiltonian_body N (pre_p ++ post_p) (pre_i ++ post_i))
              (seq (length pre_p) (length post_p)) acc
    = fold_left (turn N) (combine post_p post_i) acc.
Proof.
  induction post_p as [|p post_p IH]; intros [|c post_i] pre_p pre_i acc Hpre Hpost;
    simpl in Hpost; try discriminate; [reflexivity|].
  cbn [length seq fold_left combine].
  specialize (IH post_i (pre_p ++ [p]) (pre_i ++ [c])).
  rewrite <- !app_assoc, !length_app in IH. simpl in IH.
  rewrite Nat.add_1_r in IH. rewrite <- IH by (simpl; lia).
  f_equal. destruct acc as [calls [H|e]]; [|reflexivity].
  unfold turn, BuildHamiltonian_body, getitem.
  rewrite nth_error_app2, Nat.sub_diag by lia.
  rewrite Hpre, nth_error_app2, Nat.sub_diag by lia. simpl.
  destruct (find_flag (chars p) (seq 0 N)) as [flag|e]; [|reflexivity].
  destruct (flag =? 0)%Z; [reflexivity|].
  destruct (OperatorFromString p) as [[sites operator]|e]; reflexivity.
Qed.

(** The term a turn adds for the string [p] with coefficient [c]. *)
Definition term_of (pc : string * C) : LocalOperator C :=
  if all_I (fst pc) then Const (RtoC (Cre (snd pc)))
  else match OperatorFromString (fst pc) with
       | Ok (sites, operator) => Local (mscale Cmul (snd pc) operator) sites
       | Raise _ => Const C0
       end.

Lemma turns_run (N : nat) (pcs : list (string * C)) :
  Forall (fun pc => String.length (fst pc) = N /\ pauli_string (fst pc)) pcs ->
  forall (calls : list string) (H : LocalOperator C),
    fold_left (turn N) pcs (calls, Ok H)
    = (calls ++ filter has_pauli (map fst pcs),
       Ok (fold_left Add (map term_of pcs) H)).
Proof.
  induction pcs as [|[p c] pcs IH]; intros Hpcs calls H.
  - simpl. now rewrite app_nil_r.
  - inversion Hpcs as [|? ? Hhead Htail]; subst.
    destruct Hhead as [Hlen Hp]. simpl in Hlen, Hp.
    cbn [fold_left map fst filter]. unfold turn at 2.
    rewrite (find_flag_string N p Hlen).
    unfold term_of at 2. cbn [fst snd].
    rewrite (all_I_has_pauli p Hp).
    destruct (has_pauli p) eqn:Ehp; cbn [negb Z.eqb].
    + destruct (OperatorFromString_ok p Hp Ehp) as (M & EM & _).
      rewrite EM. cbn [bind]. rewrite (IH Htail).
      now rewrite <- app_assoc.
    + now rewrite (IH Htail).
Qed.

(** [BuildHamiltonian] on Pauli strings of length [N]. *)
Lemma BuildHamiltonian_run (N : nat) (pauli : list string) (interactions : list C) :
  Forall (fun p => String.length p = N /\ pauli_string p) pauli ->
  length interactions = length pauli ->
  BuildHamiltonian N pauli interactions
  = (filter has_pauli pauli,
     Ok (fold_left Add (map term_of (combine pauli interactions)) (Const C0))).
Proof.
  intros Hp Hlen. unfold BuildHamiltonian.
  rewrite (BuildHamiltonian_turns N pauli interactions [] [] _ eq_refl)
    by (symmetry; exact Hlen).
  rewrite turns_run.
  - simpl. now rewrite fst_combine.
  - apply Forall_forall. intros [p c] Hpc. simpl.
    rewrite Forall_forall in Hp. apply Hp. eapply in_combine_l. exact Hpc.
Qed.

(** The term of the sum that belongs to the string [p] with the
    coefficient [c]: a constant, the real part of [c], when all of [p]
    is I; otherwise [c] times the Kronecker product of the Pauli
    matrices at the positions that do not hold I, acting on those
    sites. *)
Definition is_term (p : string) (c : C) (t : LocalOperator C) : Prop :=
  (all_I p = true /\ t = Const (RtoC (Cre c)))
  \/ (has_pauli p = true
      /\ exists T,
           t = Local T (non_identity_sites p)
           /\ square (2 ^ length (non_identity_sites p)) T
           /\ forall i j, i < 2 ^ length (non_identity_sites p) ->
                          j < 2 ^ length (non_identity_sites p) ->
                entry C0 T i j = Cmul c (kron_entries (non_identity_ops p) i j)).

Lemma term_of_is_term (p : string) (c : C) :
  pauli_string p -> is_term p c (term_of (p, c)).
Proof.
  intros Hp. unfold term_of, is_term. cbn [fst snd].
  rewrite (all_I_has_pauli p Hp).
  destruct (has_pauli p) eqn:Ehp; cbn [negb]; [right | left; auto].
  split; [reflexivity|].
  destruct (OperatorFromString_ok p Hp Ehp) as (M & EM & _ & SM & HM).
  rewrite EM. exists (mscale Cmul c M).
  split; [reflexivity|]. split; [now apply mscale_square|].
  intros i j Hi Hj.
  rewrite (mscale_entry _ c M i j SM Hi Hj). now rewrite HM.
Qed.

Lemma Forall2_map_in {A B : Type} (T : A -> B -> Prop) (f : A -> B) (l : list A) :
  (forall x, In x l -> T x (f x)) -> Forall2 T l (map f l).
Proof.
  induction l as [|x l IH]; intros H; simpl; constructor.
  - apply H. now left.
  - apply IH. intros y Hy. apply H. now right.
Qed.

(** C3. On a list of [N]-character Pauli strings with as many
    coefficients, [BuildHamiltonian] returns the sum, in order, of one
    term per string: for a string consisting entirely of I the constant
    equal to the real part of its coefficient, and for a string with at
    least one of X, Y, Z the coefficient times the Kronecker product of
    the Pauli matrices at the positions that do not hold I, acting on
    exactly those sites. *)
Theorem BuildHamiltonian_is_sum_of_terms
    (N : nat) (pauli : list string) (interactions : list C) :
  Forall (fun p => String.length p = N /\ pauli_string p) pauli ->
  length interactions = length pauli ->
  exists ts,
    snd (BuildHamiltonian N pauli interactions)
    = Ok (fold_left Add ts (Const C0))
    /\ Forall2 (fun pc t => is_term (fst pc) (snd pc) t)
               (combine pauli interactions) ts.
Proof.
  intros Hp Hlen. exists (map term_of (combine pauli interactions)).
  rewrite (BuildHamiltonian_run N pauli interactions Hp Hlen).
  split; [reflexivity|].
  apply Forall2_map_in. intros [p c] Hpc. cbn [fst snd].
  apply term_of_is_term. rewrite Forall_forall in Hp.
  apply Hp. eapply in_combine_l. exact Hpc.
Qed.

Ltac pauli_strings :=
  repeat first [ apply Forall_nil | apply Forall_cons | split
               | reflexivity | left; reflexivity | right; reflexivity ].

(** Three strings of two characters. *)
Lemma BuildHamiltonian_is_sum_of_terms_example :
  exists ts,
    snd (BuildHamiltonian 2 ["II"; "XZ"; "IY"]%string [(1, 2)%R; C1; Ci])
    = Ok (fold_left Add ts (Const C0))
    /\ Forall2 (fun pc t => is_term (fst pc) (snd pc) t)
               (combine ["II"; "XZ"; "IY"]%string [(1, 2)%R; C1; Ci]) ts.
Proof.
  apply (BuildHamiltonian_is_sum_of_terms 2
           ["II"; "XZ"; "IY"]%string [(1, 2)%R; C1; Ci]).
  - unfold pauli_string. pauli_strings.
  - reflexivity.
Defined.

(** A flag other than 0 comes from a character that is not I. *)
Lemma find_flag_nonzero (cs : list ascii) (js : list nat) (flag : Z) :
  find_flag cs js = Ok flag -> flag <> 0%Z ->
  exists c, In c cs /\ is_I c = false.
Proof.
  induction js as [|j js IH]; simpl; intros H Hflag.
  - inversion H. congruence.
  - unfold getitem in H. destruct (nth_error cs j) as [c|] eqn:Ec;
      [|discriminate H]. simpl in H. fold (is_I c) in H.
    destruct (is_I c) eqn:EI; simpl in H.
    + now apply IH.
    + exists c. split; [eapply nth_error_In; exact Ec | exact EI].
Qed.

(** What holds of a string [OperatorFromString] is called on. *)
Definition good_call (s : string) : Prop :=
  has_pauli s = true
  /\ exists M,
       OperatorFromString s = Ok (non_identity_sites s, M)
       /\ non_identity_sites s <> []
       /\ square (2 ^ length (non_identity_sites s)) M.

Lemma body_calls (N : nat) (pauli : list string) (interactions : list C)
      (st : list string * result (LocalOperator C)) (h : nat) :
  Forall pauli_string pauli ->
  Forall good_call (fst st) ->
  Forall good_call (fst (BuildHamiltonian_body N pauli interactions st h)).
Proof.
  intros Hp Hst. destruct st as [calls [H|e]]; [|exact Hst].
  unfold BuildHamiltonian_body.
  destruct (getitem pauli h) as [p|e] eqn:Eg; [|exact Hst].
  cbn [bind].
  destruct (find_flag (chars p) (seq 0 N)) as [flag|e] eqn:Ef; [|exact Hst].
  destruct (Z.eqb_spec flag 0) as [|Hflag]; [exact Hst|].
  cbn [fst] in *. apply Forall_app. split; [exact Hst|].
  constructor; [|constructor].
  assert (Hps : pauli_string p).
  { rewrite Forall_forall in Hp. apply Hp. unfold getitem in Eg.
    destruct (nth_error pauli h) eqn:En; [|discriminate Eg].
    inversion Eg; subst. eapply nth_error_In. exact En. }
  assert (Hhp : has_pauli p = true).
  { destruct (find_flag_nonzero _ _ _ Ef Hflag) as [c [Hc HI]].
    unfold has_pauli. apply existsb_exists. exists c. split; [exact Hc|].
    unfold pauli_string in Hps. rewrite Forall_forall in Hps.
    destruct (Hps c Hc) as [HI'|Hpc]; [congruence | exact Hpc]. }
  split; [exact Hhp|].
  destruct (OperatorFromString_ok p Hps Hhp) as (M & EM & Hne & SM & _).
  exists M. auto.
Qed.

(** C10, for strings made of the characters I, X, Y and Z.  Every
    string [BuildHamiltonian] passes to
    [OperatorFromString] contains at least one of X, Y, Z; on such a
    string the list of arrays is not empty, and [OperatorFromString]
    returns, without raising, the positions that do not hold I and an
    array with [2^|Sites|] rows and columns.  When moreover the strings
    have [N] characters and there are as many coefficients, the strings
    passed are exactly those with one of X, Y, Z, and
    [BuildHamiltonian] returns an operator. *)
Theorem OperatorFromString_called_on_pauli_terms
    (N : nat) (pauli : list string) (interactions : list C) :
  Forall pauli_string pauli ->
  Forall good_call (fst (BuildHamiltonian N pauli interactions))
  /\ (Forall (fun p => String.length p = N) pauli ->
      length interactions = length pauli ->
      fst (BuildHamiltonian N pauli interactions) = filter has_pauli pauli
      /\ exists H, snd (BuildHamiltonian N pauli interactions) = Ok H).
Proof.
  intros Hp. split.
  - unfold BuildHamiltonian.
    assert (G : forall hs st, Forall good_call (fst st) ->
      Forall good_call
        (fst (fold_left (BuildHamiltonian_body N pauli interactions) hs st))).
    { induction hs as [|h hs IH]; intros st Hst; [exact Hst|].
      simpl. apply IH. now apply body_calls. }
    apply G. constructor.
  - intros HN Hlen.
    rewrite (BuildHamiltonian_run N pauli interactions); trivial.
    + split; [reflexivity|]. eexists. reflexivity.
    + rewrite Forall_forall in *. intros p Hin. auto.
Qed.

(** Four strings of three characters. *)
Lemma OperatorFromString_called_on_pauli_terms_example :
  Forall good_call
    (fst (BuildHamiltonian 3 ["III"; "XIZ"; "IYI"; "III"]%string [C1; C1; Ci; C0]))
  /\ (Forall (fun p => String.length p = 3) ["III"; "XIZ"; "IYI"; "III"]%string ->
      length [C1; C1; Ci; C0] = length ["III"; "XIZ"; "IYI"; "III"]%string ->
      fst (BuildHamiltonian 3 ["III"; "XIZ"; "IYI"; "III"]%string [C1; C1; Ci; C0])
      = filter has_pauli ["III"; "XIZ"; "IYI"; "III"]%string
      /\ exists H,
           snd (BuildHamiltonian 3 ["III"; "XIZ"; "IYI"; "III"]%string
                  [C1; C1; Ci; C0]) = Ok H).
Proof.
  apply (OperatorFromString_called_on_pauli_terms 3
           ["III"; "XIZ"; "IYI"; "III"]%string [C1; C1; Ci; C0]).
  unfold pauli_string. pauli_strings.
Defined.

(** A string with another character.  The flag is set by every
    character that is not I, and [OperatorFromString] keeps only X, Y
    and Z: the string QI, which has none of X, Y, Z, is passed to
    [OperatorFromString], whose list of arrays is then empty, and
    [reduce] raises. *)
Lemma BuildHamiltonian_passes_other_characters :
  has_pauli "QI" = false
  /\ OperatorFromString "QI" = Raise TypeError
  /\ BuildHamiltonian 2 ["QI"%string] [RtoC 5]
     = (["QI"%string], Raise TypeError).
Proof. repeat split. Qed.

End SparseHamiltonian.

(** ** Hermitian arrays and eigenvectors *)

Module GroundState.

Import BeH2 Kron PauliProduct.
Open Scope R_scope.

Definition Cconj (a : C) : C := (fst a, - snd a).

(** An [n]-by-[n] Hermitian array. *)
Definition hermitian (n : nat) (H : matrix C) : Prop :=
  square n H
  /\ forall i j, (i < n)%nat -> (j < n)%nat ->
       entry C0 H i j = Cconj (entry C0 H j i).

(** The product of an array with a vector. *)
Definition mat_vec (H : matrix C) (v : list C) : list C :=
  map (fun row => Csum (map (fun p => Cmul (fst p) (snd p)) (combine row v))) H.

(** [v] is an eigenvector of [H] for the eigenvalue [lam]. *)
Definition eigenpair (n : nat) (H : matrix C) (lam : R) (v : list C) : Prop :=
  length v = n /\ v <> repeat C0 n
  /\ mat_vec H v = map (Cmul (RtoC lam)) v.

(** A vector of norm one. *)
Definition unit_vector (v : list C) : Prop :=
  Rsum (map (fun z => fst z * fst z + snd z * snd z) v) = 1.

(** The column [k] of an array. *)
Definition column (k : nat) (V : matrix C) : list C :=
  map (fun row => nth k row C0) V.

(** [np.vdot(u, v)]: the first vector is conjugated. *)
Definition inner (u v : list C) : C :=
  Csum (map (fun p => Cmul (Cconj (fst p)) (snd p)) (combine u v)).

(** 1 on the diagonal and 0 elsewhere. *)
Definition delta (i j : nat) : C := if (i =? j)%nat then C1 else C0.

(** What [w, v = np.linalg.eigh(H)] returns for a Hermitian [H], in
    exact arithmetic: [w] is in ascending order, the column [v[:, k]]
    satisfies the eigenvalue equation for [w[k]], and [v] is unitary
    (its columns are orthonormal, and so are its rows).  That [w]
    holds every eigenvalue of [H] is not assumed. *)
Definition eigh_returns (n : nat) (H : matrix C) (w : list R) (V : matrix C) : Prop :=
  length w = n /\ square n V
  /\ (forall a b, (a <= b)%nat -> (b < n)%nat -> nth a w 0 <= nth b w 0)
  /\ (forall k, (k < n)%nat ->
        mat_vec H (column k V) = map (Cmul (RtoC (nth k w 0))) (column k V))
  /\ (forall j k, (j < n)%nat -> (k < n)%nat ->
        inner (column j V) (column k V) = delta j k)
  /\ (forall i j, (i < n)%nat -> (j < n)%nat ->
        inner (nth i V []) (nth j V []) = delta i j).

End GroundState.

(** ** The order of strings and the stable sort *)

Module StringOrder.

Lemma ascii_compare_lt_trans (a b c : ascii) :
  Ascii.compare a b = Lt -> Ascii.compare b c = Lt -> Ascii.compare a c = Lt.
Proof.
  unfold Ascii.compare. rewrite !N.compare_lt_iff. apply N.lt_trans.
Qed.

Lemma compare_lt_trans (s1 : string) :
  forall s2 s3,
    String.compare s1 s2 = Lt -> String.compare s2 s3 = Lt ->
    String.compare s1 s3 = Lt.
Proof.
  induction s1 as [|a1 s1 IH]; intros [|a2 s2] [|a3 s3] H12 H23;
    simpl in *; try discriminate; try reflexivity.
  destruct (Ascii.compare a1 a2) eqn:E12; try discriminate.
  - apply Ascii.compare_eq_iff in E12. subst a2.
    destruct (Ascii.compare a1 a3); try discriminate; [|reflexivity].
    now apply (IH s2 s3).
  - destruct (Ascii.compare a2 a3) eqn:E23; try discriminate.
    + apply Ascii.compare_eq_iff in E23. subst a3. now rewrite E12.
    + now rewrite (ascii_compare_lt_trans a1 a2 a3 E12 E23).
Qed.

Lemma leb_trans (s1 s2 s3 : string) :
  String.leb s1 s2 = true -> String.leb s2 s3 = true -> String.leb s1 s3 = true.
Proof.
  unfold String.leb. intros H12 H23.
  destruct (String.compare s1 s2) eqn:E12; try discriminate.
  - apply String.compare_eq_iff in E12. now subst.
  - destruct (String.compare s2 s3) eqn:E23; try discriminate.
    + apply String.compare_eq_iff in E23. subst. now rewrite E12.
    + now rewrite (compare_lt_trans s1 s2 s3 E12 E23).
Qed.

Lemma leb_refl (s : string) : String.leb s s = true.
Proof.
  destruct (String.leb_total s s); assumption.
Qed.

End StringOrder.

Module StableSort.

Section Sort.

Context {A : Type}.
Variable leb : A -> A -> bool.
Hypothesis leb_total : forall a b, leb a b = true \/ leb b a = true.
Hypothesis leb_trans :
  forall a b c, leb a b = true -> leb b c = true -> leb a c = true.

Lemma insert_by_perm (x : A) (l : list A) :
  Permutation (insert_by leb x l) (x :: l).
Proof.
  induction l as [|y l IH]; simpl; [apply Permutation_refl|].
  destruct (leb x y); [apply Permutation_refl|].
  eapply perm_trans; [apply perm_skip, IH | apply perm_swap].
Qed.

Lemma sort_by_perm (l : list A) : Permutation (sort_by leb l) l.
Proof.
  induction l as [|x l IH]; simpl; [constructor|].
  eapply perm_trans; [apply insert_by_perm | now apply perm_skip].
Qed.

Lemma insert_by_sorted (x : A) (l : list A) :
  StronglySorted (fun a b => leb a b = true) l ->
  StronglySorted (fun a b => leb a b = true) (insert_by leb x l).
Proof.
  induction 1 as [|y l Hl IH Hy]; simpl.
  - repeat constructor.
  - destruct (leb x y) eqn:E.
    + constructor; [now constructor|]. constructor; [exact E|].
      eapply Forall_impl; [|exact Hy]. intros z Hz. now apply (leb_trans x y z).
    + constructor; [exact IH|].
      assert (Hyx : leb y x = true) by (destruct (leb_total x y); congruence).
      rewrite (Forall_forall). intros z Hz.
      apply (Permutation_in _ (insert_by_perm x l)) in Hz.
      destruct Hz as [<- | Hz]; [exact Hyx|].
      rewrite Forall_forall in Hy. now apply Hy.
Qed.

Lemma sort_by_sorted (l : list A) :
  StronglySorted (fun a b => leb a b = true) (sort_by leb l).
Proof.
  induction l as [|x l IH]; simpl; [constructor|].
  now apply insert_by_sorted.
Qed.

End Sort.

(** Sorting by a key and then reading the keys is sorting the keys. *)
Lemma map_insert_by {A B : Type} (leb : B -> B -> bool) (key : A -> B)
      (x : A) (l : list A) :
  map key (insert_by (fun a b => leb (key a) (key b)) x l)
  = insert_by leb (key x) (map key l).
Proof.
  induction l as [|y l IH]; simpl; [reflexivity|].
  destruct (leb (key x) (key y)); simpl; [reflexivity|]. now rewrite IH.
Qed.

Lemma map_sort_by {A B : Type} (leb : B -> B -> bool) (key : A -> B) (l : list A) :
  map key (sort_by (fun a b => leb (key a) (key b)) l)
  = sort_by leb (map key l).
Proof.
  induction l as [|x l IH]; simpl; [reflexivity|].
  now rewrite map_insert_by, IH.
Qed.

Lemma map_nth_seq {A : Type} (d : A) (l : list A) :
  map (fun k => nth k l d) (seq 0 (length l)) = l.
Proof.
  induction l as [|x l IH] using rev_ind; [reflexivity|].
  rewrite length_app, seq_app, map_app. simpl. rewrite nth_middle. f_equal.
  transitivity (map (fun k => nth k l d) (seq 0 (length l))); [|exact IH].
  apply map_ext_in. intros k Hk. apply in_seq in Hk.
  now rewrite app_nth1 by lia.
Qed.

End StableSort.

(** ** [LoadData] *)

Module LoadDataFacts.

Import NetKet BeH2 DenseHamiltonian.
Open Scope nat_scope.

(** The basis string of a line: its first [N] characters. *)
Definition basis_of (N : nat) (b : string) : string :=
  string_of_list_ascii (firstn N (chars b)).

(** The product of the single-qubit operators [rotationX] and
    [rotationY] at the positions of a basis string that hold X and Y. *)
Definition rotation_of (b : string) : LocalOperator C :=
  fold_left Mul
    (map (fun jc => Local (if (snd jc =? "X")%char then rotationX else rotationY)
                          [Z.of_nat (fst jc)])
         (filter (fun jc => ((snd jc =? "X") || (snd jc =? "Y"))%char)
                 (enumerate (chars b))))
    (Const C1).

(** The strings of a list that differ from their predecessor, [tmp]
    standing before the first. *)
Fixpoint uniq_from (tmp : string) (l : list string) : list string :=
  match l with
  | [] => []
  | b :: l' => if (b =? tmp)%string then uniq_from tmp l'
               else b :: uniq_from b l'
  end.

(** The values [b_index] takes along the list. *)
Fixpoint index_from (tmp : string) (idx : Z) (l : list string) : list Z :=
  match l with
  | [] => []
  | b :: l' => if (b =? tmp)%string then idx :: index_from tmp idx l'
               else (idx + 1)%Z :: index_from b (idx + 1)%Z l'
  end.

Lemma append_snoc (acc : string) (c : ascii) (s : string) :
  ((acc ++ String c EmptyString) ++ s)%string = (acc ++ String c s)%string.
Proof. induction acc as [|a acc IH]; simpl; congruence. Qed.

Lemma append_empty (s : string) : (s ++ EmptyString)%string = s.
Proof. induction s as [|a s IH]; simpl; congruence. Qed.

Lemma length_string_of_list (cs : list ascii) :
  String.length (string_of_list_ascii cs) = length cs.
Proof. induction cs; simpl; congruence. Qed.

Lemma getitem_middle {A : Type} (pre : list A) (x : A) (post : list A) :
  getitem (pre ++ x :: post) (length pre) = Ok x.
Proof.
  unfold getitem. now rewrite nth_error_app2, Nat.sub_diag by lia.
Qed.

(** The loop that copies the first characters of a line. *)
Lemma basis_loop (cs : list ascii) :
  forall (pre rest : list ascii) (acc : string),
    for_each_r (seq (length pre) (length cs)) (fun j basis =>
        bind (getitem (pre ++ cs ++ rest) j) (fun c =>
        Ok (basis ++ String c EmptyString)%string)) acc
    = Ok (acc ++ string_of_list_ascii cs)%string.
Proof.
  induction cs as [|c cs IH]; intros pre rest acc; simpl.
  - now rewrite append_empty.
  - rewrite getitem_middle. simpl.
    specialize (IH (pre ++ [c]) rest (acc ++ String c EmptyString)%string).
    rewrite <- app_assoc, length_app in IH. simpl in IH.
    rewrite Nat.add_1_r in IH. rewrite IH. now rewrite append_snoc.
Qed.

Lemma bases_loop (N : nat) (lines : list string) :
  Forall (fun b => String.length b = N + 1) lines ->
  forall acc : list string,
    for_each_r lines (fun b bases =>
        bind (py_assert (String.length b =? N + 1)) (fun _ =>
        bind (for_each_r (seq 0 N) (fun j basis =>
                bind (getitem (chars b) j) (fun c =>
                Ok (basis ++ String c EmptyString)%string)) EmptyString)
             (fun basis => Ok (bases ++ [basis])))) acc
    = Ok (acc ++ map (basis_of N) lines).
Proof.
  induction lines as [|b lines IH]; intros Hl acc; simpl.
  - now rewrite app_nil_r.
  - inversion Hl as [|? ? Hb Hl']; subst.
    rewrite Hb, Nat.eqb_refl. simpl.
    assert (Hcs : length (firstn N (chars b)) = N).
    { rewrite length_firstn, length_chars, Hb. lia. }
    pose proof (basis_loop (firstn N (chars b)) [] (skipn N (chars b)) EmptyString)
      as E.
    rewrite Hcs in E. simpl app in E. rewrite firstn_skipn in E.
    simpl length in E. rewrite E. simpl.
    rewrite IH by exact Hl'. now rewrite <- app_assoc.
Qed.

(** The loop of [basis_rotation]. *)
Lemma rotation_loop_chars (cs : list ascii) :
  forall (pre : list ascii) (op : LocalOperator C),
    for_each_r (seq (length pre) (length cs)) (fun j localop =>
        bind (getitem (pre ++ cs) j) (fun c =>
        let localop :=
          if (c =? "X")%char then Mul localop (Local rotationX [Z.of_nat j])
          else localop in
        bind (getitem (pre ++ cs) j) (fun c =>
        let localop :=
          if (c =? "Y")%char then Mul localop (Local rotationY [Z.of_nat j])
          else localop in
        Ok localop))) op
    = Ok (fold_left Mul
            (map (fun jc => Local (if (snd jc =? "X")%char then rotationX
                                   else rotationY) [Z.of_nat (fst jc)])
                 (filter (fun jc => ((snd jc =? "X") || (snd jc =? "Y"))%char)
                         (combine (seq (length pre) (length cs)) cs)))
            op).
Proof.
  induction cs as [|c cs IH]; intros pre op; [reflexivity|].
  cbn [length seq for_each_r combine filter snd fst].
  rewrite getitem_middle. cbn [bind].
  specialize (IH (pre ++ [c])).
  rewrite <- app_assoc, length_app in IH. simpl length in IH. simpl app in IH.
  rewrite Nat.add_1_r in IH. rewrite IH.
  destruct (Ascii.eqb_spec c "X") as [->|HX]; [reflexivity|].
  destruct (Ascii.eqb_spec c "Y") as [->|HY]; reflexivity.
Qed.

Lemma basis_rotation_ok (N : nat) (b : string) :
  String.length b = N -> basis_rotation N b = Ok (rotation_of b).
Proof.
  intros <-. unfold basis_rotation, rotation_of, enumerate.
  rewrite <- length_chars. apply (rotation_loop_chars (chars b) []).
Qed.

Lemma last_cons_default {A : Type} (l : list A) :
  forall b d : A, last (b :: l) d = last l b.
Proof.
  induction l as [|x l IH]; intros b d; [reflexivity|].
  change (last (b :: x :: l) d) with (last (x :: l) d).
  now rewrite !IH.
Qed.

(** The last loop of [LoadData]. *)
Lemma rotations_loop (N : nat) (l : list string) :
  Forall (fun b => String.length b = N) l ->
  forall (rots : list (LocalOperator C)) (tmp0 : string) (idx : Z) (tbs : list Z),
    for_each_r l (fun b st =>
        bind (if negb (b =? tmp st)%string
              then bind (basis_rotation N b) (fun localop =>
                   Ok (mkRotationState (rotations st ++ [localop]) b
                         (b_index st + 1) (training_bases st)))
              else Ok st) (fun st =>
        Ok (mkRotationState (rotations st) (tmp st) (b_index st)
              (training_bases st ++ [b_index st]))))
      (mkRotationState rots tmp0 idx tbs)
    = Ok (mkRotationState
            (rots ++ map rotation_of (uniq_from tmp0 l))
            (last l tmp0)
            (idx + Z.of_nat (length (uniq_from tmp0 l)))
            (tbs ++ index_from tmp0 idx l)).
Proof.
  induction l as [|b l IH]; intros Hl rots tmp0 idx tbs.
  - simpl. now rewrite !app_nil_r, Z.add_0_r.
  - inversion Hl as [|? ? Hb Hl']; subst.
    cbn [for_each_r uniq_from index_from tmp rotations b_index training_bases].
    destruct (String.eqb_spec b tmp0) as [->|Hne]; cbn [negb bind].
    + rewrite (IH Hl'). f_equal. f_equal.
      * destruct l; reflexivity.
      * now rewrite <- app_assoc.
    + rewrite (basis_rotation_ok (String.length b) b eq_refl).
      cbn [bind rotations tmp b_index training_bases].
      rewrite (IH Hl'). f_equal. f_equal.
      * now rewrite <- app_assoc.
      * symmetry. apply last_cons_default.
      * simpl length. lia.
      * now rewrite <- app_assoc.
Qed.

(** The loop that gathers the training samples. *)
Lemma samples_loop {A : Type} (file : list (list A)) (post : list nat) :
  Forall (fun k => k < length file) post ->
  forall (pre : list nat) (acc : list (list A)),
    for_each_r (seq (length pre) (length post)) (fun i training_samples =>
        bind (getitem (pre ++ post) i) (fun k =>
        bind (ndrow (Arr2 file) k) (fun row =>
        Ok (training_samples ++ [row])))) acc
    = Ok (acc ++ map (fun k => nth k file []) post).
Proof.
  induction post as [|k post IH]; intros Hpost pre acc; simpl.
  - now rewrite app_nil_r.
  - inversion Hpost as [|? ? Hk Hpost']; subst.
    rewrite getitem_middle. simpl. rewrite (getitem_ok file k [] Hk). simpl.
    specialize (IH Hpost' (pre ++ [k]) (acc ++ [nth k file []])).
    rewrite <- app_assoc, length_app in IH. simpl in IH.
    rewrite Nat.add_1_r in IH. rewrite IH. now rewrite <- app_assoc.
Qed.

(** Strictly before, in the order of strings. *)
Definition slt (a b : string) : Prop := String.leb a b = true /\ a <> b.

Lemma slt_trans (a b c : string) : slt a b -> slt b c -> slt a c.
Proof.
  intros [Hab Nab] [Hbc Nbc]. split.
  - now apply (StringOrder.leb_trans a b c).
  - intros ->. apply Nab. now apply String.leb_antisym.
Qed.

Lemma uniq_sorted (l : list string) :
  forall tmp0 : string,
    StronglySorted (fun a b => String.leb a b = true) l ->
    Forall (fun x => String.leb tmp0 x = true) l ->
    StronglySorted slt (uniq_from tmp0 l) /\ Forall (slt tmp0) (uniq_from tmp0 l).
Proof.
  induction l as [|b l IH]; intros tmp0 Hs Hge; simpl.
  - split; constructor.
  - inversion Hs as [|? ? Hs' Hb]; subst.
    inversion Hge as [|? ? Hb0 Hge']; subst.
    destruct (String.eqb_spec b tmp0) as [->|Hne].
    + now apply IH.
    + destruct (IH b Hs' Hb) as [IHs IHf].
      assert (Hlt : slt tmp0 b) by (split; [exact Hb0 | congruence]).
      split.
      * now constructor.
      * constructor; [exact Hlt|].
        eapply Forall_impl; [|exact IHf]. intros x Hx.
        now apply (slt_trans tmp0 b x).
Qed.

Lemma slt_NoDup (l : list string) : StronglySorted slt l -> NoDup l.
Proof.
  induction 1 as [|b l Hs IH Hb]; constructor; [|exact IH].
  intros Hin. rewrite Forall_forall in Hb. destruct (Hb b Hin) as [_ Hne].
  now apply Hne.
Qed.

Lemma uniq_in (l : list string) :
  forall tmp0 b, In b (uniq_from tmp0 l) -> In b l.
Proof.
  induction l as [|x l IH]; intros tmp0 b; simpl; [auto|].
  destruct (String.eqb_spec x tmp0).
  - intros H. right. now apply (IH tmp0).
  - intros [<- | H]; [now left | right; now apply (IH x)].
Qed.

Lemma in_uniq (l : list string) :
  forall tmp0 b, In b l -> b = tmp0 \/ In b (uniq_from tmp0 l).
Proof.
  induction l as [|x l IH]; intros tmp0 b; simpl; [contradiction|].
  destruct (String.eqb_spec x tmp0) as [->|Hne].
  - intros [<- | H]; [now left | now apply IH].
  - intros [<- | H]; [right; now left|].
    destruct (IH x b H) as [-> | Hin]; right; [now left | now right].
Qed.

Lemma length_index_from (l : list string) :
  forall tmp0 idx, length (index_from tmp0 idx l) = length l.
Proof.
  induction l as [|x l IH]; intros tmp0 idx; simpl; [reflexivity|].
  destruct (x =? tmp0)%string; simpl; now rewrite IH.
Qed.

(** The value of [b_index] at position [i] points, in the list of the
    strings that differ from their predecessor, at the string of
    position [i]. *)
Lemma index_from_spec (l : list string) :
  forall (tmp0 : string) (idx : Z) (i : nat),
    i < length l ->
    (idx <= nth i (index_from tmp0 idx l) 0%Z)%Z
    /\ nth (Z.to_nat (nth i (index_from tmp0 idx l) 0%Z - idx))
           (tmp0 :: uniq_from tmp0 l) EmptyString
       = nth i l EmptyString.
Proof.
  induction l as [|b l IH]; intros tmp0 idx i Hi; simpl in Hi; [lia|].
  cbn [index_from uniq_from].
  destruct (String.eqb_spec b tmp0) as [->|Hne].
  - destruct i as [|i].
    + cbn [nth]. rewrite Z.sub_diag. split; [lia | reflexivity].
    + change (nth (S i) (idx :: index_from tmp0 idx l) 0%Z)
        with (nth i (index_from tmp0 idx l) 0%Z).
      change (nth (S i) (tmp0 :: l) EmptyString) with (nth i l EmptyString).
      apply IH. lia.
  - destruct i as [|i].
    + cbn [nth]. replace (idx + 1 - idx)%Z with 1%Z by lia.
      split; [lia | reflexivity].
    + change (nth (S i) ((idx + 1)%Z :: index_from b (idx + 1) l) 0%Z)
        with (nth i (index_from b (idx + 1) l) 0%Z).
      change (nth (S i) (b :: l) EmptyString) with (nth i l EmptyString).
      destruct (IH b (idx + 1)%Z i) as [Hle Hnth]; [lia|].
      split; [lia|].
      replace (Z.to_nat (nth i (index_from b (idx + 1) l) 0%Z - idx))
        with (S (Z.to_nat (nth i (index_from b (idx + 1) l) 0%Z - (idx + 1))))
        by lia.
      exact Hnth.
Qed.

Lemma loadtxt_2d {A : Type} (N : nat) (file : list (list A)) :
  2 <= length file -> 2 <= N -> Forall (fun r => length r = N) file ->
  loadtxt file = Ok (Arr2 file).
Proof.
  intros Hrows HN Hcols. unfold loadtxt.
  assert (Hf : filter (fun r : list A => negb (length r =? 0)) file = file).
  { apply forallb_filter_id. apply forallb_forall. intros r Hr.
    rewrite Forall_forall in Hcols. rewrite (Hcols r Hr).
    destruct N; [lia | reflexivity]. }
  rewrite Hf.
  destruct file as [|r [|r2 rest]]; simpl in Hrows; try lia.
  assert (Hall : forallb (fun r' : list A => length r' =? length r) (r2 :: rest)
                 = true).
  { apply forallb_forall. intros r' Hr'. rewrite Forall_forall in Hcols.
    rewrite (Hcols r' (or_intror Hr')), (Hcols r (or_introl eq_refl)).
    apply Nat.eqb_refl. }
  rewrite Hall.
  assert (Hr : length r = N) by (rewrite Forall_forall in Hcols; apply Hcols; now left).
  destruct (Nat.eqb_spec (length r) 1) as [E|_]; [lia|].
  destruct r as [|x [|y r]]; reflexivity.
Qed.

Lemma leb_empty (s : string) : String.leb EmptyString s = true.
Proof. now destruct s. Qed.

Lemma length_basis_of (N : nat) (b : string) :
  String.length b = N + 1 -> String.length (basis_of N b) = N.
Proof.
  intros Hb. unfold basis_of.
  rewrite length_string_of_list, length_firstn, length_chars. lia.
Qed.

(** C6, for a samples file of at least two rows and two columns with
    as many rows as the bases file has lines.  [LoadData] returns
    [(rotations, training_samples, training_bases)] where, for a
    permutation [perm] of the line numbers: the basis strings taken
    along [perm] are sorted, and the returned samples are the rows of
    the file taken along the same [perm]; [rotations] holds one operator
    for each of the distinct basis strings, in increasing order, each
    the product of [rotationX] and [rotationY] at the X and Y positions
    of its string; and [training_bases[i]] is the index in [rotations]
    of the rotation of the [i]-th sorted basis string. *)
Theorem LoadData_sorts_and_pairs
    {A : Type} (N : nat) (samples_file : list (list A)) (lines : list string) :
  2 <= length samples_file ->
  2 <= N ->
  Forall (fun r => length r = N) samples_file ->
  Forall (fun b => String.length b = N + 1) lines ->
  length lines = length samples_file ->
  let bases := map (basis_of N) lines in
  exists (perm : list nat) (distinct : list string)
         (rots : list (LocalOperator C)) (tsamples : list (list A))
         (tbases : list Z),
    LoadData N samples_file lines = Ok (rots, tsamples, tbases)
    /\ Permutation perm (seq 0 (length lines))
    /\ StronglySorted (fun a b => String.leb a b = true)
                      (map (fun k => nth k bases EmptyString) perm)
    /\ tsamples = map (fun k => nth k samples_file []) perm
    /\ rots = map rotation_of distinct
    /\ NoDup distinct
    /\ StronglySorted slt distinct
    /\ (forall b, In b distinct <-> In b bases)
    /\ length tbases = length lines
    /\ forall i, i < length lines ->
         (0 <= nth i tbases 0)%Z
         /\ nth_error rots (Z.to_nat (nth i tbases 0%Z))
            = Some (rotation_of (nth (nth i perm 0) bases EmptyString)).
Proof.
  intros Hrows HN Hcols Hlines Hcount bases.
  set (keyleb := fun k k' : nat => String.leb (nth k bases EmptyString)
                                              (nth k' bases EmptyString)).
  set (perm := sort_by keyleb (seq 0 (length bases))).
  set (sorted := sort_by String.leb bases).
  assert (Hbl : length bases = length lines) by apply length_map.
  assert (Hperm : Permutation perm (seq 0 (length lines))).
  { rewrite <- Hbl. apply StableSort.sort_by_perm. }
  assert (Hkeys : map (fun k => nth k bases EmptyString) perm = sorted).
  { unfold perm, keyleb, sorted.
    rewrite (StableSort.map_sort_by String.leb (fun k => nth k bases EmptyString)).
    now rewrite StableSort.map_nth_seq. }
  assert (Hsorted : StronglySorted (fun a b => String.leb a b = true) sorted).
  { apply StableSort.sort_by_sorted;
      [apply String.leb_total | apply StringOrder.leb_trans]. }
  assert (Hsp : Permutation sorted bases) by apply StableSort.sort_by_perm.
  assert (HbN : Forall (fun b => String.length b = N) bases).
  { apply Forall_forall. intros b Hb. apply in_map_iff in Hb.
    destruct Hb as [l [<- Hl]]. apply length_basis_of.
    rewrite Forall_forall in Hlines. now apply Hlines. }
  assert (HsN : Forall (fun b => String.length b = N) sorted).
  { eapply Permutation_Forall; [apply Permutation_sym, Hsp | exact HbN]. }
  assert (Hpl : length perm = length samples_file).
  { rewrite (Permutation_length Hperm), length_seq. exact Hcount. }
  assert (Hpk : Forall (fun k => k < length samples_file) perm).
  { apply Forall_forall. intros k Hk.
    apply (Permutation_in _ Hperm), in_seq in Hk. lia. }
  destruct (uniq_sorted sorted EmptyString Hsorted) as [Hus Hupos].
  { apply Forall_forall. intros x _. apply leb_empty. }
  exists perm, (uniq_from EmptyString sorted),
         (map rotation_of (uniq_from EmptyString sorted)),
         (map (fun k => nth k samples_file []) perm),
         (index_from EmptyString (-1) sorted).
  assert (Hsl : length sorted = length lines).
  { rewrite (Permutation_length Hsp). exact Hbl. }
  assert (Hne : forall b, In b sorted -> b <> EmptyString).
  { intros b Hb ->. rewrite Forall_forall in HsN.
    specialize (HsN _ Hb). simpl in HsN. lia. }
  split; [|split; [exact Hperm | split; [now rewrite Hkeys |
           split; [reflexivity | split; [reflexivity |
           split; [now apply slt_NoDup | split; [exact Hus |
           split; [|split]]]]]]]].
  - unfold LoadData. rewrite (loadtxt_2d N samples_file Hrows HN Hcols).
    cbn [bind].
    assert (Hshape : shape1 (Arr2 samples_file) = Ok N).
    { destruct samples_file as [|r rest]; [simpl in Hrows; lia|].
      simpl. inversion Hcols; subst. reflexivity. }
    rewrite Hshape. cbn [bind]. rewrite Nat.eqb_refl. cbn [py_assert bind].
    rewrite (bases_loop N lines Hlines []). cbn [bind app].
    fold bases. fold keyleb. fold perm. fold sorted.
    cbn [ndlen bind].
    rewrite <- Hpl.
    pose proof (samples_loop samples_file perm Hpk [] []) as Es.
    change (length (@nil nat)) with 0 in Es. change ([] ++ perm) with perm in Es.
    rewrite Es. cbn [bind app].
    rewrite (rotations_loop N sorted HsN). cbn [bind app rotations training_bases].
    reflexivity.
  - intros b. split.
    + intros Hb. apply uniq_in in Hb. now apply (Permutation_in _ Hsp).
    + intros Hb. apply (Permutation_in _ (Permutation_sym Hsp)) in Hb.
      destruct (in_uniq sorted EmptyString b Hb) as [-> | Hin]; [|exact Hin].
      now destruct (Hne _ Hb).
  - now rewrite length_index_from.
  - intros i Hi. rewrite <- Hsl in Hi.
    destruct (index_from_spec sorted EmptyString (-1) i Hi) as [Hle Hnth].
    set (t := nth i (index_from EmptyString (-1) sorted) 0%Z) in *.
    assert (Hsi : nth (nth i perm 0) bases EmptyString = nth i sorted EmptyString).
    { rewrite <- Hkeys.
      rewrite (nth_indep (map (fun k => nth k bases EmptyString) perm)
                 EmptyString (nth 0 bases EmptyString))
        by (rewrite length_map, Hpl, <- Hcount, <- Hsl; exact Hi).
      now rewrite (map_nth (fun k => nth k bases EmptyString)). }
    assert (Hnz : nth i sorted EmptyString <> EmptyString)
      by (apply Hne, nth_In; exact Hi).
    assert (Ht : (0 <= t)%Z).
    { destruct (Z.eq_dec t (-1)) as [E|E]; [|lia].
      rewrite E in Hnth. simpl in Hnth. now destruct Hnz. }
    split; [exact Ht|].
    replace (Z.to_nat (t - -1)) with (S (Z.to_nat t)) in Hnth by lia.
    cbn [nth] in Hnth. rewrite Hsi, <- Hnth.
    assert (Hin : Z.to_nat t < length (uniq_from EmptyString sorted)).
    { destruct (Nat.lt_ge_cases (Z.to_nat t) (length (uniq_from EmptyString sorted)))
        as [H|H]; [exact H|].
      rewrite nth_overflow in Hnth by exact H. now destruct Hnz. }
    rewrite nth_error_map, (nth_error_nth' _ EmptyString Hin). reflexivity.
Qed.

Definition newline : string := String (ascii_of_nat 10) EmptyString.

(** Three measurements of two qubits. *)
Lemma LoadData_sorts_and_pairs_example :
  let lines := ["ZZ" ++ newline; "XZ" ++ newline; "ZZ" ++ newline]%string in
  let samples_file := [[0; 1]; [1; 1]; [0; 0]]%Z in
  let bases := map (basis_of 2) lines in
  exists (perm : list nat) (distinct : list string)
         (rots : list (LocalOperator C)) (tsamples : list (list Z))
         (tbases : list Z),
    LoadData 2 samples_file lines = Ok (rots, tsamples, tbases)
    /\ Permutation perm (seq 0 (length lines))
    /\ StronglySorted (fun a b => String.leb a b = true)
                      (map (fun k => nth k bases EmptyString) perm)
    /\ tsamples = map (fun k => nth k samples_file []) perm
    /\ rots = map rotation_of distinct
    /\ NoDup distinct
    /\ StronglySorted slt distinct
    /\ (forall b, In b distinct <-> In b bases)
    /\ length tbases = length lines
    /\ forall i, i < length lines ->
         (0 <= nth i tbases 0)%Z
         /\ nth_error rots (Z.to_nat (nth i tbases 0%Z))
            = Some (rotation_of (nth (nth i perm 0) bases EmptyString)).
Proof.
  apply (LoadData_sorts_and_pairs 2 [[0; 1]; [1; 1]; [0; 0]]%Z
           ["ZZ" ++ newline; "XZ" ++ newline; "ZZ" ++ newline]%string).
  - simpl. lia.
  - lia.
  - repeat constructor.
  - repeat constructor.
  - reflexivity.
Defined.

(** The claim fails when the samples file has more rows than the bases
    file has lines ([index_list[i]] is out of range), when the samples
    file has a single row, and when it has a single column (in both
    cases [np.loadtxt] returns a one-dimensional array, which has no
    [shape[1]]). *)
Lemma LoadData_raises :
  LoadData 2 [[0; 1]; [1; 1]; [0; 0]]%Z ["ZZ" ++ newline; "XZ" ++ newline]%string
  = Raise IndexError
  /\ LoadData 2 [[0; 1]]%Z ["ZZ" ++ newline]%string = Raise IndexError
  /\ LoadData 1 [[0]; [1]]%Z ["Z" ++ newline; "X" ++ newline]%string
     = Raise IndexError.
Proof. repeat split; reflexivity. Qed.

End LoadDataFacts.

(** ** The geometry of the bond lists *)

Module LatticeGeometry.

Import LatticeFacts.
Open Scope Z_scope.

Lemma site_inj (Ly x y x' y' : Z) :
  0 <= y < Ly -> 0 <= y' < Ly -> site Ly x y = site Ly x' y' ->
  x = x' /\ y = y'.
Proof.
  unfold site. intros Hy Hy' E.
  assert (x = x') by nia. subst x'. lia.
Qed.

Lemma NoDup_range (n : Z) : NoDup (range n).
Proof.
  unfold range. apply NoDup_map_NoDup_ForallPairs.
  - intros a b _ _ E. lia.
  - apply seq_NoDup.
Qed.

Lemma NoDup_flat_map {A B : Type} (f : A -> list B) (l : list A) :
  NoDup l ->
  (forall a, In a l -> NoDup (f a)) ->
  (forall a a' b, In a l -> In a' l -> In b (f a) -> In b (f a') -> a = a') ->
  NoDup (flat_map f l).
Proof.
  induction l as [|a l IH]; intros Hl Hf Hd; simpl; [constructor|].
  inversion Hl as [|? ? Hn Hl']; subst.
  apply NoDup_app.
  - apply Hf. now left.
  - apply IH; [assumption| |].
    + intros a' Ha'. apply Hf. now right.
    + intros a1 a2 b H1 H2. apply Hd; now right.
  - intros b Hb Hb'. apply in_flat_map in Hb'. destruct Hb' as [a' [Ha' Hb']].
    assert (a = a') by (apply (Hd a a' b); [now left|now right|assumption|assumption]).
    subst a'. contradiction.
Qed.

(** A site of the [Lx] by [Ly] lattice, by its coordinates. *)
Definition lattice_site (Lx Ly x y : Z) : Prop := 0 <= x < Lx /\ 0 <= y < Ly.

(** [bonds] holds every pair of lattice sites whose coordinate
    differences satisfy [rel], each pair once and in one orientation,
    and nothing else. *)
Definition each_pair_once (Lx Ly : Z) (rel : Z -> Z -> Prop) (bonds : list bond)
  : Prop :=
  NoDup bonds
  /\ (forall a b, In (a, b) bonds -> ~ In (b, a) bonds)
  /\ (forall b, In b bonds ->
        exists x y x' y',
          lattice_site Lx Ly x y /\ lattice_site Lx Ly x' y'
          /\ b = (Tomography.coord_to_site Ly x y, Tomography.coord_to_site Ly x' y'))
  /\ forall x y x' y',
       lattice_site Lx Ly x y -> lattice_site Lx Ly x' y' ->
       (In (Tomography.coord_to_site Ly x y, Tomography.coord_to_site Ly x' y') bonds
        \/ In (Tomography.coord_to_site Ly x' y', Tomography.coord_to_site Ly x y) bonds)
       <-> rel (x' - x) (y' - y).

Lemma in_nn (Lx Ly : Z) (a b : Z) :
  In (a, b) (nn_closed Lx Ly) <->
  exists x y, lattice_site Lx Ly x y /\ a = site Ly x y
    /\ ((y + 1 < Ly /\ b = site Ly x (y + 1))
        \/ (x + 1 < Lx /\ b = site Ly (x + 1) y)).
Proof.
  unfold nn_closed, lattice_site. rewrite in_app_iff, !in_flat_map. split.
  - intros [[x [Hx H]]|[y [Hy H]]]; apply in_map_iff in H.
    + destruct H as [y [E Hy]]. apply in_range in Hx, Hy. inversion E; subst.
      exists x, y. split; [split; lia|]. split; [reflexivity|]. left. split; [lia|reflexivity].
    + destruct H as [x [E Hx]]. apply in_range in Hx, Hy. inversion E; subst.
      exists x, y. split; [split; lia|]. split; [reflexivity|]. right. split; [lia|reflexivity].
  - intros [x [y [[Hx Hy] [-> [[H ->]|[H ->]]]]]].
    + left. exists x. split; [apply in_range; lia|].
      apply in_map_iff. exists y. split; [reflexivity|apply in_range; lia].
    + right. exists y. split; [apply in_range; lia|].
      apply in_map_iff. exists x. split; [reflexivity|apply in_range; lia].
Qed.

Lemma in_nnn (Lx Ly : Z) (a b : Z) :
  In (a, b) (nnn_closed Lx Ly) <->
  exists x y, 0 <= x < Lx - 1 /\ 0 <= y < Ly - 1
    /\ ((a = site Ly x y /\ b = site Ly (x + 1) (y + 1))
        \/ (a = site Ly (x + 1) y /\ b = site Ly x (y + 1))).
Proof.
  unfold nnn_closed. rewrite in_flat_map. split.
  - intros [y [Hy H]]. apply in_flat_map in H. destruct H as [x [Hx H]].
    apply in_range in Hx, Hy. exists x, y. split; [lia|]. split; [lia|].
    destruct H as [E|[E|[]]]; inversion E; subst; [left|right]; split; reflexivity.
  - intros [x [y [Hx [Hy H]]]]. exists y. split; [apply in_range; lia|].
    apply in_flat_map. exists x. split; [apply in_range; lia|].
    destruct H as [[-> ->]|[-> ->]]; [left|right; left]; reflexivity.
Qed.

Lemma in_nnnn (Lx Ly : Z) (a b : Z) :
  In (a, b) (nnnn_closed Lx Ly) <->
  exists x y, lattice_site Lx Ly x y /\ a = site Ly x y
    /\ ((x + 2 < Lx /\ b = site Ly (x + 2) y)
        \/ (y + 2 < Ly /\ b = site Ly x (y + 2))).
Proof.
  unfold nnnn_closed, lattice_site. rewrite in_app_iff, !in_flat_map. split.
  - intros [[y [Hy H]]|[y [Hy H]]]; apply in_map_iff in H.
    + destruct H as [x [E Hx]]. apply in_range in Hx, Hy. inversion E; subst.
      exists x, y. split; [split; lia|]. split; [reflexivity|]. left. split; [lia|reflexivity].
    + destruct H as [x [E Hx]]. apply in_range in Hx, Hy. inversion E; subst.
      exists x, y. split; [split; lia|]. split; [reflexivity|]. right. split; [lia|reflexivity].
  - intros [x [y [[Hx Hy] [-> [[H ->]|[H ->]]]]]].
    + left. exists y. split; [apply in_range; lia|].
      apply in_map_iff. exists x. split; [reflexivity|apply in_range; lia].
    + right. exists y. split; [apply in_range; lia|].
      apply in_map_iff. exists x. split; [reflexivity|apply in_range; lia].
Qed.

Ltac site_eqs :=
  repeat match goal with
  | H : (_, _) = (_, _) |- _ => inversion H; clear H
  | H : site ?L ?x ?y = site ?L ?x' ?y' |- _ =>
      let E := fresh "E" in
      assert (E : x = x' /\ y = y') by (apply (site_inj L); [lia|lia|exact H]);
      clear H; destruct E
  end.

Lemma NoDup_nested_map (f : Z -> Z -> bond) (n m : Z) :
  (forall a b a' b', 0 <= a < n -> 0 <= b < m -> 0 <= a' < n -> 0 <= b' < m ->
     f a b = f a' b' -> a = a' /\ b = b') ->
  NoDup (flat_map (fun a => map (f a) (range m)) (range n)).
Proof.
  intros Hf. apply NoDup_flat_map.
  - apply NoDup_range.
  - intros a Ha. apply in_range in Ha. apply NoDup_map_NoDup_ForallPairs.
    + intros b b' Hb Hb' E. apply in_range in Hb, Hb'.
      now apply (Hf a b a b').
    + apply NoDup_range.
  - intros a a' p Ha Ha' Hp Hp'. apply in_range in Ha, Ha'.
    apply in_map_iff in Hp, Hp'.
    destruct Hp as [b [<- Hb]]. destruct Hp' as [b' [E Hb']].
    apply in_range in Hb, Hb'. symmetry in E. now apply (Hf a b a' b').
Qed.

Lemma nn_NoDup (Lx Ly : Z) : NoDup (nn_closed Lx Ly).
Proof.
  unfold nn_closed. apply NoDup_app.
  - apply NoDup_nested_map. intros; site_eqs; lia.
  - apply NoDup_nested_map. intros; site_eqs; lia.
  - intros [a b] H1 H2.
    apply in_flat_map in H1, H2.
    destruct H1 as [x [Hx H1]]. destruct H2 as [y' [Hy' H2]].
    apply in_map_iff in H1, H2.
    destruct H1 as [y [E1 Hy]]. destruct H2 as [x' [E2 Hx']].
    apply in_range in Hx, Hy, Hx', Hy'. rewrite <- E1 in E2.
    site_eqs. lia.
Qed.

Lemma nn_each_pair_once (Lx Ly : Z) :
  each_pair_once Lx Ly (fun dx dy => Z.abs dx + Z.abs dy = 1) (nn_closed Lx Ly).
Proof.
  assert (Hlt : forall a b, In (a, b) (nn_closed Lx Ly) -> a < b).
  { intros a b H. apply in_nn in H.
    destruct H as [x [y [[Hx Hy] [-> [[H ->]|[H ->]]]]]]; unfold site; nia. }
  split; [apply nn_NoDup|]. split; [|split].
  - intros a b H H'. apply Hlt in H, H'. lia.
  - intros [a b] H. apply in_nn in H.
    destruct H as [x [y [[Hx Hy] [-> [[H ->]|[H ->]]]]]].
    + exists x, y, x, (y + 1). repeat split; lia.
    + exists x, y, (x + 1), y. repeat split; lia.
  - intros x y x' y' [Hx Hy] [Hx' Hy'].
    change (Tomography.coord_to_site Ly) with (site Ly). rewrite !in_nn. split.
    + intros [[x0 [y0 [[Hx0 Hy0] [E [[H E']|[H E']]]]]]
             |[x0 [y0 [[Hx0 Hy0] [E [[H E']|[H E']]]]]]]; site_eqs; lia.
    + intros H.
      assert (C : (x' = x /\ y' = y + 1) \/ (x' = x /\ y = y' + 1)
                  \/ (x' = x + 1 /\ y' = y) \/ (x = x' + 1 /\ y' = y)) by lia.
      destruct C as [[-> ->]|[[-> ->]|[[-> ->]|[-> ->]]]].
      * left. exists x, y. split; [split; lia|]. split; [reflexivity|]. left. split; [lia|reflexivity].
      * right. exists x, y'. split; [split; lia|]. split; [reflexivity|]. left. split; [lia|reflexivity].
      * left. exists x, y. split; [split; lia|]. split; [reflexivity|]. right. split; [lia|reflexivity].
      * right. exists x', y. split; [split; lia|]. split; [reflexivity|]. right. split; [lia|reflexivity].
Qed.

Lemma nnn_NoDup (Lx Ly : Z) : NoDup (nnn_closed Lx Ly).
Proof.
  unfold nnn_closed. apply NoDup_flat_map.
  - apply NoDup_range.
  - intros y Hy. apply in_range in Hy. apply NoDup_flat_map.
    + apply NoDup_range.
    + intros x Hx. apply in_range in Hx.
      constructor; [|constructor; [intros []|constructor]].
      intros [E|[]]. site_eqs. lia.
    + intros x x' b Hx Hx' Hb Hb'. apply in_range in Hx, Hx'.
      destruct Hb as [<-|[<-|[]]]; destruct Hb' as [E|[E|[]]]; site_eqs; lia.
  - intros y y' b Hy Hy' Hb Hb'. apply in_range in Hy, Hy'.
    apply in_flat_map in Hb, Hb'.
    destruct Hb as [x [Hx Hb]]. destruct Hb' as [x' [Hx' Hb']].
    apply in_range in Hx, Hx'.
    destruct Hb as [<-|[<-|[]]]; destruct Hb' as [E|[E|[]]]; site_eqs; lia.
Qed.

Lemma nnn_each_pair_once (Lx Ly : Z) :
  each_pair_once Lx Ly (fun dx dy => Z.abs dx = 1 /\ Z.abs dy = 1)
    (nnn_closed Lx Ly).
Proof.
  split; [apply nnn_NoDup|]. split; [|split].
  - intros a b H H'. apply in_nnn in H, H'.
    destruct H as [x [y [Hx [Hy [[-> ->]|[-> ->]]]]]];
      destruct H' as [x' [y' [Hx' [Hy' [[E E']|[E E']]]]]]; site_eqs; lia.
  - intros [a b] H. apply in_nnn in H.
    destruct H as [x [y [Hx [Hy [[-> ->]|[-> ->]]]]]].
    + exists x, y, (x + 1), (y + 1). repeat split; lia.
    + exists (x + 1), y, x, (y + 1). repeat split; lia.
  - intros x y x' y' [Hx Hy] [Hx' Hy'].
    change (Tomography.coord_to_site Ly) with (site Ly). rewrite !in_nnn. split.
    + intros [[x0 [y0 [Hx0 [Hy0 [[E E']|[E E']]]]]]
             |[x0 [y0 [Hx0 [Hy0 [[E E']|[E E']]]]]]]; site_eqs; lia.
    + intros H.
      assert (C : (x' = x + 1 /\ y' = y + 1) \/ (x = x' + 1 /\ y = y' + 1)
                  \/ (x' = x + 1 /\ y = y' + 1) \/ (x = x' + 1 /\ y' = y + 1)) by lia.
      destruct C as [[-> ->]|[[-> ->]|[[-> ->]|[-> ->]]]].
      * left. exists x, y. split; [lia|]. split; [lia|]. left. split; reflexivity.
      * right. exists x', y'. split; [lia|]. split; [lia|]. left. split; reflexivity.
      * right. exists x, y'. split; [lia|]. split; [lia|]. right. split; reflexivity.
      * left. exists x', y. split; [lia|]. split; [lia|]. right. split; reflexivity.
Qed.

Lemma nnnn_NoDup (Lx Ly : Z) : NoDup (nnnn_closed Lx Ly).
Proof.
  unfold nnnn_closed. apply NoDup_app.
  - apply NoDup_nested_map. intros; site_eqs; lia.
  - apply NoDup_nested_map. intros; site_eqs; lia.
  - intros [a b] H1 H2.
    apply in_flat_map in H1, H2.
    destruct H1 as [y [Hy H1]]. destruct H2 as [y' [Hy' H2]].
    apply in_map_iff in H1, H2.
    destruct H1 as [x [E1 Hx]]. destruct H2 as [x' [E2 Hx']].
    apply in_range in Hx, Hy, Hx', Hy'. rewrite <- E1 in E2.
    site_eqs. lia.
Qed.

Lemma nnnn_each_pair_once (Lx Ly : Z) :
  each_pair_once Lx Ly
    (fun dx dy => (Z.abs dx = 2 /\ dy = 0) \/ (dx = 0 /\ Z.abs dy = 2))
    (nnnn_closed Lx Ly).
Proof.
  assert (Hlt : forall a b, In (a, b) (nnnn_closed Lx Ly) -> a < b).
  { intros a b H. apply in_nnnn in H.
    destruct H as [x [y [[Hx Hy] [-> [[H ->]|[H ->]]]]]]; unfold site; nia. }
  split; [apply nnnn_NoDup|]. split; [|split].
  - intros a b H H'. apply Hlt in H, H'. lia.
  - intros [a b] H. apply in_nnnn in H.
    destruct H as [x [y [[Hx Hy] [-> [[H ->]|[H ->]]]]]].
    + exists x, y, (x + 2), y. repeat split; lia.
    + exists x, y, x, (y + 2). repeat split; lia.
  - intros x y x' y' [Hx Hy] [Hx' Hy'].
    change (Tomography.coord_to_site Ly) with (site Ly). rewrite !in_nnnn. split.
    + intros [[x0 [y0 [[Hx0 Hy0] [E [[H E']|[H E']]]]]]
             |[x0 [y0 [[Hx0 Hy0] [E [[H E']|[H E']]]]]]]; site_eqs; lia.
    + intros H.
      assert (C : (x' = x + 2 /\ y' = y) \/ (x = x' + 2 /\ y' = y)
                  \/ (x' = x /\ y' = y + 2) \/ (x' = x /\ y = y' + 2)) by lia.
      destruct C as [[-> ->]|[[-> ->]|[[-> ->]|[-> ->]]]].
      * left. exists x, y. split; [split; lia|]. split; [reflexivity|]. left. split; [lia|reflexivity].
      * right. exists x', y. split; [split; lia|]. split; [reflexivity|]. left. split; [lia|reflexivity].
      * left. exists x, y. split; [split; lia|]. split; [reflexivity|]. right. split; [lia|reflexivity].
      * right. exists x, y'. split; [split; lia|]. split; [reflexivity|]. right. split; [lia|reflexivity].
Qed.

(** The method applied to any object, not only to a new one. *)
Lemma buildlattice_closed (self : VMC.vmc) :
  VMC.buildlattice self
  = VMC.mkVmc (VMC.Lx self) (VMC.Ly self) (VMC.V self) (VMC.Omega self)
      (VMC.delta self) (VMC.N self)
      (nn_closed (VMC.Lx self) (VMC.Ly self))
      (nnn_closed (VMC.Lx self) (VMC.Ly self))
      (nnnn_closed (VMC.Lx self) (VMC.Ly self)).
Proof.
  destruct self as [Lx Ly V Omega delta N nn0 nnn0 nnnn0].
  unfold VMC.buildlattice. cbv zeta.
  unfold VMC.coord_to_site.
  rewrite (vmc_loop_nn (fun _ ly => range (ly - 1))
             (fun ly x y => [(ly * x + y, ly * x + (y + 1))])).
  rewrite (vmc_loop_nn (fun lx _ => range (lx - 1))
             (fun ly y x => [(ly * x + y, ly * (x + 1) + y)])).
  rewrite (for_each_ext _ (fun y self =>
     for_each ((fun lx _ => range (lx - 1)) (VMC.Lx self) (VMC.Ly self))
       (fun x self => VMC.set_nnn self (VMC.nnn self ++
         (fun ly y x => [(ly * x + y, ly * (x + 1) + (y + 1));
                         (ly * (x + 1) + y, ly * x + (y + 1))])
         (VMC.Ly self) y x)) self) (range (_ - 1))).
  2:{ intros y s. apply for_each_ext. intros x s'. destruct s'; simpl.
      unfold VMC.set_nnn; simpl. now rewrite <- app_assoc. }
  rewrite (vmc_loop_nnn (fun lx _ => range (lx - 1))
             (fun ly y x => [(ly * x + y, ly * (x + 1) + (y + 1));
                             (ly * (x + 1) + y, ly * x + (y + 1))])).
  rewrite (vmc_loop_nnnn (fun lx _ => range (lx - 2))
             (fun ly y x => [(ly * x + y, ly * (x + 2) + y)])).
  rewrite (vmc_loop_nnnn (fun lx _ => range lx)
             (fun ly y x => [(ly * x + y, ly * x + (y + 2))])).
  simpl. unfold VMC.set_nnnn; simpl.
  unfold nn_closed, nnn_closed, nnnn_closed, site.
  f_equal; rewrite <- ?flat_map_singleton_inner; reflexivity.
Qed.

(** X1. [coord_to_site] numbers the sites of the lattice: a site with
    [0 <= x < Lx] and [0 <= y < Ly] gets an index in [[0, Lx*Ly)], two
    such sites never share an index, the coordinates are recovered as
    quotient and remainder by [Ly], and every index of [[0, Lx*Ly)]
    is the index of a site.  The method of the class computes the same
    number from [self.Ly]. *)
Theorem coord_to_site_numbers_the_sites (Lx Ly : Z) :
  (forall self x y,
      VMC.coord_to_site self x y = Tomography.coord_to_site (VMC.Ly self) x y)
  /\ (forall x y, lattice_site Lx Ly x y ->
        0 <= Tomography.coord_to_site Ly x y < Lx * Ly)
  /\ (forall x y x' y', 0 <= y < Ly -> 0 <= y' < Ly ->
        Tomography.coord_to_site Ly x y = Tomography.coord_to_site Ly x' y' ->
        x = x' /\ y = y')
  /\ (forall x y, 0 <= y < Ly ->
        Tomography.coord_to_site Ly x y / Ly = x
        /\ Tomography.coord_to_site Ly x y mod Ly = y)
  /\ (forall i, 0 < Ly -> 0 <= i < Lx * Ly ->
        lattice_site Lx Ly (i / Ly) (i mod Ly)
        /\ Tomography.coord_to_site Ly (i / Ly) (i mod Ly) = i).
Proof.
  split; [reflexivity|]. split; [|split; [|split]].
  - intros x y [Hx Hy]. unfold Tomography.coord_to_site. nia.
  - intros x y x' y' Hy Hy' E. now apply (site_inj Ly).
  - intros x y Hy. unfold Tomography.coord_to_site.
    split; symmetry;
      [apply (Z.div_unique _ Ly x y)|apply (Z.mod_unique _ Ly x y)]; lia.
  - intros i HLy Hi. unfold lattice_site, Tomography.coord_to_site.
    pose proof (Z.mod_pos_bound i Ly HLy).
    pose proof (Z.div_mod i Ly ltac:(lia)).
    assert (0 <= i / Ly) by (apply Z.div_pos; lia).
    assert (i / Ly < Lx) by (apply Z.div_lt_upper_bound; nia).
    repeat split; lia.
Qed.

(** Site 11 of the 4-by-4 lattice is the site of coordinates (2, 3). *)
Lemma coord_to_site_numbers_the_sites_4x4 :
  0 <= Tomography.coord_to_site 4 2 3 < 4 * 4
  /\ (Tomography.coord_to_site 4 2 3 / 4 = 2
      /\ Tomography.coord_to_site 4 2 3 mod 4 = 3)
  /\ (lattice_site 4 4 (11 / 4) (11 mod 4)
      /\ Tomography.coord_to_site 4 (11 / 4) (11 mod 4) = 11).
Proof.
  destruct (coord_to_site_numbers_the_sites 4 4) as (_ & H1 & _ & H3 & H4).
  split; [apply H1; unfold lattice_site; lia|].
  split; [apply H3; lia|apply H4; lia].
Defined.

(** X2. In both notebooks the list [nn] holds exactly the pairs of
    lattice sites at distance one (same row or column, adjacent), every
    pair once and in one orientation only. *)
Theorem nn_joins_nearest_neighbours (Lx Ly : Z) (V Omega delta : R) :
  each_pair_once Lx Ly (fun dx dy => Z.abs dx + Z.abs dy = 1)
    (Tomography.nn (Tomography.buildlattice Lx Ly))
  /\ each_pair_once Lx Ly (fun dx dy => Z.abs dx + Z.abs dy = 1)
       (VMC.nn (VMC.init Lx Ly V Omega delta)).
Proof.
  rewrite tomography_closed, vmc_closed. split; apply nn_each_pair_once.
Qed.

(** X3. In both notebooks the list [nnn] holds exactly the pairs of
    lattice sites that are diagonal neighbours (one step in x and one in
    y), every pair once and in one orientation only. *)
Theorem nnn_joins_diagonal_neighbours (Lx Ly : Z) (V Omega delta : R) :
  each_pair_once Lx Ly (fun dx dy => Z.abs dx = 1 /\ Z.abs dy = 1)
    (Tomography.nnn (Tomography.buildlattice Lx Ly))
  /\ each_pair_once Lx Ly (fun dx dy => Z.abs dx = 1 /\ Z.abs dy = 1)
       (VMC.nnn (VMC.init Lx Ly V Omega delta)).
Proof.
  rewrite tomography_closed, vmc_closed. split; apply nnn_each_pair_once.
Qed.

(** X4. In both notebooks the list [nnnn] holds exactly the pairs of
    lattice sites two steps apart along one axis, every pair once and in
    one orientation only. *)
Theorem nnnn_joins_sites_two_apart (Lx Ly : Z) (V Omega delta : R) :
  each_pair_once Lx Ly
    (fun dx dy => (Z.abs dx = 2 /\ dy = 0) \/ (dx = 0 /\ Z.abs dy = 2))
    (Tomography.nnnn (Tomography.buildlattice Lx Ly))
  /\ each_pair_once Lx Ly
       (fun dx dy => (Z.abs dx = 2 /\ dy = 0) \/ (dx = 0 /\ Z.abs dy = 2))
       (VMC.nnnn (VMC.init Lx Ly V Omega delta)).
Proof.
  rewrite tomography_closed, vmc_closed. split; apply nnnn_each_pair_once.
Qed.

(** X5. The method [buildlattice] starts from three empty lists: on any
    object, whatever its lists held before, it leaves the other fields
    as they were, sets the lists to those the function [buildlattice] of
    the tomography notebook returns for [self.Lx] and [self.Ly], and a
    second call changes nothing. *)
Theorem buildlattice_rebuilds_the_lists (self : VMC.vmc) :
  let self' := VMC.buildlattice self in
  let t := Tomography.buildlattice (VMC.Lx self) (VMC.Ly self) in
  (VMC.Lx self' = VMC.Lx self /\ VMC.Ly self' = VMC.Ly self
   /\ VMC.V self' = VMC.V self /\ VMC.Omega self' = VMC.Omega self
   /\ VMC.delta self' = VMC.delta self /\ VMC.N self' = VMC.N self)
  /\ (VMC.nn self' = Tomography.nn t /\ VMC.nnn self' = Tomography.nnn t
      /\ VMC.nnnn self' = Tomography.nnnn t)
  /\ VMC.buildlattice self' = self'.
Proof.
  intros self' t. subst self' t.
  rewrite tomography_closed, !buildlattice_closed. simpl.
  repeat split.
Qed.

End LatticeGeometry.

(** ** The dense Hamiltonian: symmetry and refused inputs *)

Module DenseEdges.

Import BeH2 Kron PauliProduct DenseHamiltonian GroundState.
Open Scope nat_scope.

Lemma for_each_r_app {A S : Type} (l1 l2 : list A) (body : A -> S -> result S)
      (s : S) :
  for_each_r (l1 ++ l2) body s = bind (for_each_r l1 body s) (for_each_r l2 body).
Proof.
  revert s. induction l1 as [|x l1 IH]; intros s; simpl; [reflexivity|].
  destruct (body x s) as [s'|e]; simpl; [apply IH|reflexivity].
Qed.

Lemma enumerate_app {A : Type} (l1 l2 : list A) :
  enumerate (l1 ++ l2)
  = enumerate l1 ++ combine (seq (length l1) (length l2)) l2.
Proof.
  unfold enumerate. rewrite length_app, seq_app.
  now rewrite combine_append by (now rewrite length_seq).
Qed.

(** The loop of [hamiltonian] over the first strings of the list, as
    long as they have [N] characters and a coefficient each. *)
Lemma hamiltonian_prefix (N : nat) (interactions : list C) (pre : list string) :
  1 <= N ->
  Forall (fun s => String.length s = N) pre ->
  length pre <= length interactions ->
  exists H,
    for_each_r (enumerate pre) (fun '(i, pauli) hamiltonian =>
      bind (getitem interactions i) (fun c =>
      bind (operatorfromstring pauli) (fun op =>
      madd hamiltonian (mscale Cmul c op)))) (mzeros (2 ^ N)) = Ok H
    /\ square (2 ^ N) H
    /\ forall i j, i < 2 ^ N -> j < 2 ^ N ->
         entry C0 H i j
         = Csum (map (fun k => Cmul (nth k interactions C0)
                                 (string_entry (nth k pre EmptyString) i j))
                     (seq 0 (length pre))).
Proof.
  intros HN Hlen Hint.
  destruct (hamiltonian_loop N interactions HN (enumerate pre)
              (mzeros (2 ^ N)) (mzeros_square _)) as (H & EH & SH & HeH).
  { apply Forall_forall. intros ip Hip. apply in_enumerate in Hip.
    destruct Hip as [Hi Hp]. rewrite Forall_forall in Hlen.
    split; [now apply Hlen | lia]. }
  exists H. split; [exact EH | split; [exact SH|]].
  intros i j Hi Hj. rewrite (HeH i j Hi Hj), mzeros_entry.
  unfold Csum. f_equal.
  apply (map_enumerate (fun k p => Cmul (nth k interactions C0) (string_entry p i j))).
Qed.

(** [hamiltonian] on a list whose head has [N] characters. *)
Lemma hamiltonian_unfold (first : string) (rest : list string) (interactions : list C) :
  hamiltonian (first :: rest) interactions
  = for_each_r (enumerate (first :: rest)) (fun '(i, pauli) hamiltonian =>
      bind (getitem interactions i) (fun c =>
      bind (operatorfromstring pauli) (fun op =>
      madd hamiltonian (mscale Cmul c op)))) (mzeros (2 ^ String.length first)).
Proof. reflexivity. Qed.

(** *** Conjugation *)

Open Scope R_scope.

Lemma Cconj_mul (a b : C) : Cconj (Cmul a b) = Cmul (Cconj a) (Cconj b).
Proof. destruct a, b. unfold Cconj, Cmul. simpl. f_equal; ring. Qed.

Lemma Cconj_add (a b : C) : Cconj (Cadd a b) = Cadd (Cconj a) (Cconj b).
Proof. destruct a, b. unfold Cconj, Cadd. simpl. f_equal; ring. Qed.

Lemma Cconj_real (a : C) : snd a = 0 -> Cconj a = a.
Proof. destruct a as [x y]. unfold Cconj. simpl. intros ->. f_equal. ring. Qed.

Lemma Cconj_fold_mul (l : list C) :
  forall a, Cconj (fold_left Cmul l a) = fold_left Cmul (map Cconj l) (Cconj a).
Proof.
  induction l as [|x l IH]; intros a; simpl; [reflexivity|].
  now rewrite IH, Cconj_mul.
Qed.

Lemma Cconj_fold_add (l : list C) :
  forall a, Cconj (fold_left Cadd l a) = fold_left Cadd (map Cconj l) (Cconj a).
Proof.
  induction l as [|x l IH]; intros a; simpl; [reflexivity|].
  now rewrite IH, Cconj_add.
Qed.

Lemma digit_lt_2 (n p i : nat) : (digit n p i < 2)%nat.
Proof. unfold digit. apply Nat.mod_upper_bound. lia. Qed.

(** Each of the four constant arrays equals its conjugate transpose. *)
Lemma pauli_hermitian (c : ascii) (a b : nat) :
  (a < 2)%nat -> (b < 2)%nat ->
  entry C0 (pauli_of_char c) a b = Cconj (entry C0 (pauli_of_char c) b a).
Proof.
  intros Ha Hb. unfold pauli_of_char.
  destruct (c =? "X")%char; [|destruct (c =? "Y")%char; [|destruct (c =? "Z")%char]];
    destruct a as [|[|a]]; try lia; destruct b as [|[|b]]; try lia;
    unfold entry, Cconj, mX, mY, mZ, mI, C0, C1, Ci, Copp, RtoC; simpl;
    f_equal; ring.
Qed.

Lemma string_entry_hermitian (s : string) (i j : nat) :
  string_entry s i j = Cconj (string_entry s j i).
Proof.
  unfold string_entry, kron_entries, Cprod.
  rewrite Cconj_fold_mul, map_map.
  replace (Cconj C1) with C1 by (unfold Cconj, C1, RtoC; simpl; f_equal; ring).
  f_equal. apply map_ext_in. intros p Hp. apply in_seq in Hp.
  rewrite length_map in Hp.
  rewrite (nth_indep _ [] (pauli_of_char "I"%char)) by (rewrite length_map; lia).
  rewrite (map_nth pauli_of_char).
  apply pauli_hermitian; apply digit_lt_2.
Qed.

Lemma zip_with_mismatch {A B D : Type} (f : A -> B -> D) (la : list A) :
  forall lb, length la <> length lb -> zip_with f la lb = Raise ValueError.
Proof.
  induction la as [|a la IH]; intros [|b lb] H; simpl in *;
    try reflexivity; try congruence.
  rewrite IH; [reflexivity|congruence].
Qed.

Lemma madd_mismatch (A B : matrix C) :
  length A <> length B -> madd A B = Raise ValueError.
Proof.
  intros H. unfold madd, zip_with_r. now rewrite zip_with_mismatch.
Qed.

Lemma split_at {A : Type} (k : nat) (l : list A) :
  (k < length l)%nat ->
  exists pre x post, l = pre ++ x :: post /\ length pre = k.
Proof.
  intros H. exists (firstn k l).
  destruct (skipn k l) as [|x post] eqn:E.
  - apply (f_equal (@length A)) in E. rewrite length_skipn in E. simpl in E. lia.
  - exists x, post. split.
    + now rewrite <- E, firstn_skipn.
    + rewrite length_firstn. lia.
Qed.

Open Scope nat_scope.

(** X6. With real coefficients the array that [hamiltonian] returns
    equals its conjugate transpose, which is what [np.linalg.eigh] in
    [eigensolve] relies on.  Coefficients beyond the number of strings
    are not read. *)
Theorem hamiltonian_is_hermitian
    (N : nat) (pauli_list : list string) (interactions : list C) :
  pauli_list <> [] ->
  1 <= N ->
  Forall (fun s => String.length s = N) pauli_list ->
  length pauli_list <= length interactions ->
  Forall (fun c => snd c = 0%R) interactions ->
  exists H,
    hamiltonian pauli_list interactions = Ok H /\ hermitian (2 ^ N) H.
Proof.
  intros Hne HN Hlen Hint Hreal.
  destruct pauli_list as [|first rest]; [contradiction|].
  assert (HfN : String.length first = N).
  { rewrite Forall_forall in Hlen. apply Hlen. now left. }
  rewrite hamiltonian_unfold, HfN.
  destruct (hamiltonian_prefix N interactions (first :: rest) HN Hlen Hint)
    as (H & EH & SH & HeH).
  exists H. split; [exact EH|]. split; [exact SH|].
  intros i j Hi Hj. rewrite (HeH i j Hi Hj), (HeH j i Hj Hi).
  unfold Csum. rewrite Cconj_fold_add, map_map.
  replace (Cconj C0) with C0 by (unfold Cconj, C0, RtoC; simpl; f_equal; ring).
  f_equal. apply map_ext_in. intros k Hk. apply in_seq in Hk.
  rewrite Cconj_mul, <- string_entry_hermitian. f_equal.
  symmetry. apply Cconj_real.
  rewrite Forall_forall in Hreal. apply Hreal. apply nth_In. lia.
Qed.

(** Three strings of two characters; the fourth coefficient is not
    read. *)
Lemma hamiltonian_is_hermitian_example :
  exists H,
    hamiltonian ["ZI"; "XY"; "YY"]%string [C1; RtoC 2; RtoC (-1); RtoC 7] = Ok H
    /\ hermitian (2 ^ 2) H.
Proof.
  apply (hamiltonian_is_hermitian 2).
  - discriminate.
  - lia.
  - repeat constructor.
  - simpl. lia.
  - repeat constructor.
Defined.

(** X7. [hamiltonian] raises [IndexError] on an empty list of strings
    (it reads [pauli_list[0]]), and on strings of [N >= 1] characters
    when there are fewer coefficients than strings. *)
Theorem hamiltonian_raises_without_coefficient
    (N : nat) (pauli_list : list string) (interactions : list C) :
  1 <= N ->
  Forall (fun s => String.length s = N) pauli_list ->
  pauli_list = [] \/ length interactions < length pauli_list ->
  hamiltonian pauli_list interactions = Raise IndexError.
Proof.
  intros HN Hlen [->|Hint]; [reflexivity|].
  destruct (split_at (length interactions) pauli_list Hint)
    as (pre & s & post & Hpl & Hpre).
  destruct pauli_list as [|first rest]; [simpl in Hint; lia|].
  assert (HfN : String.length first = N).
  { rewrite Forall_forall in Hlen. apply Hlen. now left. }
  rewrite hamiltonian_unfold, HfN, Hpl.
  rewrite Hpl in Hlen. apply Forall_app in Hlen. destruct Hlen as [Hlen _].
  rewrite enumerate_app, for_each_r_app.
  destruct (hamiltonian_prefix N interactions pre HN Hlen ltac:(lia))
    as (H & EH & _).
  rewrite EH. cbn [bind length seq combine for_each_r].
  unfold getitem.
  replace (nth_error interactions (length pre)) with (@None C)
    by (symmetry; apply nth_error_None; lia).
  reflexivity.
Qed.

(** Two strings and one coefficient. *)
Lemma hamiltonian_raises_without_coefficient_example :
  hamiltonian ["ZI"; "XY"]%string [C1] = Raise IndexError.
Proof.
  apply (hamiltonian_raises_without_coefficient 2).
  - lia.
  - repeat constructor.
  - right. simpl. lia.
Defined.

(** X8. [hamiltonian] sizes its array from the first string: when a
    later string, of at least one character, has another length than
    the strings before it, the addition of its term raises
    [ValueError]. *)
Theorem hamiltonian_rejects_other_length
    (N : nat) (pre : list string) (s : string) (post : list string)
    (interactions : list C) :
  1 <= N ->
  pre <> [] ->
  Forall (fun p => String.length p = N) pre ->
  1 <= String.length s ->
  String.length s <> N ->
  length pre < length interactions ->
  hamiltonian (pre ++ s :: post) interactions = Raise ValueError.
Proof.
  intros HN Hne Hlen Hs HsN Hint.
  destruct pre as [|first pre']; [contradiction|].
  assert (HfN : String.length first = N).
  { rewrite Forall_forall in Hlen. apply Hlen. now left. }
  change ((first :: pre') ++ s :: post) with (first :: (pre' ++ s :: post)).
  rewrite hamiltonian_unfold, HfN.
  change (first :: (pre' ++ s :: post)) with ((first :: pre') ++ s :: post).
  rewrite enumerate_app, for_each_r_app.
  destruct (hamiltonian_prefix N interactions (first :: pre') HN Hlen ltac:(lia))
    as (H & EH & SH & _).
  rewrite EH. cbn [bind].
  change (length (s :: post)) with (S (length post)).
  cbn [seq combine for_each_r].
  rewrite (getitem_ok interactions _ C0 Hint). cbn [bind].
  destruct (operatorfromstring_entries s Hs) as (M & EM & SM & _).
  rewrite EM. cbn [bind].
  rewrite madd_mismatch; [reflexivity|].
  unfold mscale. rewrite length_map.
  destruct SH as [-> _]. destruct SM as [-> _].
  intros E. apply Nat.pow_inj_r in E; lia.
Qed.

(** A string of three characters after one of two. *)
Lemma hamiltonian_rejects_other_length_example :
  hamiltonian (["ZI"%string] ++ "XYZ"%string :: ["II"%string]) [C1; C1; C1] = Raise ValueError.
Proof.
  apply (hamiltonian_rejects_other_length 2).
  - lia.
  - discriminate.
  - repeat constructor.
  - simpl. lia.
  - simpl. lia.
  - simpl. lia.
Defined.

End DenseEdges.

(** ** [OperatorFromString] and [BuildHamiltonian] on any strings *)

Module SparseEdges.

Import NetKet BeH2 Kron PauliProduct DenseHamiltonian SparseHamiltonian.
Open Scope nat_scope.

(** The positions of a string that hold X, Y or Z, with the letter. *)
Definition pauli_positions (s : string) : list (nat * ascii) :=
  filter (fun kc => is_pauli (snd kc)) (enumerate (chars s)).

Lemma in_combine_seq {A : Type} (l : list A) :
  forall (a k : nat) (x : A),
    In (k, x) (combine (seq a (length l)) l)
    <-> a <= k /\ nth_error l (k - a) = Some x.
Proof.
  induction l as [|y l IH]; intros a k x; simpl.
  - split; [intros []|]. intros [_ H]. destruct (k - a); discriminate.
  - rewrite IH. split.
    + intros [E|[H1 H2]].
      * inversion E; subst. rewrite Nat.sub_diag. split; [lia|reflexivity].
      * split; [lia|]. replace (k - a) with (S (k - S a)) by lia. exact H2.
    + intros [H1 H2]. destruct (Nat.eq_dec a k) as [->|Hne].
      * rewrite Nat.sub_diag in H2. simpl in H2. left. congruence.
      * right. split; [lia|].
        replace (k - a) with (S (k - S a)) in H2 by lia. exact H2.
Qed.

Lemma in_enumerate_iff {A : Type} (l : list A) (k : nat) (x : A) :
  In (k, x) (enumerate l) <-> nth_error l k = Some x.
Proof.
  unfold enumerate. rewrite in_combine_seq, Nat.sub_0_r.
  split; [now intros [_ H]|]. intros H. split; [lia|exact H].
Qed.

Lemma sorted_filter_combine_seq {A : Type} (P : nat * A -> bool) (l : list A) :
  forall a : nat,
    StronglySorted lt (map fst (filter P (combine (seq a (length l)) l)))
    /\ Forall (fun k => a <= k) (map fst (filter P (combine (seq a (length l)) l))).
Proof.
  induction l as [|y l IH]; intros a; simpl.
  - split; constructor.
  - destruct (IH (S a)) as [S1 F1].
    assert (F2 : Forall (fun k => a < k)
                   (map fst (filter P (combine (seq (S a) (length l)) l)))).
    { eapply Forall_impl; [|exact F1]. simpl. intros; lia. }
    destruct (P (a, y)); simpl.
    + split; constructor; trivial.
      eapply Forall_impl; [|exact F1]. simpl. intros; lia.
    + split; [exact S1|].
      eapply Forall_impl; [|exact F1]. simpl. intros; lia.
Qed.

Lemma sorted_map_of_nat (l : list nat) :
  StronglySorted lt l -> StronglySorted Z.lt (map Z.of_nat l).
Proof.
  induction 1 as [|a l S IH F]; simpl; constructor; trivial.
  rewrite Forall_map. eapply Forall_impl; [|exact F]. simpl. intros; lia.
Qed.

Lemma has_pauli_positions (s : string) :
  has_pauli s = true <-> pauli_positions s <> [].
Proof.
  unfold has_pauli, pauli_positions. rewrite existsb_exists. split.
  - intros [c [Hc Pc]] E. apply In_nth_error in Hc. destruct Hc as [k Hk].
    apply in_enumerate_iff in Hk.
    assert (Hin : In (k, c) (filter (fun kc => is_pauli (snd kc))
                               (enumerate (chars s))))
      by (apply filter_In; split; assumption).
    rewrite E in Hin. destruct Hin.
  - intros H. destruct (filter _ _) as [|[k c] rest] eqn:E; [contradiction|].
    assert (Hin : In (k, c) (filter (fun kc => is_pauli (snd kc))
                               (enumerate (chars s))))
      by (rewrite E; now left).
    apply filter_In in Hin. destruct Hin as [Hin Pc].
    exists c. split; [|exact Pc]. apply in_enumerate_iff in Hin.
    eapply nth_error_In. exact Hin.
Qed.

(** X9. [OperatorFromString] on any string.  Without X, Y or Z in the
    string it raises [TypeError] ([reduce] of an empty list).
    Otherwise it returns the positions of the letters X, Y, Z, in
    increasing order, and the Kronecker product of their Pauli
    matrices, an array with [2^|Sites|] rows and columns; every other
    character is skipped. *)
Theorem OperatorFromString_keeps_the_pauli_positions (s : string) :
  match OperatorFromString s with
  | Raise e => e = TypeError /\ has_pauli s = false
  | Ok (sites, M) =>
      has_pauli s = true
      /\ sites = map (fun kc => Z.of_nat (fst kc)) (pauli_positions s)
      /\ StronglySorted Z.lt sites
      /\ (forall k, In (Z.of_nat k) sites <->
            exists c, nth_error (chars s) k = Some c /\ is_pauli c = true)
      /\ square (2 ^ length sites) M
      /\ forall i j, i < 2 ^ length sites -> j < 2 ^ length sites ->
           entry C0 M i j
           = kron_entries (map (fun kc => pauli_of_char (snd kc))
                               (pauli_positions s)) i j
  end.
Proof.
  unfold OperatorFromString. rewrite OperatorFromString_loop. simpl app.
  fold (pauli_positions s).
  destruct (pauli_positions s) as [|kc rest] eqn:E.
  - simpl. split; [reflexivity|].
    destruct (has_pauli s) eqn:Hp; [|reflexivity].
    apply has_pauli_positions in Hp. contradiction.
  - rewrite <- E.
    assert (Hsq : Forall (square 2)
                    (map (fun kc => pauli_of_char (snd kc)) (pauli_positions s))).
    { apply Forall_forall. intros m Hm. apply in_map_iff in Hm.
      destruct Hm as [kc' [<- _]]. apply pauli_square. }
    assert (Hlen : length (map (fun kc => Z.of_nat (fst kc)) (pauli_positions s))
                   = length (map (fun kc => pauli_of_char (snd kc))
                                 (pauli_positions s)))
      by now rewrite !length_map.
    destruct (map (fun kc => pauli_of_char (snd kc)) (pauli_positions s))
      as [|m ms] eqn:Eops.
    { rewrite E in Eops. discriminate. }
    destruct (reduce_kron m ms Hsq) as (M & EM & SM & HM).
    rewrite EM. cbn [bind].
    split; [apply has_pauli_positions; rewrite E; discriminate|].
    split; [reflexivity|]. split; [|split; [|split]].
    + rewrite <- (map_map fst Z.of_nat). apply sorted_map_of_nat.
      apply (sorted_filter_combine_seq _ (chars s) 0).
    + intros k. rewrite in_map_iff. split.
      * intros [[k' c] [Hk Hin]]. simpl in Hk. apply Nat2Z.inj in Hk. subst k'.
        apply filter_In in Hin. destruct Hin as [Hin Pc].
        exists c. split; [now apply in_enumerate_iff|exact Pc].
      * intros [c [Hk Pc]]. exists (k, c). split; [reflexivity|].
        apply filter_In. split; [now apply in_enumerate_iff|exact Pc].
    + rewrite Hlen. exact SM.
    + rewrite Hlen. exact HM.
Qed.

(** *** The loop of [BuildHamiltonian], one string at a time *)

Lemma body_agree (N : nat) (pauli pauli' : list string) (ints ints' : list C)
      (st : list string * result (LocalOperator C)) (h : nat) :
  nth_error pauli h = nth_error pauli' h ->
  nth_error ints h = nth_error ints' h ->
  BuildHamiltonian_body N pauli ints st h = BuildHamiltonian_body N pauli' ints' st h.
Proof.
  intros Ep Ei. unfold BuildHamiltonian_body, getitem. now rewrite Ep, Ei.
Qed.

Lemma fold_agree (N : nat) (pauli pauli' : list string) (ints ints' : list C)
      (hs : list nat) :
  (forall h, In h hs -> nth_error pauli h = nth_error pauli' h
                        /\ nth_error ints h = nth_error ints' h) ->
  forall st,
    fold_left (BuildHamiltonian_body N pauli ints) hs st
    = fold_left (BuildHamiltonian_body N pauli' ints') hs st.
Proof.
  induction hs as [|h hs IH]; intros H st; [reflexivity|].
  simpl. destruct (H h (or_introl eq_refl)) as [Ep Ei].
  rewrite (body_agree N pauli pauli' ints ints' st h Ep Ei).
  apply IH. intros h' Hh'. apply H. now right.
Qed.

(** The first turns of the loop only read the first strings and
    coefficients. *)
Lemma BuildHamiltonian_app (N : nat) (pre post : list string) (ipre ipost : list C) :
  length pre = length ipre ->
  BuildHamiltonian N (pre ++ post) (ipre ++ ipost)
  = fold_left (BuildHamiltonian_body N (pre ++ post) (ipre ++ ipost))
              (seq (length pre) (length post))
              (BuildHamiltonian N pre ipre).
Proof.
  intros Hlen. unfold BuildHamiltonian.
  rewrite length_app, seq_app, fold_left_app. simpl. f_equal.
  apply fold_agree. intros h Hh. apply in_seq in Hh.
  split; apply nth_error_app1; lia.
Qed.

(** After an exception the loop is over. *)
Lemma raise_sticks (N : nat) (pauli : list string) (ints : list C)
      (hs : list nat) (calls : list string) (e : exn) :
  fold_left (BuildHamiltonian_body N pauli ints) hs (calls, Raise e)
  = (calls, Raise e).
Proof. induction hs as [|h hs IH]; [reflexivity|]. simpl. exact IH. Qed.

Lemma find_flag_prefix (N : nat) (cs : list ascii) :
  N <= length cs ->
  find_flag cs (seq 0 N) = Ok (if forallb is_I (firstn N cs) then 0%Z else 1%Z).
Proof.
  intros H. rewrite <- (firstn_skipn N cs) at 1.
  assert (L : length (firstn N cs) = N) by (rewrite length_firstn; lia).
  revert L. generalize (firstn N cs) as pre. generalize (skipn N cs) as rest.
  intros rest pre <-. clear.
  assert (G : forall front : list ascii,
             find_flag (front ++ pre ++ rest) (seq (length front) (length pre))
             = Ok (if forallb is_I pre then 0%Z else 1%Z)).
  { induction pre as [|c pre IH]; intros front; [reflexivity|].
    simpl. unfold getitem. rewrite nth_error_app2, Nat.sub_diag by lia. simpl.
    fold (is_I c). destruct (is_I c); simpl; [|reflexivity].
    specialize (IH (front ++ [c])). rewrite <- app_assoc, length_app in IH.
    simpl in IH. now rewrite Nat.add_1_r in IH. }
  apply (G []).
Qed.

Lemma find_flag_short (N : nat) (cs : list ascii) :
  length cs < N -> forallb is_I cs = true ->
  find_flag cs (seq 0 N) = Raise IndexError.
Proof.
  intros H HI.
  assert (G : forall (front : list ascii) (n : nat),
             length cs < n ->
             find_flag (front ++ cs) (seq (length front) n) = Raise IndexError).
  { clear H. induction cs as [|c cs IH]; intros front n Hn.
    - destruct n as [|n]; [simpl in Hn; lia|]. simpl. unfold getitem.
      replace (nth_error (front ++ []) (length front)) with (@None ascii);
        [reflexivity|].
      symmetry. apply nth_error_None. rewrite app_nil_r. lia.
    - destruct n as [|n]; [simpl in Hn; lia|].
      simpl in HI. apply andb_true_iff in HI. destruct HI as [Hc HI].
      simpl. unfold getitem. rewrite nth_error_app2, Nat.sub_diag by lia. simpl.
      fold (is_I c). rewrite Hc. simpl.
      specialize (IH HI (front ++ [c]) n). rewrite <- app_assoc, length_app in IH.
      simpl in IH. rewrite Nat.add_1_r in IH. apply IH. simpl in Hn. lia. }
  apply (G [] N H).
Qed.

(** X10. [BuildHamiltonian] sorts a string by its first [N] characters
    only.  When these are all I, the term added is the constant
    [np.real(interactions[h])]: [OperatorFromString] is not called,
    letters beyond position [N] are not looked at, and the imaginary
    part of the coefficient is dropped. *)
Theorem BuildHamiltonian_reads_the_first_N_characters
    (N : nat) (pre : list string) (ipre : list C) (p : string) (c : C) :
  length pre = length ipre ->
  N <= String.length p ->
  forallb is_I (firstn N (chars p)) = true ->
  BuildHamiltonian N (pre ++ [p]) (ipre ++ [c])
  = (fst (BuildHamiltonian N pre ipre),
     bind (snd (BuildHamiltonian N pre ipre)) (fun H =>
     Ok (Add H (Const (RtoC (Cre c)))))).
Proof.
  intros Hlen HN HI. rewrite (BuildHamiltonian_app N pre [p] ipre [c] Hlen).
  cbn [length seq fold_left].
  destruct (BuildHamiltonian N pre ipre) as [calls [H|e]]; [|reflexivity].
  unfold BuildHamiltonian_body, getitem.
  rewrite nth_error_app2, Nat.sub_diag by lia.
  rewrite Hlen, nth_error_app2, Nat.sub_diag by lia. cbn [nth_error bind].
  rewrite find_flag_prefix by (now rewrite length_chars).
  rewrite HI. reflexivity.
Qed.

(** With [N = 2] the string IIX counts as the identity. *)
Lemma BuildHamiltonian_reads_the_first_N_characters_example :
  BuildHamiltonian 2 (["ZI"%string] ++ ["IIX"%string]) ([C1] ++ [(3, 4)%R])
  = (fst (BuildHamiltonian 2 ["ZI"%string] [C1]),
     bind (snd (BuildHamiltonian 2 ["ZI"%string] [C1])) (fun H =>
     Ok (Add H (Const (RtoC (Cre (3, 4)%R)))))).
Proof.
  apply BuildHamiltonian_reads_the_first_N_characters; reflexivity || (simpl; lia).
Defined.

(** X11. After Pauli strings of [N] characters, a string of fewer than
    [N] characters that are all I makes [BuildHamiltonian] raise
    [IndexError]: the loop that sets [flag] reads [pauli[h][j]] for
    every [j < N]. *)
Theorem BuildHamiltonian_raises_on_short_identity_string
    (N : nat) (pre : list string) (p : string) (post : list string)
    (ipre irest : list C) :
  Forall (fun q => String.length q = N /\ pauli_string q) pre ->
  length ipre = length pre ->
  String.length p < N ->
  all_I p = true ->
  snd (BuildHamiltonian N (pre ++ p :: post) (ipre ++ irest)) = Raise IndexError.
Proof.
  intros Hpre Hlen Hp HI.
  rewrite (BuildHamiltonian_app N pre (p :: post) ipre irest) by congruence.
  rewrite (BuildHamiltonian_run N pre ipre Hpre Hlen).
  cbn [length seq fold_left].
  unfold BuildHamiltonian_body at 2. unfold getitem.
  rewrite nth_error_app2, Nat.sub_diag by lia. cbn [nth_error bind].
  rewrite find_flag_short by (rewrite ?length_chars; assumption).
  now rewrite raise_sticks.
Qed.

(** The string I where two characters are expected. *)
Lemma BuildHamiltonian_raises_on_short_identity_string_example :
  snd (BuildHamiltonian 2 (["ZI"%string] ++ "I"%string :: ["XX"%string])
         ([C1] ++ [C1; C1]))
  = Raise IndexError.
Proof.
  apply BuildHamiltonian_raises_on_short_identity_string.
  - pauli_strings.
  - reflexivity.
  - simpl. lia.
  - reflexivity.
Defined.

(** X12. On Pauli strings of [N] characters with fewer coefficients
    than strings, [BuildHamiltonian] raises [IndexError]. *)
Theorem BuildHamiltonian_raises_without_coefficient
    (N : nat) (pauli : list string) (interactions : list C) :
  Forall (fun q => String.length q = N /\ pauli_string q) pauli ->
  length interactions < length pauli ->
  snd (BuildHamiltonian N pauli interactions) = Raise IndexError.
Proof.
  intros Hp Hlen.
  destruct (DenseEdges.split_at (length interactions) pauli Hlen)
    as (pre & p & post & -> & Hpre).
  apply Forall_app in Hp. destruct Hp as [Hp Hrest].
  destruct (Forall_inv Hrest) as [HpN Hps].
  rewrite <- (app_nil_r interactions) at 1.
  rewrite (BuildHamiltonian_app N pre (p :: post) interactions []) by congruence.
  rewrite (BuildHamiltonian_run N pre interactions Hp) by congruence.
  cbn [length seq fold_left].
  unfold BuildHamiltonian_body at 2. unfold getitem.
  rewrite nth_error_app2, Nat.sub_diag by lia. cbn [nth_error bind].
  rewrite (find_flag_string N p HpN).
  replace (nth_error (interactions ++ []) (length pre)) with (@None C)
    by (symmetry; apply nth_error_None; rewrite app_nil_r; lia).
  rewrite (all_I_has_pauli p Hps).
  destruct (has_pauli p) eqn:Ehp; cbn [negb Z.eqb].
  - destruct (OperatorFromString_ok p Hps Ehp) as (M & EM & _).
    rewrite EM. cbn [bind]. now rewrite raise_sticks.
  - cbn [bind]. now rewrite raise_sticks.
Qed.

(** Two strings and one coefficient. *)
Lemma BuildHamiltonian_raises_without_coefficient_example :
  snd (BuildHamiltonian 2 ["ZI"; "XY"]%string [C1]) = Raise IndexError.
Proof.
  apply BuildHamiltonian_raises_without_coefficient.
  - pauli_strings.
  - simpl. lia.
Defined.

End SparseEdges.

(** ** Loading the training data: refused files *)

Module LoadDataEdges.

Import NetKet BeH2 DenseHamiltonian LoadDataFacts.
Open Scope nat_scope.

(** X13. [LoadData] of the BeH2 notebook asserts that the samples have
    [N] columns: a file of at least two rows of [cols >= 2] numbers
    with [cols <> N] raises [AssertionError], whatever the bases file
    holds. *)
Theorem LoadData_asserts_the_number_of_columns
    {A : Type} (N cols : nat) (samples_file : list (list A)) (lines : list string) :
  2 <= length samples_file ->
  2 <= cols ->
  Forall (fun r => length r = cols) samples_file ->
  N <> cols ->
  LoadData N samples_file lines = Raise AssertionError.
Proof.
  intros Hrows Hc Hcols HN. unfold LoadData.
  rewrite (loadtxt_2d cols samples_file Hrows Hc Hcols). cbn [bind].
  destruct samples_file as [|r rest]; [simpl in Hrows; lia|].
  cbn [shape1 bind].
  rewrite (Forall_inv Hcols).
  destruct (Nat.eqb_spec N cols) as [E|_]; [contradiction|reflexivity].
Qed.

(** Rows of three numbers where two are expected. *)
Lemma LoadData_asserts_the_number_of_columns_example :
  LoadData 2 [[0; 1; 1]; [1; 1; 0]]%Z ["ZZ" ++ newline; "XZ" ++ newline]%string
  = Raise AssertionError.
Proof.
  apply (LoadData_asserts_the_number_of_columns 2 3); try (simpl; lia).
  repeat constructor.
Defined.

(** X14. [LoadData] asserts that every line of the bases file has
    [N + 1] characters, the basis and the end of line: the first line
    of another length, such as a last line without its end of line,
    raises [AssertionError]. *)
Theorem LoadData_asserts_the_line_length
    {A : Type} (N : nat) (samples_file : list (list A))
    (pre : list string) (b : string) (post : list string) :
  2 <= length samples_file ->
  2 <= N ->
  Forall (fun r => length r = N) samples_file ->
  Forall (fun l => String.length l = N + 1) pre ->
  String.length b <> N + 1 ->
  LoadData N samples_file (pre ++ b :: post) = Raise AssertionError.
Proof.
  intros Hrows HN Hcols Hpre Hb. unfold LoadData.
  rewrite (loadtxt_2d N samples_file Hrows HN Hcols). cbn [bind].
  destruct samples_file as [|r rest] eqn:Ef; [simpl in Hrows; lia|].
  cbn [shape1 bind]. rewrite (Forall_inv Hcols), Nat.eqb_refl. cbn [py_assert bind].
  rewrite DenseEdges.for_each_r_app.
  rewrite (bases_loop N pre Hpre []). cbn [bind for_each_r].
  destruct (Nat.eqb_spec (String.length b) (N + 1)) as [E|_]; [contradiction|].
  reflexivity.
Qed.

(** The second line has lost its end of line. *)
Lemma LoadData_asserts_the_line_length_example :
  LoadData 2 [[0; 1]; [1; 1]]%Z (["ZZ" ++ newline]%string ++ "XZ"%string :: [])
  = Raise AssertionError.
Proof.
  apply LoadData_asserts_the_line_length; try (simpl; lia); repeat constructor.
Defined.

(** X15. [LoadData] of the Rydberg notebook returns the loaded array
    unchanged, one index 0 per entry of its first axis, and as many
    operators, each the identity.  For a file of at least two rows of
    at least two numbers that is one per row; a file of one row is
    loaded as a vector, and there is one per number of that row; a
    file of a single number raises [TypeError]. *)
Theorem tomography_LoadData_returns_identity_rotations
    {A : Type} (samples_file : list (list A)) :
  (forall rots samples bases,
      RydbergData.LoadData samples_file = Ok (rots, samples, bases) ->
      loadtxt samples_file = Ok samples
      /\ exists n, ndlen samples = Ok n
           /\ rots = repeat (Const 1%R) n /\ bases = repeat 0%Z n)
  /\ (forall cols, 2 <= length samples_file -> 2 <= cols ->
        Forall (fun r => length r = cols) samples_file ->
        RydbergData.LoadData samples_file
        = Ok (repeat (Const 1%R) (length samples_file), Arr2 samples_file,
              repeat 0%Z (length samples_file)))
  /\ (forall r, 2 <= length r -> samples_file = [r] ->
        RydbergData.LoadData samples_file
        = Ok (repeat (Const 1%R) (length r), Arr1 r, repeat 0%Z (length r)))
  /\ (forall x, samples_file = [[x]] ->
        RydbergData.LoadData samples_file = Raise TypeError).
Proof.
  assert (Hloop : forall n (tb : list Z) (rots : list (LocalOperator R)) a,
            for_each (seq a n) (fun (i : nat) '(training_bases, rotations) =>
                (training_bases ++ [0%Z], rotations ++ [Const 1%R])) (tb, rots)
            = (tb ++ repeat 0%Z n, rots ++ repeat (Const 1%R) n)).
  { unfold for_each. induction n as [|n IH]; intros tb rots a; simpl.
    - now rewrite !app_nil_r.
    - rewrite IH, <- !app_assoc. reflexivity. }
  assert (Hrun : forall samples, loadtxt samples_file = Ok samples ->
            RydbergData.LoadData samples_file
            = bind (ndlen samples) (fun n =>
                Ok (repeat (Const 1%R) n, samples, repeat 0%Z n))).
  { intros samples E. unfold RydbergData.LoadData. rewrite E. cbn [bind].
    destruct (ndlen samples) as [n|e]; [|reflexivity]. cbn [bind].
    now rewrite Hloop. }
  split; [|split; [|split]].
  - intros rots samples bases E.
    destruct (loadtxt samples_file) as [s|e] eqn:El.
    + rewrite (Hrun s eq_refl) in E.
      destruct (ndlen s) as [n|e] eqn:En; [|discriminate].
      cbn [bind] in E. inversion E; subst.
      split; [reflexivity|]. exists n. rewrite En. repeat split.
    + unfold RydbergData.LoadData in E. rewrite El in E. discriminate.
  - intros cols Hrows Hc Hcols.
    rewrite (Hrun _ (loadtxt_2d cols samples_file Hrows Hc Hcols)). reflexivity.
  - intros r Hr ->.
    assert (El : loadtxt [r] = Ok (Arr1 r)).
    { destruct r as [|x [|y r]]; simpl in Hr; try lia. reflexivity. }
    rewrite (Hrun _ El). reflexivity.
  - intros x ->. reflexivity.
Qed.

(** A file of three rows, a file of one row and a file of one number. *)
Lemma tomography_LoadData_returns_identity_rotations_example :
  RydbergData.LoadData [[0; 1]; [1; 1]; [0; 0]]%Z
  = Ok (repeat (Const 1%R) 3, Arr2 [[0; 1]; [1; 1]; [0; 0]]%Z, repeat 0%Z 3)
  /\ RydbergData.LoadData [[0; 1; 1; 0]]%Z
     = Ok (repeat (Const 1%R) 4, Arr1 [0; 1; 1; 0]%Z, repeat 0%Z 4)
  /\ RydbergData.LoadData [[1%Z]] = Raise TypeError.
Proof.
  destruct (tomography_LoadData_returns_identity_rotations [[0; 1]; [1; 1]; [0; 0]]%Z)
    as (_ & H2 & _).
  destruct (tomography_LoadData_returns_identity_rotations [[0; 1; 1; 0]]%Z)
    as (_ & _ & H3 & _).
  destruct (tomography_LoadData_returns_identity_rotations [[1%Z]])
    as (_ & _ & _ & H4).
  split; [|split].
  - apply (H2 2); try (simpl; lia). repeat constructor.
  - apply (H3 [0; 1; 1; 0]%Z); [simpl; lia|reflexivity].
  - apply (H4 1%Z). reflexivity.
Defined.

End LoadDataEdges.

(** ** [sample] returns a batch, and the batch goes through
    [logpsi] and [localenergy] *)

Module Sampling.

Import VMC Amplitude LocalEnergy Autoregressive.
Open Scope R_scope.

Section Run.

Variable rng : Type.
Variable categorical : rng -> list (R * R) -> list Z * rng.
Variable ly : layers.
Variable nsamples : Z.

(** [tf.random.categorical(logits, num_samples=1)] draws one class,
    0 or 1, for every row of [logits]. *)
Hypothesis draws_length :
  forall g logits, length (fst (categorical g logits)) = length logits.
Hypothesis draws_binary :
  forall g logits, binary (fst (categorical g logits)).

(** What the network computes for the rows before a draw. *)
Definition logits_of (rs : list row_state) : list (R * R) :=
  map (fun r => log_eps (dense_fn ly (gru_cell ly (rx r) (rh r)))) rs.

Lemma sample_body_runs (k : nat) (rs : list row_state) (g : rng) :
  Z.of_nat (length rs) = nsamples ->
  (k = 0%nat -> Forall (fun r => rpre r = []) rs) ->
  sample_body categorical ly nsamples (Z.of_nat k) (st_of rng k rs g)
  = Ok (st_of rng (S k)
          (rows_step ly rs (fst (categorical g (logits_of rs))))
          (snd (categorical g (logits_of rs)))).
Proof.
  intros Hns Hpre. unfold sample_body.
  cbn [st_of st_inputs st_hidden st_logP st_samples st_rng].
  rewrite rnn_single. cbn [bind].
  unfold dense. rewrite !map_map. cbn [map].
  rewrite (reshape_singletons nsamples
             (fun r => log_eps (dense_fn ly (gru_cell ly (rx r) (rh r))))).
  rewrite Hns, Z.eqb_refl. cbn [bind]. fold (logits_of rs).
  pose proof (draws_length g (logits_of rs)) as Hlen.
  destruct (categorical g (logits_of rs)) as [ds g'] eqn:Hcat.
  cbn [fst snd] in *. unfold logits_of in Hlen. rewrite length_map in Hlen.
  rewrite (reshape_singletons nsamples one_hot ds).
  replace (Z.of_nat (length ds)) with nsamples by lia. rewrite Z.eqb_refl.
  unfold rows_step.
  set (cs := combine rs ds) in *.
  assert (Ers : rs = map fst cs) by (symmetry; now apply fst_combine).
  assert (Eds : ds = map snd cs) by (symmetry; now apply snd_combine).
  clearbody cs. subst rs ds. clear Hcat Hns Hlen.
  unfold logits_of. rewrite !map_map.
  destruct k as [|k].
  - change (Z.of_nat 0 =? 0)%Z with true. cbn [bind].
    rewrite zip_with_map. cbn [bind].
    rewrite zip_with_map. cbn [bind].
    unfold st_of. cbn [Nat.eqb]. rewrite !map_map. cbn [row_step rx rh rlp rpre].
    do 3 f_equal. apply map_ext_in. intros p Hp.
    specialize (Hpre eq_refl). rewrite Forall_forall in Hpre.
    rewrite (Hpre (fst p)); [reflexivity|]. now apply in_map.
  - destruct (Z.eqb_spec (Z.of_nat (S k)) 0) as [|_]; [lia|].
    cbn [Nat.eqb]. rewrite zip_with_map. cbn [bind].
    rewrite zip_with_map. cbn [bind].
    rewrite zip_with_map. cbn [bind].
    unfold st_of. cbn [Nat.eqb]. rewrite !map_map. reflexivity.
Qed.

(** Every row holds [k] drawn entries, each 0 or 1. *)
Definition drawn (k : nat) (rs : list row_state) : Prop :=
  Forall (fun r => length (rpre r) = k /\ binary (rpre r)) rs.

Lemma rows_step_drawn (k : nat) (rs : list row_state) (ds : list Z) :
  drawn k rs -> binary ds -> length ds = length rs ->
  drawn (S k) (rows_step ly rs ds) /\ length (rows_step ly rs ds) = length rs.
Proof.
  intros Hrs Hds Hlen. unfold rows_step. split.
  - apply Forall_forall. intros r' Hr'. apply in_map_iff in Hr'.
    destruct Hr' as [[r d] [<- Hin]]. cbn [fst snd row_step rpre].
    unfold drawn in Hrs. rewrite Forall_forall in Hrs.
    destruct (Hrs r (in_combine_l _ _ _ _ Hin)) as [Hl Hb].
    split; [rewrite length_app; simpl; lia|].
    apply Forall_app. split; [exact Hb|]. constructor; [|constructor].
    unfold binary in Hds. rewrite Forall_forall in Hds.
    apply Hds. eapply in_combine_r. exact Hin.
  - rewrite length_map, length_combine. lia.
Qed.

Lemma sample_loop_runs (m : nat) :
  forall (k : nat) (rs : list row_state) (g : rng),
    Z.of_nat (length rs) = nsamples ->
    drawn k rs ->
    exists rs' g',
      for_each_r (map Z.of_nat (seq k m)) (sample_body categorical ly nsamples)
                 (st_of rng k rs g) = Ok (st_of rng (k + m) rs' g')
      /\ length rs' = length rs /\ drawn (k + m) rs'.
Proof.
  induction m as [|m IH]; intros k rs g Hns Hrs.
  - exists rs, g. rewrite Nat.add_0_r. simpl. auto.
  - cbn [seq map for_each_r]. rewrite sample_body_runs; trivial.
    2:{ intros ->. eapply Forall_impl; [|exact Hrs]. simpl.
        intros r [Hl _]. now apply length_zero_iff_nil. }
    cbn [bind].
    set (ds := fst (categorical g (logits_of rs))).
    assert (Hlen : length ds = length rs).
    { unfold ds. rewrite draws_length. unfold logits_of. apply length_map. }
    destruct (rows_step_drawn k rs ds Hrs (draws_binary _ _) Hlen) as [Hd Hl].
    destruct (IH (S k) (rows_step ly rs ds) (snd (categorical g (logits_of rs))))
      as (rs' & g' & E & Hl' & Hd'); [lia|exact Hd|].
    exists rs', g'. rewrite Nat.add_succ_r. split; [exact E|].
    split; [lia|exact Hd'].
Qed.

Lemma sample_runs (self : vmc) (g : rng) :
  (0 <= nsamples)%Z -> (1 <= N self)%Z ->
  exists samples logP g',
    sample categorical self ly g nsamples = Ok (samples, logP, g')
    /\ length samples = Z.to_nat nsamples
    /\ length logP = Z.to_nat nsamples
    /\ Forall (fun s => length s = Z.to_nat (N self) /\ binary s) samples.
Proof.
  intros Hns HN. unfold sample, zeros.
  destruct (Z.ltb_spec nsamples 0) as [|_]; [lia|]. cbn [bind].
  set (ns := Z.to_nat nsamples).
  set (r0 := mkRow (scale2 0 (one_hot 0)) (repeat 0 (nh ly)) 0 []).
  assert (E0 : mkSampleState (repeat [scale2 0 (one_hot 0)] ns)
                 (repeat (repeat 0 (nh ly)) ns) (repeat 0 ns) None g
               = st_of rng 0%nat (repeat r0 ns) g).
  { unfold st_of. now rewrite !map_repeat. }
  rewrite E0. unfold range.
  destruct (sample_loop_runs (Z.to_nat (N self)) 0%nat (repeat r0 ns) g)
    as (rs' & g' & E & Hl & Hd).
  { rewrite repeat_length. unfold ns. lia. }
  { apply Forall_forall. intros r Hr. apply repeat_spec in Hr. subst r.
    split; [reflexivity|constructor]. }
  rewrite E. cbn [bind st_of st_samples st_logP st_rng].
  destruct (0 + Z.to_nat (N self))%nat eqn:Em; [lia|]. cbn [Nat.eqb].
  exists (map rpre rs'), (map rlp rs'), g'.
  rewrite !length_map, Hl, repeat_length.
  split; [reflexivity|]. split; [reflexivity|]. split; [reflexivity|].
  apply Forall_forall. intros s Hs. apply in_map_iff in Hs.
  destruct Hs as [r [<- Hr]]. unfold drawn in Hd. rewrite Forall_forall in Hd.
  destruct (Hd r Hr) as [H1 H2]. split; [lia|exact H2].
Qed.

End Run.

Lemma combine_map_r {A B : Type} (f : A -> B) (l : list A) :
  combine l (map f l) = map (fun a => (a, f a)) l.
Proof. induction l as [|a l IH]; simpl; [reflexivity|]. now rewrite IH. Qed.

(** X16. [sample] returns.  When the generator draws one class, 0 or
    1, for every row of its logits, then for every [nsamples >= 0] and
    every object with [N >= 1], [sample(nsamples)] returns [nsamples]
    rows of [N] entries, each 0 or 1, and [nsamples] log-probabilities.
    With [N <= 0] the loop has no turn and the [return] finds
    [samples] unassigned. *)
Theorem sample_returns_a_batch
    (rng : Type) (categorical : rng -> list (R * R) -> list Z * rng)
    (self : vmc) (ly : layers) (g : rng) (nsamples : Z) :
  (forall g logits, length (fst (categorical g logits)) = length logits) ->
  (forall g logits, binary (fst (categorical g logits))) ->
  (0 <= nsamples)%Z ->
  ((1 <= N self)%Z ->
   exists samples logP g',
     sample categorical self ly g nsamples = Ok (samples, logP, g')
     /\ length samples = Z.to_nat nsamples
     /\ length logP = Z.to_nat nsamples
     /\ Forall (fun s => length s = Z.to_nat (N self) /\ binary s) samples)
  /\ ((N self <= 0)%Z ->
      sample categorical self ly g nsamples = Raise UnboundLocalError).
Proof.
  intros Hlen Hbin Hns. split.
  - intros HN. now apply sample_runs.
  - intros HN. unfold sample, zeros.
    destruct (Z.ltb_spec nsamples 0) as [|_]; [lia|]. cbn [bind].
    unfold range. replace (Z.to_nat (N self)) with 0%nat by lia.
    reflexivity.
Qed.

Lemma draw_ones_length (g : unit) (logits : list (R * R)) :
  length (fst (draw_ones g logits)) = length logits.
Proof. unfold draw_ones. simpl. apply length_map. Qed.

Lemma draw_ones_binary (g : unit) (logits : list (R * R)) :
  binary (fst (draw_ones g logits)).
Proof.
  unfold draw_ones, binary. simpl. apply Forall_forall. intros d Hd.
  apply in_map_iff in Hd. destruct Hd as [? [<- _]]. now right.
Qed.

(** Three samples on the 2-by-2 lattice, from a generator that always
    draws 1; and the lattice without sites. *)
Lemma sample_returns_a_batch_example :
  (exists samples logP g',
     sample draw_ones (init 2 2 7 1 1) example_layers tt 3 = Ok (samples, logP, g')
     /\ length samples = Z.to_nat 3
     /\ length logP = Z.to_nat 3
     /\ Forall (fun s => length s = Z.to_nat (N (init 2 2 7 1 1)) /\ binary s)
               samples)
  /\ sample draw_ones (init 0 2 7 1 1) example_layers tt 3
     = Raise UnboundLocalError.
Proof.
  split.
  - apply (sample_returns_a_batch unit draw_ones (init 2 2 7 1 1) example_layers tt 3
             draw_ones_length draw_ones_binary); [lia|].
    rewrite LatticeFacts.vmc_closed. simpl. lia.
  - apply (sample_returns_a_batch unit draw_ones (init 0 2 7 1 1) example_layers tt 3
             draw_ones_length draw_ones_binary); [lia|].
    rewrite LatticeFacts.vmc_closed. simpl. lia.
Defined.

(** X17. The three calls of a training step fit together.  On a
    lattice with [Lx >= 1] and [Ly >= 1], the batch that
    [sample(nsamples)] returns is accepted by [logpsi], and
    [localenergy] called with the batch and that result returns, for
    every row [s], the diagonal energy of [s] minus
    [0.5 * Omega * sum_j exp(logpsi(flip_j(s)) - logpsi(s))]. *)
Theorem sampled_batch_has_local_energies
    (rng : Type) (categorical : rng -> list (R * R) -> list Z * rng)
    (Lx Ly : Z) (V Omega delta : R) (ly : layers) (g : rng) (nsamples : Z) :
  (forall g logits, length (fst (categorical g logits)) = length logits) ->
  (forall g logits, binary (fst (categorical g logits))) ->
  (1 <= Lx)%Z -> (1 <= Ly)%Z -> (0 <= nsamples)%Z ->
  let self := init Lx Ly V Omega delta in
  exists samples logP g' logpsi_v,
    sample categorical self ly g nsamples = Ok (samples, logP, g')
    /\ logpsi self ly samples = Ok logpsi_v
    /\ length logpsi_v = Z.to_nat nsamples
    /\ forall (h : heap) (samples_ref : ref),
         nth_error h samples_ref = Some samples ->
         fst (localenergy self ly samples_ref logpsi_v h)
         = Ok (map (fun s => local_energy_value self ly s (amplitude self ly s))
                   samples).
Proof.
  intros Hlen Hbin HLx HLy Hns self.
  assert (HN : (1 <= N self)%Z).
  { subst self. rewrite LatticeFacts.vmc_closed. simpl. nia. }
  destruct (sample_runs rng categorical ly nsamples Hlen Hbin self g Hns HN)
    as (samples & logP & g' & E & Hs & Hl & Hrows).
  exists samples, logP, g', (map (amplitude self ly) samples).
  split; [exact E|].
  assert (Hrl : Forall (fun s => length s = Z.to_nat (N self)) samples).
  { eapply Forall_impl; [|exact Hrows]. now intros s [H _]. }
  split; [now apply logpsi_rows|]. split; [now rewrite length_map|].
  intros h samples_ref Hh.
  assert (Hv : forall l, Forall (LatticeBounds.valid_bond (N self)) l ->
                         Forall (in_lattice (N self)) l).
  { intros l. apply Forall_impl. intros b (_ & Ha & Hb). now split. }
  rewrite (localenergy_batch self ly samples_ref samples
             (map (amplitude self ly) samples) Hrows (length_map _ _) h);
    trivial.
  - now rewrite combine_map_r, map_map.
  - apply Hv. subst self. rewrite LatticeFacts.vmc_closed. simpl.
    apply LatticeBounds.nn_valid.
  - apply Hv. subst self. rewrite LatticeFacts.vmc_closed. simpl.
    apply LatticeBounds.nnn_valid.
  - apply Hv. subst self. rewrite LatticeFacts.vmc_closed. simpl.
    apply LatticeBounds.nnnn_valid.
Qed.

(** Three samples on the 2-by-2 lattice. *)
Lemma sampled_batch_has_local_energies_example :
  let self := init 2 2 7 1 1 in
  exists samples logP g' logpsi_v,
    sample draw_ones self example_layers tt 3 = Ok (samples, logP, g')
    /\ logpsi self example_layers samples = Ok logpsi_v
    /\ length logpsi_v = Z.to_nat 3
    /\ forall (h : heap) (samples_ref : ref),
         nth_error h samples_ref = Some samples ->
         fst (localenergy self example_layers samples_ref logpsi_v h)
         = Ok (map (fun s => local_energy_value self example_layers s
                               (amplitude self example_layers s))
                   samples).
Proof.
  apply (sampled_batch_has_local_energies unit draw_ones 2 2 7 1 1 example_layers tt 3
           draw_ones_length draw_ones_binary); lia.
Defined.

End Sampling.

(** ** The network defines a normalised wavefunction *)

Module Normalisation.

Import NetKet VMC Amplitude LocalEnergy Autoregressive.
Open Scope R_scope.

Lemma in_configs (n : nat) (s : config) :
  In s (configs n) <-> length s = n /\ binary s.
Proof.
  revert s. induction n as [|n IH]; intros s; simpl.
  - split.
    + intros [<-|[]]. split; [reflexivity|constructor].
    + intros [H _]. left. symmetry. now apply length_zero_iff_nil.
  - rewrite in_flat_map. split.
    + intros [t [Ht Hs]]. apply IH in Ht. destruct Ht as [Hl Hb].
      destruct Hs as [<-|[<-|[]]]; simpl; (split; [lia|]);
        constructor; auto.
    + intros [Hl Hb]. destruct s as [|d t]; [discriminate|].
      inversion Hb as [|? ? Hd Ht]; subst. exists t. split.
      * apply IH. split; [simpl in Hl; lia|exact Ht].
      * destruct Hd as [->| ->]; [left|right; left]; reflexivity.
Qed.

Lemma NoDup_configs (n : nat) : NoDup (configs n).
Proof.
  induction n as [|n IH]; simpl; [repeat constructor; intros []|].
  apply LatticeGeometry.NoDup_flat_map.
  - exact IH.
  - intros t _. constructor; [|constructor; [intros []|constructor]].
    intros [E|[]]. discriminate.
  - intros t t' s _ _ Hs Hs'.
    destruct Hs as [<-|[<-|[]]]; destruct Hs' as [E|[E|[]]]; congruence.
Qed.

Lemma Rsum_app (l1 l2 : list R) : Rsum (l1 ++ l2) = Rsum l1 + Rsum l2.
Proof.
  unfold Rsum. induction l1 as [|x l1 IH]; simpl; [ring|]. rewrite IH. ring.
Qed.

Lemma Rsum_perm (l1 l2 : list R) : Permutation l1 l2 -> Rsum l1 = Rsum l2.
Proof.
  unfold Rsum. induction 1; simpl; lra.
Qed.

Lemma Rsum_flat_map_pair {A : Type} (f : list A -> R) (a b : A) (l : list (list A)) :
  Rsum (map f (flat_map (fun t => [a :: t; b :: t]) l))
  = Rsum (map (fun t => f (a :: t) + f (b :: t)) l).
Proof.
  unfold Rsum. induction l as [|t l IH]; simpl; [reflexivity|].
  rewrite IH. ring.
Qed.

Lemma Rsum_plus {A : Type} (f g : A -> R) (l : list A) :
  Rsum (map (fun t => f t + g t) l) = Rsum (map f l) + Rsum (map g l).
Proof.
  unfold Rsum. induction l as [|t l IH]; simpl; [ring|]. rewrite IH. ring.
Qed.

Lemma eps_pos : 0 < eps.
Proof. unfold eps. apply Rinv_0_lt_compat. apply pow_lt. lra. Qed.

Section Net.

Variable ly : layers.

(** The dense layer ends with a softmax over two outputs. *)
Hypothesis dense_prob :
  forall h, 0 <= fst (dense_fn ly h) /\ 0 <= snd (dense_fn ly h)
            /\ fst (dense_fn ly h) + snd (dense_fn ly h) = 1.

Lemma row_logp_nil (x : R * R) (h : list R) : row_logp ly x h [] = 0.
Proof. reflexivity. Qed.

Lemma row_logp_cons (x : R * R) (h : list R) (d : Z) (t : list Z) :
  row_logp ly x h (d :: t)
  = dot2 (log_eps (dense_fn ly (gru_cell ly x h))) (one_hot d)
    + row_logp ly (one_hot d) (gru_cell ly x h) t.
Proof.
  unfold row_logp. destruct t as [|d2 t].
  - simpl. reflexivity.
  - change (removelast (d :: d2 :: t)) with (d :: removelast (d2 :: t)).
    cbn [map]. rewrite rnn_row_cons. cbn [map combine Rsum fold_right fst snd].
    reflexivity.
Qed.

Lemma exp_pick (h : list R) (d : Z) :
  d = 0%Z \/ d = 1%Z ->
  exp (dot2 (log_eps (dense_fn ly h)) (one_hot d))
  = eps + (if (d =? 0)%Z then fst (dense_fn ly h) else snd (dense_fn ly h)).
Proof.
  pose proof eps_pos. destruct (dense_prob h) as (H0 & H1 & _).
  intros [->| ->]; unfold dot2, log_eps, one_hot; cbn [fst snd Z.eqb Pos.eqb].
  - replace (ln (eps + fst (dense_fn ly h)) * 1 + ln (eps + snd (dense_fn ly h)) * 0)
      with (ln (eps + fst (dense_fn ly h))) by ring.
    apply exp_ln. lra.
  - replace (ln (eps + fst (dense_fn ly h)) * 0 + ln (eps + snd (dense_fn ly h)) * 1)
      with (ln (eps + snd (dense_fn ly h))) by ring.
    apply exp_ln. lra.
Qed.

Lemma sum_configs (n : nat) :
  forall (x : R * R) (h : list R),
    Rsum (map (fun s => exp (row_logp ly x h s)) (configs n)) = (1 + 2 * eps) ^ n.
Proof.
  induction n as [|n IH]; intros x h.
  - simpl. rewrite row_logp_nil, exp_0. ring.
  - cbn [configs]. rewrite Rsum_flat_map_pair.
    rewrite (map_ext _ (fun t =>
      (eps + fst (dense_fn ly (gru_cell ly x h)))
        * exp (row_logp ly (one_hot 0) (gru_cell ly x h) t)
      + (eps + snd (dense_fn ly (gru_cell ly x h)))
        * exp (row_logp ly (one_hot 1) (gru_cell ly x h) t))).
    2:{ intros t. rewrite !row_logp_cons, !exp_plus.
        rewrite (exp_pick _ 0) by now left. rewrite (exp_pick _ 1) by now right.
        reflexivity. }
    rewrite Rsum_plus, !Rsum_scale, !IH.
    destruct (dense_prob (gru_cell ly x h)) as (_ & _ & H1).
    simpl pow.
    replace (1 + 2 * eps)
      with ((eps + fst (dense_fn ly (gru_cell ly x h)))
            + (eps + snd (dense_fn ly (gru_cell ly x h)))) at 3 by lra.
    ring.
Qed.

Lemma amplitude_row_logp (self : vmc) (s : list Z) :
  Z.of_nat (length s) = N self ->
  amplitude self ly s
  = 0.5 * row_logp ly (scale2 0 (one_hot 0)) (repeat 0 (nh ly)) s.
Proof.
  intros H. unfold amplitude, row_probs, row_inputs, row_logp.
  rewrite <- H, slice0_removelast. reflexivity.
Qed.

Lemma sum_amplitudes (self : vmc) :
  (0 <= N self)%Z ->
  Rsum (map (fun s => exp (2 * amplitude self ly s)) (configs (Z.to_nat (N self))))
  = (1 + 2 * eps) ^ Z.to_nat (N self).
Proof.
  intros HN.
  rewrite <- (sum_configs _ (scale2 0 (one_hot 0)) (repeat 0 (nh ly))).
  f_equal. apply map_ext_in. intros s Hs. apply in_configs in Hs.
  rewrite amplitude_row_logp by lia. f_equal. decimals. field.
Qed.

End Net.

(** X18. The network defines a normalised state, up to the constant
    added inside the logarithm.  When the two outputs of the dense
    layer are probabilities, then on a batch that holds every row of
    [N >= 1] entries 0 or 1 exactly once, the squared amplitudes
    [exp(2 * logpsi)] add up to [(1 + 2e-10)^N]. *)
Theorem squared_amplitudes_add_up
    (self : vmc) (ly : layers) (batch : array2) :
  (forall h, 0 <= fst (dense_fn ly h) /\ 0 <= snd (dense_fn ly h)
             /\ fst (dense_fn ly h) + snd (dense_fn ly h) = 1) ->
  (1 <= N self)%Z ->
  NoDup batch ->
  (forall s, In s batch <-> length s = Z.to_nat (N self) /\ binary s) ->
  exists l,
    logpsi self ly batch = Ok l
    /\ Rsum (map (fun x => exp (2 * x)) l) = (1 + 2 * eps) ^ Z.to_nat (N self).
Proof.
  intros Hp HN Hnd Hall.
  exists (map (amplitude self ly) batch). split.
  - apply logpsi_rows; [exact HN|]. apply Forall_forall. intros s Hs.
    now apply Hall.
  - rewrite map_map.
    rewrite <- (sum_amplitudes ly Hp self) by lia.
    apply Rsum_perm. apply Permutation_map.
    apply NoDup_Permutation; [exact Hnd|apply NoDup_configs|].
    intros s. rewrite in_configs. apply Hall.
Qed.

(** The two configurations of the lattice of one site. *)
Lemma squared_amplitudes_add_up_example :
  exists l,
    logpsi (init 1 1 7 1 1) example_layers [[0]; [1]]%Z = Ok l
    /\ Rsum (map (fun x => exp (2 * x)) l)
       = (1 + 2 * eps) ^ Z.to_nat (N (init 1 1 7 1 1)).
Proof.
  apply squared_amplitudes_add_up.
  - intros h. simpl. decimals. lra.
  - rewrite LatticeFacts.vmc_closed. simpl. lia.
  - repeat constructor; simpl; intuition discriminate.
  - intros s. rewrite LatticeFacts.vmc_closed. simpl. apply (in_configs 1 s).
Defined.

End Normalisation.

(** ** The matrix of [generatehamiltonian], and [localenergy] as its
    local estimator *)

Module RydbergMatrix.

Import NetKet VMC Amplitude LocalEnergy SameHamiltonian Normalisation.
Open Scope R_scope.

Lemma nth_list_set {A : Type} (l : list A) (k : nat) (v d : A) :
  forall i, (i < length l)%nat ->
    nth i (list_set l k v) d = if (i =? k)%nat then v else nth i l d.
Proof.
  revert k. induction l as [|x l IH]; intros k i Hi; [simpl in Hi; lia|].
  destruct k as [|k]; destruct i as [|i]; simpl; try reflexivity.
  apply IH. simpl in Hi. lia.
Qed.

Lemma nth_flip (j : Z) (s : list Z) (i : nat) :
  (i < length s)%nat ->
  nth i (flip j s) 0%Z
  = if (i =? Z.to_nat j)%nat then (1 - nth i s 0)%Z else nth i s 0%Z.
Proof.
  intros Hi. unfold flip. rewrite nth_list_set by exact Hi.
  destruct (Nat.eqb_spec i (Z.to_nat j)) as [->|_]; reflexivity.
Qed.

Lemma binary_flip (j : Z) (s : list Z) : binary s -> binary (flip j s).
Proof.
  intros Hs. apply Forall_forall. intros z Hz.
  apply (In_nth _ _ 0%Z) in Hz. destruct Hz as [i [Hi <-]].
  rewrite length_flip in Hi. rewrite nth_flip by exact Hi.
  destruct (binary_nth s i Hs) as [E|E]; rewrite E;
    destruct (i =? Z.to_nat j)%nat; auto.
Qed.

Lemma agree_off_spec (sites : list Z) (s s' : config) :
  agree_off sites s s' = true <->
  length s = length s'
  /\ forall i, (i < length s)%nat ->
       In (Z.of_nat i) sites \/ nth i s 0%Z = nth i s' 0%Z.
Proof.
  unfold agree_off. rewrite andb_true_iff, Nat.eqb_eq, forallb_forall.
  split; intros [Hl H]; (split; [exact Hl|]).
  - intros i Hi. specialize (H (Z.of_nat i)).
    rewrite in_range, orb_true_iff, existsb_exists, Z.eqb_eq, Nat2Z.id in H.
    destruct (H ltac:(lia)) as [[x [Hx Ex]]|E]; [left|right; exact E].
    apply Z.eqb_eq in Ex. now subst x.
  - intros j Hj. apply in_range in Hj.
    rewrite orb_true_iff, existsb_exists, Z.eqb_eq.
    destruct (H (Z.to_nat j) ltac:(lia)) as [Hin|E]; [left|right; exact E].
    exists j. rewrite Z2Nat.id in Hin by lia. split; [exact Hin|apply Z.eqb_refl].
Qed.

(** Two configurations that agree everywhere are one configuration. *)
Lemma config_ext (s s' : config) :
  length s = length s' ->
  (forall i, (i < length s)%nat -> nth i s 0%Z = nth i s' 0%Z) -> s = s'.
Proof. intros Hl H. now apply (nth_ext s s' 0%Z 0%Z). Qed.

Lemma agree_flip (j : Z) (s : config) :
  (0 <= j)%Z -> agree_off [j] s (flip j s) = true.
Proof.
  intros Hj. apply agree_off_spec. rewrite length_flip. split; [reflexivity|].
  intros i Hi. rewrite nth_flip by exact Hi.
  destruct (Nat.eqb_spec i (Z.to_nat j)) as [->|_]; [left|right; reflexivity].
  rewrite Z2Nat.id by lia. now left.
Qed.

(** The transverse-field term at site [j] joins a configuration with
    its flip at [j], and nothing else. *)
Lemma element_sx (n : nat) (c : R) (j : Z) (s s' : config) :
  binary s -> binary s' -> (0 <= j < Z.of_nat (length s))%Z ->
  matrix_element n (Local (map (map (fun z => c * IZR z)) [[0; 1]; [1; 0]]%Z) [j]) s s'
  = if list_eq_dec Z.eq_dec (flip j s) s' then c else 0.
Proof.
  intros Hs Hs' Hj. cbn [matrix_element].
  destruct (agree_off [j] s s') eqn:Ea.
  - apply agree_off_spec in Ea. destruct Ea as [Hl Ha].
    assert (Hrest : forall i, (i < length s)%nat -> i <> Z.to_nat j ->
                      nth i s 0%Z = nth i s' 0%Z).
    { intros i Hi Hne. destruct (Ha i Hi) as [[E|[]]|E]; [lia|exact E]. }
    unfold local_index, entry. cbn [fold_left].
    destruct (list_eq_dec Z.eq_dec (flip j s) s') as [E|NE].
    + assert (E' : nth (Z.to_nat j) s' 0%Z = (1 - nth (Z.to_nat j) s 0)%Z).
      { rewrite <- E, nth_flip by lia. now rewrite Nat.eqb_refl. }
      rewrite E'.
      destruct (binary_nth s (Z.to_nat j) Hs) as [-> | ->]; cbn;
        change (Pos.to_nat 1) with 1%nat; cbn; ring.
    + assert (E' : nth (Z.to_nat j) s' 0%Z = nth (Z.to_nat j) s 0%Z).
      { destruct (Z.eq_dec (nth (Z.to_nat j) s' 0%Z) (nth (Z.to_nat j) s 0%Z))
          as [E|Hd]; [exact E|].
        exfalso. apply NE. apply config_ext; [now rewrite length_flip|].
        intros i Hi. rewrite length_flip in Hi. rewrite nth_flip by exact Hi.
        destruct (Nat.eqb_spec i (Z.to_nat j)) as [->|Hne]; [|now apply Hrest].
        destruct (binary_nth s (Z.to_nat j) Hs) as [E0|E0];
          destruct (binary_nth s' (Z.to_nat j) Hs') as [E1|E1]; lia. }
      rewrite E'.
      destruct (binary_nth s (Z.to_nat j) Hs) as [-> | ->]; cbn;
        change (Pos.to_nat 1) with 1%nat; cbn; ring.
  - destruct (list_eq_dec Z.eq_dec (flip j s) s') as [E|NE]; [|reflexivity].
    rewrite <- E, agree_flip in Ea by lia. discriminate.
Qed.

(** A term with a diagonal matrix joins no two different
    configurations. *)
Lemma element_P (n : nat) (c : R) (j : Z) (s s' : config) :
  binary s -> binary s' -> (0 <= j < Z.of_nat (length s))%Z ->
  matrix_element n (Local (map (map (fun z => c * IZR z)) [[0; 0]; [0; 1]]%Z) [j]) s s'
  = if list_eq_dec Z.eq_dec s s' then c * occ s j else 0.
Proof.
  intros Hs Hs' Hj.
  destruct (list_eq_dec Z.eq_dec s s') as [<-|NE]; [now apply diagonal_P|].
  cbn [matrix_element].
  destruct (agree_off [j] s s') eqn:Ea; [|reflexivity].
  apply agree_off_spec in Ea. destruct Ea as [Hl Ha].
  assert (Hd : nth (Z.to_nat j) s 0%Z <> nth (Z.to_nat j) s' 0%Z).
  { intros E. apply NE. apply config_ext; [exact Hl|].
    intros i Hi. destruct (Ha i Hi) as [[Ei|[]]|Ei]; [|exact Ei].
    replace i with (Z.to_nat j) by lia. exact E. }
  unfold local_index, entry. cbn [fold_left].
  destruct (binary_nth s (Z.to_nat j) Hs) as [E0|E0];
    destruct (binary_nth s' (Z.to_nat j) Hs') as [E1|E1];
    rewrite E0, E1 in *; try congruence; cbn;
    change (Pos.to_nat 1) with 1%nat; cbn; ring.
Qed.

Lemma element_PP (n : nat) (c : R) (a b : Z) (s s' : config) :
  binary s -> binary s' ->
  (0 <= a < Z.of_nat (length s))%Z -> (0 <= b < Z.of_nat (length s))%Z ->
  matrix_element n
    (Local (map (map (fun z => c * IZR z))
                (kron Z.mul [[0; 0]; [0; 1]] [[0; 0]; [0; 1]])%Z) [a; b]) s s'
  = if list_eq_dec Z.eq_dec s s' then c * (occ s a * occ s b) else 0.
Proof.
  intros Hs Hs' Ha Hb.
  destruct (list_eq_dec Z.eq_dec s s') as [<-|NE]; [now apply diagonal_PP|].
  cbn [matrix_element].
  destruct (agree_off [a; b] s s') eqn:Ea; [|reflexivity].
  apply agree_off_spec in Ea. destruct Ea as [Hl Hag].
  assert (Hd : nth (Z.to_nat a) s 0%Z <> nth (Z.to_nat a) s' 0%Z
               \/ nth (Z.to_nat b) s 0%Z <> nth (Z.to_nat b) s' 0%Z).
  { destruct (Z.eq_dec (nth (Z.to_nat a) s 0%Z) (nth (Z.to_nat a) s' 0%Z)) as [E1|];
      [|now left].
    destruct (Z.eq_dec (nth (Z.to_nat b) s 0%Z) (nth (Z.to_nat b) s' 0%Z)) as [E2|];
      [|now right].
    exfalso. apply NE. apply config_ext; [exact Hl|].
    intros i Hi. destruct (Hag i Hi) as [[Ei|[Ei|[]]]|Ei]; [| |exact Ei].
    - replace i with (Z.to_nat a) by lia. exact E1.
    - replace i with (Z.to_nat b) by lia. exact E2. }
  unfold local_index, entry. cbn [fold_left].
  destruct (binary_nth s (Z.to_nat a) Hs) as [A0|A0];
    destruct (binary_nth s' (Z.to_nat a) Hs') as [A1|A1];
    destruct (binary_nth s (Z.to_nat b) Hs) as [B0|B0];
    destruct (binary_nth s' (Z.to_nat b) Hs') as [B1|B1];
    rewrite A0, A1, B0, B1 in *;
    try (exfalso; destruct Hd; congruence); cbn;
    change (Pos.to_nat 1) with 1%nat; cbn; ring.
Qed.

Lemma Rsum_zero {A : Type} (l : list A) : Rsum (map (fun _ => 0) l) = 0.
Proof. induction l as [|x l IH]; simpl; [reflexivity|]. rewrite IH. ring. Qed.

Lemma Rsum_all_zero {A : Type} (f : A -> R) (l : list A) :
  (forall x, In x l -> f x = 0) -> Rsum (map f l) = 0.
Proof.
  intros H. rewrite (map_ext_in f (fun _ => 0) l H). apply Rsum_zero.
Qed.

(** A sum with one term that is not zero. *)
Lemma Rsum_single {A : Type} (f : A -> R) (l : list A) (x0 : A) :
  NoDup l -> In x0 l -> (forall x, In x l -> x <> x0 -> f x = 0) ->
  Rsum (map f l) = f x0.
Proof.
  induction l as [|x l IH]; intros Hnd Hin H0; [destruct Hin|].
  inversion Hnd as [|? ? Hx Hnd']; subst. simpl.
  destruct Hin as [->|Hin].
  - rewrite Rsum_all_zero; [ring|].
    intros y Hy. apply H0; [now right|]. intros ->. contradiction.
  - rewrite IH; trivial.
    + rewrite (H0 x); [ring|now left|]. intros ->. contradiction.
    + intros y Hy. apply H0. now right.
Qed.

Lemma Rsum_swap {A B : Type} (f : A -> B -> R) (la : list A) (lb : list B) :
  Rsum (map (fun a => Rsum (map (f a) lb)) la)
  = Rsum (map (fun b => Rsum (map (fun a => f a b) la)) lb).
Proof.
  induction la as [|a la IH]; simpl.
  - now rewrite Rsum_zero.
  - rewrite IH, <- Rsum_plus. reflexivity.
Qed.

Lemma flip_changes (j : Z) (s : config) :
  binary s -> (0 <= j < Z.of_nat (length s))%Z -> flip j s <> s.
Proof.
  intros Hs Hj E. apply (f_equal (fun l => nth (Z.to_nat j) l 0%Z)) in E.
  rewrite nth_flip, Nat.eqb_refl in E by lia. lia.
Qed.

Lemma flip_inj (j j' : Z) (s : config) :
  binary s -> (0 <= j < Z.of_nat (length s))%Z ->
  (0 <= j' < Z.of_nat (length s))%Z -> flip j s = flip j' s -> j = j'.
Proof.
  intros Hs Hj Hj' E. apply (f_equal (fun l => nth (Z.to_nat j) l 0%Z)) in E.
  rewrite !nth_flip, Nat.eqb_refl in E by lia.
  destruct (Nat.eqb_spec (Z.to_nat j) (Z.to_nat j')) as [E'|_]; lia.
Qed.

Lemma flip_flip (j : Z) (s : config) :
  binary s -> (0 <= j < Z.of_nat (length s))%Z -> flip j (flip j s) = s.
Proof.
  intros Hs Hj. apply config_ext; [now rewrite !length_flip|].
  intros i Hi. rewrite !length_flip in Hi.
  rewrite nth_flip by (now rewrite length_flip). rewrite nth_flip by exact Hi.
  destruct (i =? Z.to_nat j)%nat; lia.
Qed.

(** The matrix of [generatehamiltonian] in closed form. *)
Lemma generatehamiltonian_elements (Lx Ly : Z) (V Omega delta : R) (s s' : config) :
  length s = Z.to_nat (Lx * Ly) -> binary s -> binary s' ->
  matrix_element (Z.to_nat (Lx * Ly))
    (Tomography.generatehamiltonian Lx Ly V Omega delta) s s'
  = (if list_eq_dec Z.eq_dec s s'
     then diagonal_energy (init Lx Ly V Omega delta) s else 0)
    + Rsum (map (fun j => if list_eq_dec Z.eq_dec (flip j s) s'
                          then -0.5 * Omega else 0) (range (Lx * Ly))).
Proof.
  intros Hl Hs Hs'.
  assert (Hr : forall j, In j (range (Lx * Ly)) ->
                 (0 <= j < Z.of_nat (length s))%Z).
  { intros j Hj. apply in_range in Hj. lia. }
  destruct (list_eq_dec Z.eq_dec s s') as [<-|NE].
  - rewrite generatehamiltonian_diagonal by exact Hs.
    rewrite Rsum_all_zero; [ring|].
    intros j Hj. destruct (list_eq_dec Z.eq_dec (flip j s) s) as [E|_];
      [|reflexivity].
    exfalso. exact (flip_changes j s Hs (Hr j Hj) E).
  - unfold Tomography.generatehamiltonian. cbv zeta.
    rewrite !matrix_element_for_each.
    rewrite LatticeFacts.tomography_closed.
    cbn [Tomography.nn Tomography.nnn Tomography.nnnn].
    assert (E0 : matrix_element (Z.to_nat (Lx * Ly)) (Const 0) s s' = 0).
    { simpl. now destruct (list_eq_dec Z.eq_dec s s'). }
    rewrite E0.
    assert (Hb : forall (c : R) (l : list bond),
               Forall (LatticeBounds.valid_bond (Lx * Ly)) l ->
               Rsum (map (fun b => matrix_element (Z.to_nat (Lx * Ly))
                       (Local (map (map (fun z => c * IZR z))
                                 (kron Z.mul [[0; 0]; [0; 1]] [[0; 0]; [0; 1]])%Z)
                              [fst b; snd b]) s s') l) = 0).
    { intros c l Hv. apply Rsum_all_zero. intros b Hin.
      rewrite Forall_forall in Hv. destruct (Hv b Hin) as (_ & Ha & Hb).
      rewrite element_PP by (trivial; lia).
      now destruct (list_eq_dec Z.eq_dec s s'). }
    rewrite !Hb by (apply LatticeBounds.nn_valid || apply LatticeBounds.nnn_valid
                    || apply LatticeBounds.nnnn_valid).
    rewrite (Rsum_all_zero (fun j => matrix_element _ (Local (map (map (fun z => - delta * IZR z)) _) [j]) s s')).
    2:{ intros j Hj. rewrite element_P by (trivial; now apply Hr).
        now destruct (list_eq_dec Z.eq_dec s s'). }
    rewrite (map_ext_in _ (fun j => if list_eq_dec Z.eq_dec (flip j s) s'
                                    then -0.5 * Omega else 0)).
    2:{ intros j Hj. apply element_sx; trivial. now apply Hr. }
    ring.
Qed.

(** X19. The matrix of [generatehamiltonian] off its diagonal.  Between
    two configurations of the lattice with entries 0 or 1, the matrix
    element is [-0.5 * Omega] when one is the other with one site
    flipped, and 0 when they differ on two sites or more; the matrix is
    symmetric. *)
Theorem generatehamiltonian_off_diagonal
    (Lx Ly : Z) (V Omega delta : R) (s s' : config) :
  let n := Z.to_nat (Lx * Ly) in
  let H := Tomography.generatehamiltonian Lx Ly V Omega delta in
  length s = n -> length s' = n -> binary s -> binary s' ->
  (forall j, (0 <= j < Lx * Ly)%Z ->
     matrix_element n H s (flip j s) = -0.5 * Omega)
  /\ (s <> s' -> (forall j, (0 <= j < Lx * Ly)%Z -> flip j s <> s') ->
      matrix_element n H s s' = 0)
  /\ matrix_element n H s s' = matrix_element n H s' s.
Proof.
  intros n H Hl Hl' Hs Hs'. subst n H. split; [|split].
  - intros j Hj.
    rewrite generatehamiltonian_elements; trivial; [|now apply binary_flip].
    destruct (list_eq_dec Z.eq_dec s (flip j s)) as [E|_].
    { exfalso. symmetry in E. revert E. apply flip_changes; [exact Hs|lia]. }
    rewrite (Rsum_single _ _ j).
    + destruct (list_eq_dec Z.eq_dec (flip j s) (flip j s)); [ring|contradiction].
    + apply LatticeGeometry.NoDup_range.
    + now apply in_range.
    + intros j' Hj' Hne. apply in_range in Hj'.
      destruct (list_eq_dec Z.eq_dec (flip j' s) (flip j s)) as [E|_];
        [|reflexivity].
      exfalso. apply Hne. apply (flip_inj j' j s Hs); trivial; lia.
  - intros NE Hnf. rewrite generatehamiltonian_elements; trivial.
    destruct (list_eq_dec Z.eq_dec s s') as [E|_]; [contradiction|].
    rewrite Rsum_all_zero; [ring|].
    intros j Hj. apply in_range in Hj.
    destruct (list_eq_dec Z.eq_dec (flip j s) s') as [E|_]; [|reflexivity].
    exfalso. exact (Hnf j Hj E).
  - destruct (list_eq_dec Z.eq_dec s s') as [<-|NE]; [reflexivity|].
    rewrite !generatehamiltonian_elements; trivial.
    destruct (list_eq_dec Z.eq_dec s s') as [E|_]; [contradiction|].
    destruct (list_eq_dec Z.eq_dec s' s) as [E|_]; [symmetry in E; contradiction|].
    f_equal. f_equal. apply map_ext_in. intros j Hj. apply in_range in Hj.
    destruct (list_eq_dec Z.eq_dec (flip j s) s') as [E|NE1];
      destruct (list_eq_dec Z.eq_dec (flip j s') s) as [E'|NE2]; trivial; exfalso.
    + apply NE2. rewrite <- E. apply flip_flip; [exact Hs|lia].
    + apply NE1. rewrite <- E'. apply flip_flip; [exact Hs'|lia].
Qed.

(** Two configurations of the 2-by-2 lattice that differ on two sites. *)
Lemma generatehamiltonian_off_diagonal_2x2 :
  let n := Z.to_nat (2 * 2) in
  let H := Tomography.generatehamiltonian 2 2 7 1 1 in
  (forall j, (0 <= j < 2 * 2)%Z ->
     matrix_element n H [0; 1; 1; 0]%Z (flip j [0; 1; 1; 0]%Z) = -0.5 * 1)
  /\ ([0; 1; 1; 0]%Z <> [1; 1; 0; 0]%Z ->
      (forall j, (0 <= j < 2 * 2)%Z -> flip j [0; 1; 1; 0]%Z <> [1; 1; 0; 0]%Z) ->
      matrix_element n H [0; 1; 1; 0]%Z [1; 1; 0; 0]%Z = 0)
  /\ matrix_element n H [0; 1; 1; 0]%Z [1; 1; 0; 0]%Z
     = matrix_element n H [1; 1; 0; 0]%Z [0; 1; 1; 0]%Z.
Proof.
  apply (generatehamiltonian_off_diagonal 2 2 7 1 1 [0; 1; 1; 0]%Z [1; 1; 0; 0]%Z);
    try reflexivity; unfold binary;
    repeat (apply Forall_cons; [lia|]); apply Forall_nil.
Defined.

Lemma Rsum_scale_r {J : Type} (k : R) (t : J -> R) (l : list J) :
  Rsum (map t l) * k = Rsum (map (fun j => t j * k) l).
Proof.
  induction l as [|x l IH]; simpl; [ring|]. rewrite <- IH. ring.
Qed.

(** The local estimator of one row. *)
Lemma estimator_row (Lx Ly : Z) (V Omega delta : R) (ly : layers) (s : config) :
  length s = Z.to_nat (Lx * Ly) -> binary s ->
  let self := init Lx Ly V Omega delta in
  local_energy_value self ly s (amplitude self ly s)
  = Rsum (map (fun t =>
                 matrix_element (Z.to_nat (Lx * Ly))
                   (Tomography.generatehamiltonian Lx Ly V Omega delta) s t
                 * exp (amplitude self ly t - amplitude self ly s))
              (configs (Z.to_nat (Lx * Ly)))).
Proof.
  intros Hl Hs self.
  set (g := fun t => exp (amplitude self ly t - amplitude self ly s)).
  set (c := -0.5 * Omega).
  rewrite (map_ext_in _ (fun t =>
     (if list_eq_dec Z.eq_dec s t then diagonal_energy self s else 0) * g t
     + Rsum (map (fun j => (if list_eq_dec Z.eq_dec (flip j s) t then c else 0) * g t)
                 (range (Lx * Ly))))).
  2:{ intros t Ht. apply in_configs in Ht. destruct Ht as [_ Ht].
      rewrite generatehamiltonian_elements; trivial.
      fold self c (g t). rewrite Rmult_plus_distr_r. f_equal.
      apply Rsum_scale_r. }
  rewrite Rsum_plus.
  assert (Hin : In s (configs (Z.to_nat (Lx * Ly)))) by now apply in_configs.
  rewrite (Rsum_single _ _ s (NoDup_configs _) Hin).
  2:{ intros t _ Hne. destruct (list_eq_dec Z.eq_dec s t) as [E|_]; [|ring].
      symmetry in E. contradiction. }
  destruct (list_eq_dec Z.eq_dec s s) as [_|NE]; [|contradiction].
  rewrite (Rsum_swap (fun t j => (if list_eq_dec Z.eq_dec (flip j s) t then c else 0)
                                 * g t)).
  rewrite (map_ext_in _ (fun j => c * g (flip j s))).
  2:{ intros j Hj. apply in_range in Hj.
      assert (Hf : In (flip j s) (configs (Z.to_nat (Lx * Ly)))).
      { apply in_configs. split; [now rewrite length_flip|now apply binary_flip]. }
      rewrite (Rsum_single _ _ (flip j s) (NoDup_configs _) Hf).
      - destruct (list_eq_dec Z.eq_dec (flip j s) (flip j s)); [reflexivity|contradiction].
      - intros t _ Hne. destruct (list_eq_dec Z.eq_dec (flip j s) t) as [E|_]; [|ring].
        symmetry in E. contradiction. }
  rewrite Rsum_scale. unfold local_energy_value, g, c.
  subst self. rewrite LatticeFacts.vmc_closed. cbn [VMC.Omega VMC.N].
  rewrite Rminus_diag, exp_0. decimals. field.
Qed.

(** X20. [localenergy] computes the local estimator of the Hamiltonian
    that [generatehamiltonian] builds in the tomography notebook.  On a
    lattice with [Lx >= 1] and [Ly >= 1], called with a batch and the
    vector [logpsi] returns on it, [localenergy] returns for each row
    [s] the sum, over all configurations [t] of the lattice, of
    [<s|H|t> * exp(logpsi(t) - logpsi(s))]. *)
Theorem localenergy_is_the_local_estimator
    (Lx Ly : Z) (V Omega delta : R) (ly : layers)
    (h : heap) (samples_ref : ref) (samples : array2) :
  let self := init Lx Ly V Omega delta in
  let n := Z.to_nat (Lx * Ly) in
  let H := Tomography.generatehamiltonian Lx Ly V Omega delta in
  (1 <= Lx)%Z -> (1 <= Ly)%Z ->
  nth_error h samples_ref = Some samples ->
  Forall (fun s => length s = n /\ binary s) samples ->
  exists logpsi_v all,
    logpsi self ly samples = Ok logpsi_v
    /\ logpsi self ly (configs n) = Ok all
    /\ fst (localenergy self ly samples_ref logpsi_v h)
       = Ok (map (fun sl =>
                    Rsum (map (fun tl => matrix_element n H (fst sl) (fst tl)
                                         * exp (snd tl - snd sl))
                              (combine (configs n) all)))
                 (combine samples logpsi_v)).
Proof.
  intros self n H HLx HLy Hh Hrows.
  assert (EN : N self = (Lx * Ly)%Z).
  { subst self. now rewrite LatticeFacts.vmc_closed. }
  assert (HN : (1 <= N self)%Z) by nia.
  exists (map (amplitude self ly) samples), (map (amplitude self ly) (configs n)).
  split; [|split].
  - apply logpsi_rows; [exact HN|]. rewrite EN.
    eapply Forall_impl; [|exact Hrows]. intros s [Hl _]. exact Hl.
  - apply logpsi_rows; [exact HN|]. rewrite EN.
    apply Forall_forall. intros s Hs. apply in_configs in Hs. exact (proj1 Hs).
  - assert (Hv : forall l, Forall (LatticeBounds.valid_bond (N self)) l ->
                           Forall (in_lattice (N self)) l).
    { intros l. apply Forall_impl. intros b (_ & Ha & Hb). now split. }
    rewrite (localenergy_batch self ly samples_ref samples
               (map (amplitude self ly) samples)); trivial.
    + rewrite !Sampling.combine_map_r, !map_map. f_equal.
      apply map_ext_in. intros s Hs. cbn [fst snd].
      rewrite Forall_forall in Hrows. destruct (Hrows s Hs) as [Hl Hb].
      subst self n H. rewrite estimator_row by assumption.
      now rewrite map_map.
    + rewrite EN. exact Hrows.
    + now rewrite length_map.
    + apply Hv. subst self. rewrite LatticeFacts.vmc_closed. simpl.
      apply LatticeBounds.nn_valid.
    + apply Hv. subst self. rewrite LatticeFacts.vmc_closed. simpl.
      apply LatticeBounds.nnn_valid.
    + apply Hv. subst self. rewrite LatticeFacts.vmc_closed. simpl.
      apply LatticeBounds.nnnn_valid.
Qed.

(** One row on the 2-by-2 lattice. *)
Lemma localenergy_is_the_local_estimator_2x2 :
  let self := init 2 2 7 1 1 in
  let n := Z.to_nat (2 * 2) in
  let H := Tomography.generatehamiltonian 2 2 7 1 1 in
  exists logpsi_v all,
    logpsi self example_layers [[0; 1; 1; 0]%Z] = Ok logpsi_v
    /\ logpsi self example_layers (configs n) = Ok all
    /\ fst (localenergy self example_layers 0%nat logpsi_v [[[0; 1; 1; 0]%Z]])
       = Ok (map (fun sl =>
                    Rsum (map (fun tl => matrix_element n H (fst sl) (fst tl)
                                         * exp (snd tl - snd sl))
                              (combine (configs n) all)))
                 (combine [[0; 1; 1; 0]%Z] logpsi_v)).
Proof.
  apply (localenergy_is_the_local_estimator 2 2 7 1 1 example_layers
           [[[0; 1; 1; 0]%Z]] 0%nat [[0; 1; 1; 0]%Z]); try lia; try reflexivity.
  apply Forall_cons; [|apply Forall_nil]. split; [reflexivity|].
  unfold binary. repeat (apply Forall_cons; [lia|]). apply Forall_nil.
Defined.

End RydbergMatrix.

(** ** The two Hamiltonians of the BeH2 notebook *)

Module TwoHamiltonians.

Import NetKet BeH2 Kron PauliProduct DenseHamiltonian SparseHamiltonian.
Import LocalEnergy.
Open Scope nat_scope.

(** The matrix element [<s| O |s'>] of an operator with complex
    entries: [NetKet.matrix_element] with the complex operations. *)
Fixpoint matrix_elementC (n : nat) (o : LocalOperator C) (s s' : config) : C :=
  match o with
  | Const c => if list_eq_dec Z.eq_dec s s' then c else C0
  | Local m sites =>
      if agree_off sites s s'
      then entry C0 m (local_index s sites) (local_index s' sites)
      else C0
  | Add a b => Cadd (matrix_elementC n a s s') (matrix_elementC n b s s')
  | Mul a b =>
      Csum (map (fun t => Cmul (matrix_elementC n a s t) (matrix_elementC n b t s'))
                (configs n))
  end.

(** The row of a dense array that belongs to a configuration: its
    entries read as a binary number, the first site first. *)
Definition index (s : config) : nat :=
  fold_left (fun acc b => 2 * acc + Z.to_nat b) s 0.

(** *** Complex arithmetic *)

Lemma Cmul_assoc (a b c : C) : Cmul (Cmul a b) c = Cmul a (Cmul b c).
Proof. destruct a, b, c. unfold Cmul. simpl. f_equal; ring. Qed.

Lemma Cmul_1_r (x : C) : Cmul x C1 = x.
Proof. destruct x. unfold Cmul, C1, RtoC. simpl. f_equal; ring. Qed.

Lemma Cmul_0_l (x : C) : Cmul C0 x = C0.
Proof. destruct x. unfold Cmul, C0, RtoC. simpl. f_equal; ring. Qed.

Lemma Cmul_0_r (x : C) : Cmul x C0 = C0.
Proof. destruct x. unfold Cmul, C0, RtoC. simpl. f_equal; ring. Qed.

Lemma Cadd_0_l (x : C) : Cadd C0 x = x.
Proof. destruct x. unfold Cadd, C0, RtoC. simpl. f_equal; ring. Qed.

Lemma fold_Cmul (l : list C) : forall a, fold_left Cmul l a = Cmul a (Cprod l).
Proof.
  unfold Cprod. induction l as [|x l IH]; intros a; simpl.
  - now rewrite Cmul_1_r.
  - rewrite IH, (IH (Cmul C1 x)), Cmul_1_l, Cmul_assoc. reflexivity.
Qed.

Lemma Cprod_cons (x : C) (l : list C) : Cprod (x :: l) = Cmul x (Cprod l).
Proof. unfold Cprod at 1. simpl. now rewrite fold_Cmul, Cmul_1_l. Qed.

(** *** Rows of the dense array *)

Lemma index_snoc (s : config) (b : Z) :
  index (s ++ [b]) = 2 * index s + Z.to_nat b.
Proof. unfold index. now rewrite fold_left_app. Qed.

Lemma binary_app (s t : config) : binary (s ++ t) <-> binary s /\ binary t.
Proof. apply Forall_app. Qed.

Lemma index_lt (s : config) : binary s -> index s < 2 ^ length s.
Proof.
  induction s as [|b s IH] using rev_ind; intros Hs; [unfold index; simpl; lia|].
  apply binary_app in Hs. destruct Hs as [Hs Hb].
  assert (Hb2 : Z.to_nat b < 2).
  { inversion Hb as [|? ? [-> | ->] _]; subst; simpl; lia. }
  rewrite index_snoc, length_app. cbn [length].
  replace (length s + 1) with (S (length s)) by lia.
  rewrite Nat.pow_succ_r'. specialize (IH Hs). lia.
Qed.

Lemma digit_index (s : config) :
  binary s -> forall q, q < length s ->
  digit (length s) q (index s) = Z.to_nat (nth q s 0%Z).
Proof.
  induction s as [|b s IH] using rev_ind; intros Hs q Hq; [simpl in Hq; lia|].
  apply binary_app in Hs. destruct Hs as [Hs Hb].
  assert (Hb2 : Z.to_nat b < 2).
  { inversion Hb as [|? ? [-> | ->] _]; subst; simpl; lia. }
  rewrite length_app in *. cbn [length] in *. rewrite index_snoc. unfold digit.
  destruct (Nat.eq_dec q (length s)) as [->|Hne].
  - replace (length s + 1 - 1 - length s) with 0 by lia.
    rewrite nth_middle. change (2 ^ 0) with 1. rewrite Nat.div_1_r.
    rewrite Nat.add_comm, Nat.mul_comm, Nat.Div0.mod_add.
    now apply Nat.mod_small.
  - rewrite app_nth1 by lia. rewrite <- (IH Hs q) by lia. unfold digit.
    replace (length s + 1 - 1 - q) with (S (length s - 1 - q)) by lia.
    rewrite Nat.pow_succ_r'. rewrite <- Nat.Div0.div_div.
    f_equal. f_equal.
    rewrite Nat.add_comm, Nat.mul_comm, Nat.div_add by lia.
    now rewrite Nat.div_small.
Qed.

Lemma local_index_index (s : config) (sites : list Z) :
  local_index s sites = index (map (fun a => nth (Z.to_nat a) s 0%Z) sites).
Proof.
  unfold local_index, index.
  assert (G : forall acc,
    fold_left (fun acc a => 2 * acc + Z.to_nat (nth (Z.to_nat a) s 0%Z)) sites acc
    = fold_left (fun acc b => 2 * acc + Z.to_nat b)
        (map (fun a => nth (Z.to_nat a) s 0%Z) sites) acc).
  { induction sites as [|a sites IH]; intros acc; simpl; [reflexivity|]. apply IH. }
  apply G.
Qed.

Lemma binary_pick (s : config) (sites : list Z) :
  binary s -> binary (map (fun a => nth (Z.to_nat a) s 0%Z) sites).
Proof.
  intros Hs. apply Forall_forall. intros z Hz. apply in_map_iff in Hz.
  destruct Hz as [a [<- _]]. apply binary_nth. exact Hs.
Qed.

(** *** One string *)

(** A product whose factors outside [keep] are 1 or 0. *)
Lemma Cprod_filter {A : Type} (F : A -> C) (keep one : A -> bool) (l : list A) :
  (forall x, In x l -> keep x = false -> F x = if one x then C1 else C0) ->
  Cprod (map F l)
  = if forallb (fun x => keep x || one x) l
    then Cprod (map F (filter keep l)) else C0.
Proof.
  induction l as [|x l IH]; intros H; [reflexivity|].
  cbn [map forallb filter]. rewrite Cprod_cons.
  rewrite IH by (intros y Hy; apply H; now right).
  destruct (keep x) eqn:Ek; cbn [orb andb map].
  - destruct (forallb _ l); [now rewrite Cprod_cons|apply Cmul_0_r].
  - rewrite (H x (or_introl eq_refl) Ek).
    destruct (one x); cbn [andb]; [apply Cmul_1_l|apply Cmul_0_l].
Qed.

(** The factor of position [q], holding the character [c], in the
    entry that joins [s] and [s']. *)
Definition factor (s s' : config) (qc : nat * ascii) : C :=
  entry C0 (pauli_of_char (snd qc))
    (Z.to_nat (nth (fst qc) s 0%Z)) (Z.to_nat (nth (fst qc) s' 0%Z)).

Lemma string_entry_factors (p : string) (s s' : config) :
  binary s -> binary s' ->
  length s = String.length p -> length s' = String.length p ->
  string_entry p (index s) (index s')
  = Cprod (map (factor s s') (enumerate (chars p))).
Proof.
  intros Hs Hs' Hl Hl'. unfold string_entry, kron_entries.
  rewrite length_map. f_equal.
  rewrite (map_enumerate (fun q c => factor s s' (q, c)) "I"%char).
  apply map_ext_in. intros q Hq. apply in_seq in Hq.
  rewrite length_chars in Hq.
  rewrite (nth_indep _ [] (pauli_of_char "I"%char))
    by (rewrite length_map, length_chars; lia).
  rewrite (map_nth pauli_of_char). unfold factor. cbn [fst snd].
  rewrite length_chars.
  rewrite <- Hl at 1. rewrite (digit_index s Hs q) by lia.
  rewrite <- Hl'. rewrite (digit_index s' Hs' q) by lia. reflexivity.
Qed.

Lemma map_seq_nth {A B : Type} (g : nat -> B) (f : A -> B) (d : A) (l : list A) :
  (forall r, r < length l -> g r = f (nth r l d)) ->
  map g (seq 0 (length l)) = map f l.
Proof.
  intros H.
  transitivity (map f (map (fun k => nth k l d) (seq 0 (length l)))).
  - rewrite map_map. apply map_ext_in. intros r Hr. apply in_seq in Hr.
    apply H. lia.
  - now rewrite StableSort.map_nth_seq.
Qed.

Lemma kron_entries_factors (p : string) (s s' : config) :
  binary s -> binary s' ->
  kron_entries (non_identity_ops p)
    (local_index s (non_identity_sites p)) (local_index s' (non_identity_sites p))
  = Cprod (map (factor s s') (non_identity p)).
Proof.
  intros Hs Hs'. unfold kron_entries, non_identity_ops, non_identity_sites.
  rewrite !local_index_index, !map_map, length_map. f_equal.
  generalize (non_identity p) as fl. intros fl.
  set (pick := fun t : config =>
                 map (fun x : nat * ascii => nth (Z.to_nat (Z.of_nat (fst x))) t 0%Z) fl).
  assert (Hlen : forall t, length (pick t) = length fl)
    by (intros t; apply length_map).
  assert (Hb : forall t, binary t -> binary (pick t)).
  { intros t Ht. apply Forall_forall. intros z Hz. apply in_map_iff in Hz.
    destruct Hz as [x [<- _]]. now apply binary_nth. }
  assert (Hd : forall t r, binary t -> r < length fl ->
             digit (length fl) r (index (pick t))
             = Z.to_nat (nth (fst (nth r fl (0, "I"%char))) t 0%Z)).
  { intros t r Ht Hr. rewrite <- (Hlen t).
    rewrite digit_index by (auto; rewrite Hlen; lia).
    unfold pick.
    rewrite (nth_indep (map _ _) 0%Z
               (nth (Z.to_nat (Z.of_nat (fst (0, "I"%char)))) t 0%Z))
      by (rewrite length_map; lia).
    rewrite (map_nth (fun x : nat * ascii => nth (Z.to_nat (Z.of_nat (fst x))) t 0%Z)).
    now rewrite Nat2Z.id. }
  apply (map_seq_nth _ (factor s s') (0, "I"%char)).
  intros r Hr. fold (pick s) (pick s'). rewrite !Hd by assumption.
  rewrite (nth_indep _ [] (pauli_of_char (snd (0, "I"%char))))
    by (rewrite length_map; lia).
  rewrite (map_nth (fun kc : nat * ascii => pauli_of_char (snd kc))).
  reflexivity.
Qed.

Lemma agree_off_sites (p : string) (s s' : config) :
  length s = String.length p -> length s' = String.length p ->
  agree_off (non_identity_sites p) s s'
  = forallb (fun qc => negb (is_I (snd qc))
                       || (nth (fst qc) s 0 =? nth (fst qc) s' 0)%Z)
            (enumerate (chars p)).
Proof.
  intros Hl Hl'. apply eq_true_iff_eq.
  rewrite RydbergMatrix.agree_off_spec, forallb_forall. split.
  - intros [_ Ha] [q c] Hin. cbn [fst snd].
    apply SparseEdges.in_enumerate_iff in Hin.
    assert (Hq : q < length s).
    { rewrite Hl, <- length_chars. apply nth_error_Some. congruence. }
    apply orb_true_iff. destruct (Ha q Hq) as [Hs|E]; [left|right].
    + unfold non_identity_sites in Hs. apply in_map_iff in Hs.
      destruct Hs as [[q' c'] [Eq Hin']]. cbn [fst] in Eq.
      apply Nat2Z.inj in Eq. subst q'.
      unfold non_identity in Hin'. apply filter_In in Hin'.
      destruct Hin' as [Hin' Hk]. apply SparseEdges.in_enumerate_iff in Hin'.
      cbn [snd] in Hk. congruence.
    + now apply Z.eqb_eq.
  - intros H. split; [congruence|]. intros i Hi.
    destruct (nth_error (chars p) i) as [c|] eqn:Ec.
    2:{ apply nth_error_None in Ec. rewrite length_chars in Ec. lia. }
    assert (Hin : In (i, c) (enumerate (chars p)))
      by now apply SparseEdges.in_enumerate_iff.
    specialize (H (i, c) Hin). cbn [fst snd] in H.
    apply orb_true_iff in H. destruct H as [Hk|E]; [left|right].
    + unfold non_identity_sites. apply in_map_iff. exists (i, c).
      split; [reflexivity|]. unfold non_identity. apply filter_In. now split.
    + now apply Z.eqb_eq.
Qed.

(** The entry of the dense array of a Pauli string, between the rows
    of two configurations, is the matrix element of the local operator
    on the positions that do not hold I. *)
Lemma string_entry_local (p : string) (s s' : config) :
  pauli_string p -> binary s -> binary s' ->
  length s = String.length p -> length s' = String.length p ->
  string_entry p (index s) (index s')
  = if agree_off (non_identity_sites p) s s'
    then kron_entries (non_identity_ops p)
           (local_index s (non_identity_sites p))
           (local_index s' (non_identity_sites p))
    else C0.
Proof.
  intros Hp Hs Hs' Hl Hl'.
  rewrite string_entry_factors, kron_entries_factors, agree_off_sites; trivial.
  unfold non_identity. apply Cprod_filter.
  intros [q c] Hin Hk. cbn [fst snd] in *.
  apply negb_false_iff in Hk. unfold is_I in Hk. apply Ascii.eqb_eq in Hk.
  subst c. unfold factor. cbn [fst snd].
  destruct (binary_nth s q Hs) as [E0|E0];
    destruct (binary_nth s' q Hs') as [E1|E1]; rewrite E0, E1; reflexivity.
Qed.

Lemma all_I_no_sites (p : string) : all_I p = true -> non_identity p = [].
Proof.
  unfold all_I, non_identity. intros H.
  rewrite forallb_forall in H.
  destruct (filter _ _) as [|[q c] l] eqn:E; [reflexivity|].
  assert (Hin : In (q, c) (filter (fun kc => negb (is_I (snd kc)))
                             (enumerate (chars p))))
    by (rewrite E; now left).
  apply filter_In in Hin. destruct Hin as [Hin Hk].
  apply in_enumerate in Hin. destruct Hin as [_ Hc]. cbn [snd] in *.
  rewrite (H c Hc) in Hk. discriminate.
Qed.

(** The matrix element of the term that [BuildHamiltonian] adds for a
    string. *)
Lemma term_element (N : nat) (p : string) (c : C) (s s' : config) :
  String.length p = N -> pauli_string p ->
  (all_I p = true -> snd c = 0%R) ->
  binary s -> binary s' -> length s = N -> length s' = N ->
  matrix_elementC N (term_of (p, c)) s s'
  = Cmul c (string_entry p (index s) (index s')).
Proof.
  intros HpN Hp Hreal Hs Hs' Hl Hl'.
  rewrite string_entry_local by (trivial; congruence).
  unfold term_of. cbn [fst snd].
  destruct (all_I p) eqn:EI.
  - unfold non_identity_sites, non_identity_ops.
    rewrite (all_I_no_sites p EI). cbn [map matrix_elementC].
    assert (Ec : RtoC (Cre c) = c).
    { destruct c as [x y]. specialize (Hreal eq_refl). simpl in Hreal.
      subst y. reflexivity. }
    rewrite Ec.
    destruct (list_eq_dec Z.eq_dec s s') as [<-|NE].
    + rewrite SameHamiltonian.agree_off_refl.
      unfold kron_entries. cbn. now rewrite Cmul_1_r.
    + destruct (agree_off [] s s') eqn:Ea; [|now rewrite Cmul_0_r].
      exfalso. apply NE. apply RydbergMatrix.agree_off_spec in Ea.
      destruct Ea as [El Ha]. apply RydbergMatrix.config_ext; [exact El|].
      intros i Hi. destruct (Ha i Hi) as [[]|E]. exact E.
  - assert (Hhp : has_pauli p = true).
    { rewrite (all_I_has_pauli p Hp) in EI. now apply negb_false_iff in EI. }
    destruct (OperatorFromString_ok p Hp Hhp) as (M & EM & _ & SM & HM).
    rewrite EM. cbn [matrix_elementC].
    destruct (agree_off (non_identity_sites p) s s'); [|now rewrite Cmul_0_r].
    assert (Hi : forall t, binary t ->
               local_index t (non_identity_sites p)
               < 2 ^ length (non_identity_sites p)).
    { intros t Ht. rewrite local_index_index.
      rewrite <- (length_map (fun a => nth (Z.to_nat a) t 0%Z)).
      apply index_lt. now apply binary_pick. }
    rewrite (mscale_entry (2 ^ length (non_identity_sites p))) by auto.
    now rewrite HM by auto.
Qed.

Lemma element_fold_Add (n : nat) (s s' : config) (ts : list (LocalOperator C)) :
  forall H0,
    matrix_elementC n (fold_left Add ts H0) s s'
    = fold_left Cadd (map (fun t => matrix_elementC n t s s') ts)
        (matrix_elementC n H0 s s').
Proof.
  induction ts as [|t ts IH]; intros H0; [reflexivity|].
  cbn [fold_left map]. now rewrite IH.
Qed.

Lemma map_seq_combine {A B D : Type} (G : A -> B -> D) (da : A) (db : B)
      (la : list A) :
  forall lb, length lb = length la ->
    map (fun k => G (nth k la da) (nth k lb db)) (seq 0 (length la))
    = map (fun pc => G (fst pc) (snd pc)) (combine la lb).
Proof.
  induction la as [|a la IH]; intros [|b lb] H; simpl in H; try discriminate;
    [reflexivity|].
  cbn [length seq map combine fst snd nth]. f_equal.
  rewrite <- seq_shift, map_map. apply IH. congruence.
Qed.

(** X21. The two Hamiltonians of the BeH2 notebook are one operator.
    For Pauli strings of [N >= 1] characters with one coefficient each,
    real for the strings that are all I, the dense array returned by
    [hamiltonian] and the NetKet operator returned by
    [BuildHamiltonian] have the same entries: the matrix element of
    the operator between two configurations is the entry of the array
    at the rows the configurations number in binary, the first site
    first. *)
Theorem both_hamiltonians_agree
    (N : nat) (pauli : list string) (interactions : list C) (s s' : config) :
  1 <= N ->
  pauli <> [] ->
  Forall (fun p => String.length p = N /\ pauli_string p) pauli ->
  length interactions = length pauli ->
  (forall k, k < length pauli -> all_I (nth k pauli EmptyString) = true ->
             snd (nth k interactions C0) = 0%R) ->
  length s = N -> length s' = N -> binary s -> binary s' ->
  exists Hd Hs,
    hamiltonian pauli interactions = Ok Hd
    /\ snd (BuildHamiltonian N pauli interactions) = Ok Hs
    /\ index s < 2 ^ N /\ index s' < 2 ^ N
    /\ matrix_elementC N Hs s s' = entry C0 Hd (index s) (index s').
Proof.
  intros HN Hne Hp Hlen Hreal Hl Hl' Hs Hs'.
  assert (HpN : Forall (fun p => String.length p = N) pauli).
  { eapply Forall_impl; [|exact Hp]. now intros p [H _]. }
  destruct pauli as [|first rest] eqn:Epauli; [contradiction|].
  rewrite <- Epauli in *.
  assert (HfN : String.length first = N).
  { rewrite Epauli in HpN. exact (Forall_inv HpN). }
  destruct (DenseEdges.hamiltonian_prefix N interactions pauli HN HpN ltac:(lia))
    as (Hd & EHd & _ & HeH).
  exists Hd, (fold_left Add (map term_of (combine pauli interactions)) (Const C0)).
  assert (Hi : index s < 2 ^ N) by (rewrite <- Hl; now apply index_lt).
  assert (Hi' : index s' < 2 ^ N) by (rewrite <- Hl'; now apply index_lt).
  split; [|split; [|split; [exact Hi|split; [exact Hi'|]]]].
  - rewrite Epauli, DenseEdges.hamiltonian_unfold, HfN, <- Epauli. exact EHd.
  - now rewrite (BuildHamiltonian_run N pauli interactions Hp Hlen).
  - rewrite (HeH _ _ Hi Hi'), element_fold_Add.
    assert (E0 : matrix_elementC N (Const C0) s s' = C0).
    { simpl. now destruct (list_eq_dec Z.eq_dec s s'). }
    rewrite E0. unfold Csum. f_equal. rewrite map_map.
    rewrite (map_seq_combine
               (fun p c => Cmul c (string_entry p (index s) (index s')))
               EmptyString C0 pauli interactions Hlen).
    apply map_ext_in. intros [p c] Hin. cbn [fst snd].
    apply term_element; trivial.
    + rewrite Forall_forall in HpN. apply HpN. eapply in_combine_l. exact Hin.
    + rewrite Forall_forall in Hp. apply Hp. eapply in_combine_l. exact Hin.
    + intros HI. apply (In_nth _ _ (EmptyString, C0)) in Hin.
      destruct Hin as [k [Hk Ek]]. rewrite combine_nth in Ek by congruence.
      injection Ek as E1 E2.
      rewrite length_combine, Hlen, Nat.min_id in Hk.
      rewrite <- E1 in HI. rewrite <- E2. now apply Hreal.
Qed.

(** Three strings on two qubits, between the configurations 01 and
    11. *)
Lemma both_hamiltonians_agree_example :
  exists Hd Hs,
    hamiltonian ["II"; "XZ"; "YI"]%string [C1; Ci; (2, 3)%R] = Ok Hd
    /\ snd (BuildHamiltonian 2 ["II"; "XZ"; "YI"]%string [C1; Ci; (2, 3)%R]) = Ok Hs
    /\ index [0; 1]%Z < 2 ^ 2 /\ index [1; 1]%Z < 2 ^ 2
    /\ matrix_elementC 2 Hs [0; 1]%Z [1; 1]%Z
       = entry C0 Hd (index [0; 1]%Z) (index [1; 1]%Z).
Proof.
  apply both_hamiltonians_agree; try reflexivity.
  - lia.
  - discriminate.
  - pauli_strings.
  - intros [|[|[|k]]] Hk HI; simpl in *; try reflexivity; try discriminate; lia.
  - unfold binary. repeat (apply Forall_cons; [lia|]). apply Forall_nil.
  - unfold binary. repeat (apply Forall_cons; [lia|]). apply Forall_nil.
Defined.

End TwoHamiltonians.

(** ** The dense Hamiltonian of a concatenated list *)

Module DenseAddition.

Import BeH2 Kron PauliProduct DenseHamiltonian.
Open Scope nat_scope.

(** Two square arrays with the same entries are one array. *)
Lemma square_ext (n : nat) (A B : matrix C) :
  square n A -> square n B ->
  (forall i j, i < n -> j < n -> entry C0 A i j = entry C0 B i j) ->
  A = B.
Proof.
  intros [LA FA] [LB FB] H. apply (nth_ext A B [] []); [congruence|].
  intros i Hi. rewrite LA in Hi.
  assert (Ra : length (nth i A []) = n).
  { rewrite Forall_forall in FA. apply FA. apply nth_In. lia. }
  assert (Rb : length (nth i B []) = n).
  { rewrite Forall_forall in FB. apply FB. apply nth_In. lia. }
  apply (nth_ext _ _ C0 C0); [congruence|].
  intros j Hj. rewrite Ra in Hj. exact (H i j Hi Hj).
Qed.

Lemma Cadd_assoc (a b c : C) : Cadd (Cadd a b) c = Cadd a (Cadd b c).
Proof. destruct a, b, c. unfold Cadd. simpl. f_equal; ring. Qed.

Lemma Cadd_0_r (x : C) : Cadd x C0 = x.
Proof. destruct x. unfold Cadd, C0, RtoC. simpl. f_equal; ring. Qed.

Lemma fold_Cadd (l : list C) : forall a, fold_left Cadd l a = Cadd a (Csum l).
Proof.
  unfold Csum. induction l as [|x l IH]; intros a; simpl.
  - now rewrite Cadd_0_r.
  - rewrite IH, (IH (Cadd C0 x)), TwoHamiltonians.Cadd_0_l, Cadd_assoc.
    reflexivity.
Qed.

Lemma Csum_app (l1 l2 : list C) : Csum (l1 ++ l2) = Cadd (Csum l1) (Csum l2).
Proof. unfold Csum at 1. rewrite fold_left_app, fold_Cadd. reflexivity. Qed.

Lemma seq_offset (a n : nat) : seq a n = map (Nat.add a) (seq 0 n).
Proof.
  induction a as [|a IH].
  - simpl. now rewrite map_id.
  - rewrite <- seq_shift, IH, map_map. reflexivity.
Qed.

(** X22. [hamiltonian] is additive over the list of terms.  For two
    non-empty lists of strings of one length [N >= 1], each with as
    many coefficients, the array returned for the concatenated lists is
    the sum of the arrays returned for either list. *)
Theorem hamiltonian_of_concatenation
    (N : nat) (pauli1 pauli2 : list string) (inter1 inter2 : list C) :
  1 <= N ->
  pauli1 <> [] -> pauli2 <> [] ->
  Forall (fun s => String.length s = N) pauli1 ->
  Forall (fun s => String.length s = N) pauli2 ->
  length inter1 = length pauli1 ->
  length inter2 = length pauli2 ->
  exists H1 H2 H,
    hamiltonian pauli1 inter1 = Ok H1
    /\ hamiltonian pauli2 inter2 = Ok H2
    /\ hamiltonian (pauli1 ++ pauli2) (inter1 ++ inter2) = Ok H
    /\ madd H1 H2 = Ok H.
Proof.
  intros HN Hne1 Hne2 Hl1 Hl2 Hi1 Hi2.
  assert (Hrun : forall pl ints, pl <> [] ->
            Forall (fun s => String.length s = N) pl ->
            length ints = length pl ->
            exists H, hamiltonian pl ints = Ok H /\ square (2 ^ N) H
              /\ forall i j, i < 2 ^ N -> j < 2 ^ N ->
                   entry C0 H i j
                   = Csum (map (fun k => Cmul (nth k ints C0)
                                  (string_entry (nth k pl EmptyString) i j))
                               (seq 0 (length pl)))).
  { intros pl ints Hne Hl Hi.
    destruct pl as [|first rest] eqn:E; [contradiction|]. rewrite <- E in *.
    assert (HfN : String.length first = N).
    { rewrite E in Hl. exact (Forall_inv Hl). }
    destruct (DenseEdges.hamiltonian_prefix N ints pl HN Hl ltac:(lia))
      as (H & EH & SH & HeH).
    exists H. split; [|split; assumption].
    rewrite E, DenseEdges.hamiltonian_unfold, HfN, <- E. exact EH. }
  destruct (Hrun pauli1 inter1 Hne1 Hl1 Hi1) as (H1 & E1 & S1 & He1).
  destruct (Hrun pauli2 inter2 Hne2 Hl2 Hi2) as (H2 & E2 & S2 & He2).
  destruct (Hrun (pauli1 ++ pauli2) (inter1 ++ inter2)) as (H & E & S & He).
  { destruct pauli1; [contradiction|discriminate]. }
  { apply Forall_app. now split. }
  { rewrite !length_app. congruence. }
  destruct (madd_square (2 ^ N) H1 H2 S1 S2) as (M & EM & SM & HeM).
  exists H1, H2, H. split; [exact E1|]. split; [exact E2|]. split; [exact E|].
  rewrite EM. f_equal. apply (square_ext (2 ^ N)); trivial.
  intros i j Hi Hj.
  rewrite (HeM i j Hi Hj), (He i j Hi Hj), (He1 i j Hi Hj), (He2 i j Hi Hj).
  rewrite length_app, seq_app, map_app, Csum_app. f_equal.
  - apply f_equal. apply map_ext_in. intros k Hk. apply in_seq in Hk.
    now rewrite !app_nth1 by lia.
  - apply f_equal. cbn [Nat.add].
    rewrite (seq_offset (length pauli1)), map_map.
    apply map_ext_in. intros k Hk. apply in_seq in Hk.
    rewrite !app_nth2 by lia.
    replace (length pauli1 + k - length inter1) with k by lia.
    now replace (length pauli1 + k - length pauli1) with k by lia.
Qed.

(** One string and then two, on two qubits. *)
Lemma hamiltonian_of_concatenation_example :
  exists H1 H2 H,
    hamiltonian ["ZI"%string] [C1] = Ok H1
    /\ hamiltonian ["XY"; "II"]%string [Ci; C1] = Ok H2
    /\ hamiltonian (["ZI"%string] ++ ["XY"; "II"]%string) ([C1] ++ [Ci; C1]) = Ok H
    /\ madd H1 H2 = Ok H.
Proof.
  apply (hamiltonian_of_concatenation 2); try discriminate; try reflexivity;
    try lia; repeat constructor.
Defined.

End DenseAddition.

(** ** [logpsi] row by row *)

Module RowByRow.

Import VMC Amplitude LocalEnergy.
Open Scope R_scope.

(** X23. [logpsi] acts on every row by itself: on two batches of rows
    of [N >= 1] entries put one after the other it returns the values
    of the first batch followed by those of the second, so the value
    of a row does not depend on the batch the row is in. *)
Theorem logpsi_acts_row_by_row
    (self : vmc) (ly : layers) (batch1 batch2 : array2) :
  (1 <= N self)%Z ->
  Forall (fun s => length s = Z.to_nat (N self)) batch1 ->
  Forall (fun s => length s = Z.to_nat (N self)) batch2 ->
  exists l1 l2,
    logpsi self ly batch1 = Ok l1
    /\ logpsi self ly batch2 = Ok l2
    /\ logpsi self ly (batch1 ++ batch2) = Ok (l1 ++ l2).
Proof.
  intros HN H1 H2.
  exists (map (amplitude self ly) batch1), (map (amplitude self ly) batch2).
  rewrite <- map_app. repeat split; apply logpsi_rows; trivial.
  apply Forall_app. now split.
Qed.

(** Two batches on the 2-by-2 lattice. *)
Lemma logpsi_acts_row_by_row_example :
  exists l1 l2,
    logpsi (init 2 2 7 1 1) example_layers [[0; 1; 1; 0]%Z] = Ok l1
    /\ logpsi (init 2 2 7 1 1) example_layers [[1; 1; 0; 0]; [0; 0; 0; 0]]%Z = Ok l2
    /\ logpsi (init 2 2 7 1 1) example_layers
         ([[0; 1; 1; 0]%Z] ++ [[1; 1; 0; 0]; [0; 0; 0; 0]]%Z) = Ok (l1 ++ l2).
Proof.
  apply logpsi_acts_row_by_row.
  - rewrite LatticeFacts.vmc_closed. simpl. lia.
  - repeat constructor.
  - repeat constructor.
Defined.

Lemma Rsum_zeros {A : Type} (f : A -> R) (l : list A) :
  (forall x, In x l -> f x = 0) -> Rsum (map f l) = 0.
Proof.
  intros H. induction l as [|x l IH]; simpl; [reflexivity|].
  rewrite (H x (or_introl eq_refl)), IH; [ring|].
  intros y Hy. apply H. now right.
Qed.

(** X24. [logpsi] does not check the entries of a row.  An entry other
    than 0 and 1 is encoded by [tf.one_hot] as the zero vector and adds
    nothing to the sum of the row: a row of [N] such entries gets the
    value 0, whatever the network. *)
Theorem logpsi_of_other_entries_is_zero
    (self : vmc) (ly : layers) (batch : array2) :
  (1 <= N self)%Z ->
  Forall (fun s => length s = Z.to_nat (N self)) batch ->
  exists l,
    logpsi self ly batch = Ok l
    /\ length l = length batch
    /\ forall i s, nth_error batch i = Some s ->
         Forall (fun z => z <> 0%Z /\ z <> 1%Z) s ->
         nth_error l i = Some 0.
Proof.
  intros HN Hb. exists (map (amplitude self ly) batch).
  split; [now apply logpsi_rows|]. split; [apply length_map|].
  intros i s Hi Hs. rewrite nth_error_map, Hi. cbn [option_map]. f_equal.
  unfold amplitude. rewrite Rsum_zeros; [decimals; field|].
  intros [p z] Hin. cbn [fst snd].
  apply in_combine_r in Hin. rewrite Forall_forall in Hs.
  destruct (Hs z Hin) as [H0 H1]. unfold dot2, one_hot. cbn [fst snd].
  destruct (Z.eqb_spec z 0) as [|_]; [contradiction|].
  destruct (Z.eqb_spec z 1) as [|_]; [contradiction|]. ring.
Qed.

(** A row of spins written as -1 and 2 on the 1-by-2 lattice. *)
Lemma logpsi_of_other_entries_is_zero_example :
  exists l,
    logpsi (init 1 2 7 1 1) example_layers [[-1; 2]; [0; 1]]%Z = Ok l
    /\ length l = length [[-1; 2]; [0; 1]]%Z
    /\ forall i s, nth_error [[-1; 2]; [0; 1]]%Z i = Some s ->
         Forall (fun z => z <> 0%Z /\ z <> 1%Z) s ->
         nth_error l i = Some 0.
Proof.
  apply logpsi_of_other_entries_is_zero.
  - rewrite LatticeFacts.vmc_closed. simpl. lia.
  - repeat constructor.
Defined.

End RowByRow.

(** ** The energy as a weighted sum of local energies *)

Module Expectation.

Import NetKet VMC Amplitude LocalEnergy SameHamiltonian Normalisation RydbergMatrix.
Open Scope R_scope.

(** X25. What the training loop estimates.  On a lattice with
    [Lx >= 1] and [Ly >= 1], take for batch all configurations of the
    lattice: the local energies that [localenergy] returns, each
    weighted by the squared amplitude [exp(2 * logpsi)] of its row, add
    up to the expectation value of the Hamiltonian of
    [generatehamiltonian] in the state of the network, the sum over
    all [s] and [t] of [exp(logpsi(s)) * <s|H|t> * exp(logpsi(t))]. *)
Theorem weighted_local_energies_give_the_energy
    (Lx Ly : Z) (V Omega delta : R) (ly : layers) (h : heap) (samples_ref : ref) :
  let self := init Lx Ly V Omega delta in
  let n := Z.to_nat (Lx * Ly) in
  let H := Tomography.generatehamiltonian Lx Ly V Omega delta in
  (1 <= Lx)%Z -> (1 <= Ly)%Z ->
  nth_error h samples_ref = Some (configs n) ->
  exists all eloc,
    logpsi self ly (configs n) = Ok all
    /\ fst (localenergy self ly samples_ref all h) = Ok eloc
    /\ Rsum (map (fun le => exp (2 * fst le) * snd le) (combine all eloc))
       = Rsum (map (fun sl =>
                 Rsum (map (fun tl => exp (snd sl)
                                      * matrix_element n H (fst sl) (fst tl)
                                      * exp (snd tl))
                           (combine (configs n) all)))
               (combine (configs n) all)).
Proof.
  intros self n H HLx HLy Hh.
  assert (EN : N self = (Lx * Ly)%Z).
  { subst self. now rewrite LatticeFacts.vmc_closed. }
  assert (HN : (1 <= N self)%Z) by nia.
  assert (Hrows : Forall (fun s => length s = n /\ binary s) (configs n)).
  { apply Forall_forall. intros s Hs. apply in_configs in Hs. exact Hs. }
  set (amp := amplitude self ly).
  exists (map amp (configs n)),
         (map (fun s => local_energy_value self ly s (amp s)) (configs n)).
  split; [|split].
  - apply logpsi_rows; [exact HN|]. rewrite EN.
    eapply Forall_impl; [|exact Hrows]. intros s [Hl _]. exact Hl.
  - assert (Hv : forall l, Forall (LatticeBounds.valid_bond (N self)) l ->
                           Forall (in_lattice (N self)) l).
    { intros l. apply Forall_impl. intros b (_ & Ha & Hb). split; assumption. }
    rewrite (localenergy_batch self ly samples_ref (configs n)
               (map amp (configs n))).
    + rewrite Sampling.combine_map_r, map_map. reflexivity.
    + rewrite EN. exact Hrows.
    + apply length_map.
    + apply Hv. subst self. rewrite LatticeFacts.vmc_closed. simpl.
      apply LatticeBounds.nn_valid.
    + apply Hv. subst self. rewrite LatticeFacts.vmc_closed. simpl.
      apply LatticeBounds.nnn_valid.
    + apply Hv. subst self. rewrite LatticeFacts.vmc_closed. simpl.
      apply LatticeBounds.nnnn_valid.
    + exact Hh.
  - rewrite !Sampling.combine_map_r.
    replace (combine (map amp (configs n))
               (map (fun s => local_energy_value self ly s (amp s)) (configs n)))
      with (map (fun s => (amp s, local_energy_value self ly s (amp s)))
                (configs n)).
    2:{ generalize (configs n) as l. intros l.
        induction l as [|s l IH]; simpl; [reflexivity|]. now rewrite IH. }
    rewrite !map_map. f_equal. apply map_ext_in. intros s Hs. cbn [fst snd].
    rewrite Forall_forall in Hrows. destruct (Hrows s Hs) as [Hl Hb].
    unfold amp. subst self n H.
    rewrite estimator_row by assumption.
    rewrite <- Rsum_scale, map_map. f_equal. apply map_ext. intros t.
    cbn [fst snd].
    replace (2 * amplitude (init Lx Ly V Omega delta) ly s)
      with (amplitude (init Lx Ly V Omega delta) ly s
            + amplitude (init Lx Ly V Omega delta) ly s) by ring.
    unfold Rminus. rewrite !exp_plus, exp_Ropp.
    pose proof (exp_pos (amplitude (init Lx Ly V Omega delta) ly s)).
    field. lra.
Qed.

(** The 1-by-2 lattice. *)
Lemma weighted_local_energies_give_the_energy_1x2 :
  let self := init 1 2 7 1 1 in
  let n := Z.to_nat (1 * 2) in
  let H := Tomography.generatehamiltonian 1 2 7 1 1 in
  exists all eloc,
    logpsi self example_layers (configs n) = Ok all
    /\ fst (localenergy self example_layers 0%nat all [configs n]) = Ok eloc
    /\ Rsum (map (fun le => exp (2 * fst le) * snd le) (combine all eloc))
       = Rsum (map (fun sl =>
                 Rsum (map (fun tl => exp (snd sl)
                                      * matrix_element n H (fst sl) (fst tl)
                                      * exp (snd tl))
                           (combine (configs n) all)))
               (combine (configs n) all)).
Proof.
  apply (weighted_local_energies_give_the_energy 1 2 7 1 1 example_layers
           [configs (Z.to_nat (1 * 2))] 0%nat); try lia. reflexivity.
Defined.

End Expectation.

(** ** [eigensolve] returns the ground state *)

Module Spectrum.

Import BeH2 Kron PauliProduct GroundState.
Open Scope R_scope.

(** *** Sums of complex numbers *)

Ltac cring :=
  apply injective_projections;
  unfold Cmul, Cadd, Cconj, C0, C1; unfold RtoC; cbn [fst snd]; ring.

Lemma Csum_cons (x : C) (l : list C) : Csum (x :: l) = Cadd x (Csum l).
Proof.
  unfold Csum at 1. cbn [fold_left].
  now rewrite DenseAddition.fold_Cadd, TwoHamiltonians.Cadd_0_l.
Qed.

Lemma Csum_zero {A : Type} (f : A -> C) (l : list A) :
  (forall x, In x l -> f x = C0) -> Csum (map f l) = C0.
Proof.
  induction l as [|x l IH]; intros H; [reflexivity|].
  cbn [map]. rewrite Csum_cons, (H x (or_introl eq_refl)), IH.
  - cring.
  - intros y Hy. apply H. now right.
Qed.

Lemma Csum_scale {A : Type} (a : C) (f : A -> C) (l : list A) :
  Csum (map (fun x => Cmul a (f x)) l) = Cmul a (Csum (map f l)).
Proof.
  induction l as [|x l IH]; cbn [map].
  - unfold Csum. simpl. cring.
  - rewrite !Csum_cons, IH. cring.
Qed.

Lemma Csum_add {A : Type} (f g : A -> C) (l : list A) :
  Csum (map (fun x => Cadd (f x) (g x)) l)
  = Cadd (Csum (map f l)) (Csum (map g l)).
Proof.
  induction l as [|x l IH]; cbn [map].
  - unfold Csum. simpl. cring.
  - rewrite !Csum_cons, IH. cring.
Qed.

Lemma Csum_swap {A B : Type} (f : A -> B -> C) (la : list A) (lb : list B) :
  Csum (map (fun a => Csum (map (f a) lb)) la)
  = Csum (map (fun b => Csum (map (fun a => f a b) la)) lb).
Proof.
  induction la as [|a la IH]; cbn [map].
  - symmetry. apply Csum_zero. reflexivity.
  - rewrite Csum_cons, IH, <- Csum_add.
    f_equal. apply map_ext. intros b. now rewrite Csum_cons.
Qed.

Lemma Csum_conj {A : Type} (f : A -> C) (l : list A) :
  Cconj (Csum (map f l)) = Csum (map (fun x => Cconj (f x)) l).
Proof.
  induction l as [|x l IH]; cbn [map].
  - unfold Csum. simpl. cring.
  - rewrite !Csum_cons, <- IH. cring.
Qed.

Lemma Csum_single {A : Type} (f : A -> C) (l : list A) (x0 : A) :
  NoDup l -> In x0 l -> (forall x, In x l -> x <> x0 -> f x = C0) ->
  Csum (map f l) = f x0.
Proof.
  induction l as [|x l IH]; intros Hnd Hin H0; [destruct Hin|].
  inversion Hnd as [|? ? Hx Hnd']; subst. cbn [map]. rewrite Csum_cons.
  destruct Hin as [->|Hin].
  - rewrite Csum_zero; [cring|].
    intros y Hy. apply H0; [now right|]. intros ->. contradiction.
  - rewrite IH; trivial.
    + rewrite (H0 x); [cring|now left|].
      intros ->. contradiction.
    + intros y Hy. apply H0. now right.
Qed.

Lemma fst_Csum {A : Type} (f : A -> C) (l : list A) :
  fst (Csum (map f l)) = Rsum (map (fun x => fst (f x)) l).
Proof.
  induction l as [|x l IH]; cbn [map].
  - reflexivity.
  - rewrite Csum_cons. cbn [Rsum fold_right]. fold (Rsum (map (fun x => fst (f x)) l)).
    rewrite <- IH. reflexivity.
Qed.

(** *** Sums over the entries *)

Lemma Csum_combine (g : C -> C -> C) (n : nat) (a b : list C) :
  length a = n -> length b = n ->
  Csum (map (fun p => g (fst p) (snd p)) (combine a b))
  = Csum (map (fun j => g (nth j a C0) (nth j b C0)) (seq 0 n)).
Proof.
  intros Ha Hb. subst n.
  now rewrite (TwoHamiltonians.map_seq_combine g C0 C0 a b Hb).
Qed.

Lemma inner_entries (n : nat) (u v : list C) :
  length u = n -> length v = n ->
  inner u v
  = Csum (map (fun j => Cmul (Cconj (nth j u C0)) (nth j v C0)) (seq 0 n)).
Proof.
  intros Hu Hv. unfold inner.
  exact (Csum_combine (fun x y => Cmul (Cconj x) y) n u v Hu Hv).
Qed.

Lemma length_row (n : nat) (M : matrix C) (i : nat) :
  square n M -> (i < n)%nat -> length (nth i M []) = n.
Proof.
  intros [Hl Hr] Hi. rewrite Forall_forall in Hr. apply Hr, nth_In. lia.
Qed.

Lemma mat_vec_entries (n : nat) (H : matrix C) (u : list C) (i : nat) :
  square n H -> length u = n -> (i < n)%nat ->
  nth i (mat_vec H u) C0
  = Csum (map (fun j => Cmul (entry C0 H i j) (nth j u C0)) (seq 0 n)).
Proof.
  intros Hsq Hu Hi. unfold mat_vec.
  set (F := fun row : list C =>
              Csum (map (fun p => Cmul (fst p) (snd p)) (combine row u))).
  change C0 with (F []) at 1. rewrite map_nth. unfold F.
  exact (Csum_combine Cmul n (nth i H []) u (length_row n H i Hsq Hi) Hu).
Qed.

Lemma length_column (n k : nat) (V : matrix C) :
  square n V -> length (column k V) = n.
Proof. intros [Hl _]. unfold column. now rewrite length_map. Qed.

Lemma column_entries (k : nat) (V : matrix C) (i : nat) :
  nth i (column k V) C0 = entry C0 V i k.
Proof.
  unfold column, entry. destruct (Nat.lt_ge_cases i (length V)) as [Hi|Hi].
  - rewrite (nth_indep _ C0 ((fun row : list C => nth k row C0) []))
      by now rewrite length_map.
    exact (map_nth (fun row : list C => nth k row C0) V [] i).
  - rewrite (nth_overflow (map _ V)) by now rewrite length_map.
    rewrite (nth_overflow V) by exact Hi. now destruct k.
Qed.

(** The eigenvalue equation, entry by entry. *)
Lemma eigen_entries (n : nat) (H : matrix C) (lam : R) (u : list C) :
  square n H -> length u = n ->
  mat_vec H u = map (Cmul (RtoC lam)) u ->
  forall i, (i < n)%nat ->
    Csum (map (fun j => Cmul (entry C0 H i j) (nth j u C0)) (seq 0 n))
    = Cmul (RtoC lam) (nth i u C0).
Proof.
  intros Hsq Hu E i Hi.
  rewrite <- (mat_vec_entries n H u i Hsq Hu Hi), E.
  rewrite (nth_indep _ C0 (Cmul (RtoC lam) C0)) by (rewrite length_map; lia).
  apply map_nth.
Qed.

Lemma Csum_ext_seq (f g : nat -> C) (n : nat) :
  (forall i, (i < n)%nat -> f i = g i) ->
  Csum (map f (seq 0 n)) = Csum (map g (seq 0 n)).
Proof.
  intros H. f_equal. apply map_ext_in. intros i Hi. apply H.
  apply in_seq in Hi. lia.
Qed.

(** *** Eigenvectors of a Hermitian array

    Two eigenvectors of a Hermitian array that belong to different
    eigenvalues are orthogonal. *)
Lemma eigenvectors_orthogonal (n : nat) (H : matrix C) (lam mu : R)
      (v u : list C) :
  hermitian n H -> length v = n -> length u = n ->
  mat_vec H v = map (Cmul (RtoC lam)) v ->
  mat_vec H u = map (Cmul (RtoC mu)) u ->
  lam <> mu ->
  inner v u = C0.
Proof.
  intros [Hsq Hherm] Hv Hu Ev Eu Hne.
  pose proof (eigen_entries n H lam v Hsq Hv Ev) as Ev'.
  pose proof (eigen_entries n H mu u Hsq Hu Eu) as Eu'.
  rewrite (inner_entries n v u Hv Hu).
  set (c := Csum (map (fun j => Cmul (Cconj (nth j v C0)) (nth j u C0)) (seq 0 n))).
  set (A := Csum (map (fun i => Cmul (Cconj (nth i v C0))
             (Csum (map (fun j => Cmul (entry C0 H i j) (nth j u C0)) (seq 0 n))))
             (seq 0 n))).
  assert (A1 : A = Cmul (RtoC mu) c).
  { unfold A, c. rewrite <- Csum_scale. apply Csum_ext_seq. intros i Hi.
    rewrite (Eu' i Hi). cring. }
  assert (A2 : A = Cmul (RtoC lam) c).
  { unfold A, c. rewrite <- Csum_scale.
    transitivity (Csum (map (fun i => Csum (map (fun j =>
        Cmul (Cmul (Cconj (nth i v C0)) (entry C0 H i j)) (nth j u C0))
        (seq 0 n))) (seq 0 n))).
    { apply Csum_ext_seq. intros i Hi. rewrite <- Csum_scale.
      apply Csum_ext_seq. intros j Hj. cring. }
    rewrite Csum_swap. apply Csum_ext_seq. intros j Hj.
    transitivity (Cmul (Cconj (Csum (map (fun i =>
        Cmul (entry C0 H j i) (nth i v C0)) (seq 0 n)))) (nth j u C0)).
    { rewrite Csum_conj.
      transitivity (Csum (map (fun i => Cmul (nth j u C0)
          (Cconj (Cmul (entry C0 H j i) (nth i v C0)))) (seq 0 n))).
      - apply Csum_ext_seq. intros i Hi. rewrite (Hherm i j Hi Hj). cring.
      - rewrite Csum_scale. cring. }
    rewrite (Ev' j Hj). cring. }
  assert (E : Cmul (RtoC mu) c = Cmul (RtoC lam) c) by congruence.
  clearbody c. clear - E Hne. destruct c as [x y].
  unfold Cmul, RtoC in E. cbn [fst snd] in E. injection E as E1 E2.
  assert (Hx : (mu - lam) * x = 0) by lra.
  assert (Hy : (mu - lam) * y = 0) by lra.
  apply Rmult_integral in Hx, Hy.
  unfold C0, RtoC. f_equal; [destruct Hx|destruct Hy]; lra.
Qed.

(** A vector orthogonal to every column of a unitary array is zero. *)
Lemma orthogonal_to_columns (n : nat) (V : matrix C) (u : list C) :
  square n V -> length u = n ->
  (forall i j, (i < n)%nat -> (j < n)%nat ->
     inner (nth i V []) (nth j V []) = delta i j) ->
  (forall k, (k < n)%nat -> inner (column k V) u = C0) ->
  u = repeat C0 n.
Proof.
  intros Hsq Hu Hrows Hcols.
  apply (nth_ext _ _ C0 C0); [now rewrite repeat_length|].
  intros i Hi. rewrite Hu in Hi. rewrite nth_repeat.
  transitivity (Csum (map (fun j => Cmul (delta j i) (nth j u C0)) (seq 0 n))).
  { symmetry.
    rewrite (Csum_single _ (seq 0 n) i).
    - unfold delta. rewrite Nat.eqb_refl. cring.
    - apply seq_NoDup.
    - apply in_seq. lia.
    - intros j _ Hj. unfold delta.
      destruct (Nat.eqb_spec j i); [contradiction|]. cring. }
  transitivity (Csum (map (fun j => Csum (map (fun k =>
      Cmul (entry C0 V i k) (Cmul (Cconj (entry C0 V j k)) (nth j u C0)))
      (seq 0 n))) (seq 0 n))).
  { apply Csum_ext_seq. intros j Hj.
    rewrite <- (Hrows j i Hj Hi).
    rewrite (inner_entries n _ _ (length_row n V j Hsq Hj) (length_row n V i Hsq Hi)).
    transitivity (Cmul (nth j u C0) (Csum (map (fun k =>
        Cmul (Cconj (nth k (nth j V []) C0)) (nth k (nth i V []) C0))
        (seq 0 n)))); [cring|].
    rewrite <- Csum_scale. apply Csum_ext_seq. intros k Hk.
    unfold entry. cring. }
  rewrite Csum_swap. apply Csum_zero. intros k Hk.
  apply in_seq in Hk.
  rewrite Csum_scale.
  assert (E : Csum (map (fun j => Cmul (Cconj (entry C0 V j k)) (nth j u C0))
                     (seq 0 n)) = C0).
  { transitivity (inner (column k V) u); [|apply Hcols; lia].
    rewrite (inner_entries n _ _ (length_column n k V Hsq) Hu).
    apply Csum_ext_seq. intros j Hj. now rewrite column_entries. }
  rewrite E. cring.
Qed.

(** The squared norm of a vector is its product with itself. *)
Lemma norm_inner (v : list C) :
  fst (inner v v) = Rsum (map (fun z => fst z * fst z + snd z * snd z) v).
Proof.
  unfold inner. rewrite fst_Csum. induction v as [|z v IH]; [reflexivity|].
  cbn [combine map Rsum fold_right]. unfold Rsum in IH. rewrite IH.
  unfold Cmul, Cconj. cbn [fst snd]. ring.
Qed.

Lemma zero_not_unit (n : nat) : ~ unit_vector (repeat C0 n).
Proof.
  unfold unit_vector. intros E.
  assert (Z : Rsum (map (fun z : C => fst z * fst z + snd z * snd z)
                        (repeat C0 n)) = 0).
  { clear E. induction n as [|n IH]; [reflexivity|].
    cbn [repeat map Rsum fold_right]. unfold Rsum in IH. rewrite IH.
    unfold C0, RtoC. cbn [fst snd]. ring. }
  pose proof (eq_trans (eq_sym E) Z) as X. lra.
Qed.

(** C7. For a Hermitian array [H] with at least one row, on which
    [np.linalg.eigh] returns the ascending array [w] and the unitary
    array [V] with [H V[:, k] = w[k] V[:, k]], [eigensolve(H)] returns
    [w[0]] and the column [V[:, 0]]; this column is a unit eigenvector
    of [H] for [w[0]], and [w[0]] is below every eigenvalue of [H]
    (an eigenvector for a smaller number would be orthogonal to every
    column of [V], since [H] is Hermitian, and so would be zero). *)
Theorem eigensolve_returns_ground_state
    (eigh : matrix C -> result (list R * matrix C))
    (n : nat) (H : matrix C) (w : list R) (V : matrix C) :
  (1 <= n)%nat ->
  hermitian n H ->
  eigh H = Ok (w, V) ->
  eigh_returns n H w V ->
  exists lam v,
    eigensolve eigh H = Ok (lam, v)
    /\ lam = nth 0 w 0 /\ v = column 0 V
    /\ eigenpair n H lam v
    /\ unit_vector v
    /\ forall mu u, eigenpair n H mu u -> lam <= mu.
Proof.
  intros Hn Hherm Heigh (Hw & HV & Hasc & Heq & Hcols & Hrows).
  exists (nth 0 w 0), (column 0 V).
  assert (Hunit : unit_vector (column 0 V)).
  { unfold unit_vector. rewrite <- norm_inner, (Hcols 0%nat 0%nat Hn Hn).
    reflexivity. }
  split; [|split; [reflexivity | split; [reflexivity | split; [|split]]]].
  - unfold eigensolve. rewrite Heigh. cbn [bind].
    rewrite (py_getitem_ok w 0 0) by (rewrite Hw; lia). cbn [bind Z.to_nat].
    rewrite (mapM_ok _ (fun row => nth 0 row C0)); [reflexivity|].
    intros row Hrow. destruct HV as [_ HF]. rewrite Forall_forall in HF.
    rewrite (py_getitem_ok row 0 C0) by (rewrite (HF row Hrow); lia).
    reflexivity.
  - split; [exact (length_column n 0 V HV)|]. split; [|exact (Heq 0%nat Hn)].
    intros E. rewrite E in Hunit. exact (zero_not_unit n Hunit).
  - exact Hunit.
  - intros mu u (Hu & Hnz & Emu).
    destruct (Rle_lt_dec (nth 0 w 0) mu) as [Hle|Hlt]; [exact Hle|].
    exfalso. apply Hnz.
    apply (orthogonal_to_columns n V u HV Hu Hrows).
    intros k Hk.
    apply (eigenvectors_orthogonal n H (nth k w 0) mu (column k V) u Hherm
             (length_column n k V HV) Hu (Heq k Hk) Emu).
    pose proof (Hasc 0%nat k (Nat.le_0_l k) Hk). lra.
Qed.

Ltac entries :=
  unfold mat_vec, column, inner, delta, entry, Csum, Cmul, Cadd, Cconj, C0, C1;
  unfold RtoC; cbn [map combine fold_left nth fst snd Nat.eqb];
  repeat match goal with
         | |- _ :: _ = _ :: _ => f_equal
         | |- (_, _) = (_, _) => f_equal
         end; try lra.

(** The Hermitian two-by-two array with the eigenvalues 1 and 2, whose
    eigenvectors are the columns [(3/5, 4i/5)] and [(4/5, -3i/5)]: the
    result is the first eigenvalue and the first column, not the last
    eigenvalue or the first row. *)
Lemma eigensolve_returns_ground_state_2x2 :
  let H := [[RtoC (41/25); (0, 12/25)]; [(0, -12/25); RtoC (34/25)]] in
  let w := [1; 2] in
  let V := [[RtoC (3/5); RtoC (4/5)]; [(0, 4/5); (0, -3/5)]] in
  hermitian 2 H /\ eigh_returns 2 H w V
  /\ eigensolve (fun _ => Ok (w, V)) H = Ok (1, [RtoC (3/5); (0, 4/5)])
  /\ eigenpair 2 H 1 [RtoC (3/5); (0, 4/5)]
  /\ unit_vector [RtoC (3/5); (0, 4/5)]
  /\ forall mu u, eigenpair 2 H mu u -> 1 <= mu.
Proof.
  intros H w V.
  assert (Hherm : hermitian 2 H).
  { split; [split; [reflexivity | repeat constructor]|].
    intros [|[|i]] [|[|j]] Hi Hj; try lia; unfold H; entries. }
  assert (Hret : eigh_returns 2 H w V).
  { split; [reflexivity|]. split; [split; [reflexivity | repeat constructor]|].
    split; [|split; [|split]].
    - intros [|[|a]] [|[|b]] Ha Hb; try lia; simpl; lra.
    - intros [|[|k]] Hk; try lia; unfold H, w, V; entries.
    - intros [|[|j]] [|[|k]] Hj Hk; try lia; unfold V; entries.
    - intros [|[|i]] [|[|j]] Hi Hj; try lia; unfold V; entries. }
  split; [exact Hherm|]. split; [exact Hret|].
  destruct (eigensolve_returns_ground_state (fun _ => Ok (w, V)) 2 H w V
              (le_S 1 1 (le_n 1)) Hherm eq_refl Hret)
    as (lam & v & E & -> & -> & Hpair & Hunit & Hmin).
  split; [exact E|]. split; [exact Hpair|]. split; [exact Hunit|exact Hmin].
Defined.

(** The array with no row is Hermitian; [np.linalg.eigh] returns two
    empty arrays on it, and [eigenvalues[0]] raises.  Whatever [eigh]
    does there within its contract, [eigensolve] returns no pair. *)
Lemma eigensolve_raises_on_empty_array :
  hermitian 0 [] /\ eigh_returns 0 [] [] []
  /\ (forall eigh w V, eigh [] = Ok (w, V) -> eigh_returns 0 [] w V ->
        eigensolve eigh [] = Raise IndexError)
  /\ (forall eigh,
        (forall w V, eigh [] = Ok (w, V) -> eigh_returns 0 [] w V) ->
        exists e, eigensolve eigh [] = Raise e).
Proof.
  assert (G : forall eigh w V, eigh [] = Ok (w, V) -> eigh_returns 0 [] w V ->
                eigensolve eigh [] = Raise IndexError).
  { intros eigh w V E (Hw & _). unfold eigensolve. rewrite E.
    destruct w; [reflexivity | discriminate Hw]. }
  split; [|split; [|split]].
  - split; [split; [reflexivity | constructor]|]. intros i j Hi. lia.
  - split; [reflexivity|]. split; [split; [reflexivity | constructor]|].
    repeat split; intros; lia.
  - exact G.
  - intros eigh Hc. destruct (eigh []) as [[w V]|e] eqn:E.
    + exists IndexError. exact (G eigh w V E (Hc w V eq_refl)).
    + exists e. unfold eigensolve. rewrite E. reflexivity.
Qed.

End Spectrum.
